(** * Control-reference expressions: lexer, parser and evaluator

    A shallow embedding of
    [Source/Core/InputCommon/ControlReference/ExpressionParser.cpp]
    (with the declarations of [ExpressionParser.h]) and the properties of
    its lexer, its recursive-descent parser and its expression tree.

    Conventions of the embedding:
    - a [std::string] is a [string]; the lexer's cursor [it] is the suffix
      of [expr] that is still to be read;
    - [ControlState] is a C++ [double]: an IEEE 754 binary64 number, taken
      from the executable specification [SpecFloat] with [prec = 53] and
      [emax = 1024] (round to nearest, ties to even);
    - [assert(false)] is an explicit failure ([None]);
    - the parser's token cursor [m_it] is the list of tokens still to be
      read; reading at [tokens.end()] is an explicit outcome ([PastEnd]);
    - loops and the mutual recursion of the parser take a fuel argument,
      and the entry points supply enough of it (proved below). *)

From Stdlib Require Import ZArith Lia List String Ascii Bool Arith.
From Stdlib Require Import Floats.SpecFloat.
Import ListNotations.

Local Open Scope string_scope.

(** ** Devices and controls ([InputCommon/ControllerInterface/Device.h])

    The device layer is not part of this development: its types and its
    lookups are the fields of an interface. *)

Class DeviceInterface : Type := {
  DeviceQualifier : Type;
  (** a default-constructed [DeviceQualifier] *)
  DeviceQualifier_new : DeviceQualifier;
  (** [dq.FromString(str)]: the qualifier [dq] after the call *)
  FromString : DeviceQualifier -> string -> DeviceQualifier;
  ToString : DeviceQualifier -> string;
  DeviceContainer : Type;
  (** a non-null [std::shared_ptr<Device>] *)
  Device : Type;
  (** a non-null [Device::Control*] *)
  Control : Type;
  container_FindDevice : DeviceContainer -> DeviceQualifier -> option Device;
  FindInput : Device -> string -> option Control;
  FindOutput : Device -> string -> option Control
}.

(** ** Characters *)

Definition chr (c : ascii) : nat := nat_of_ascii c.

(** The value of a [char] (signed, 8 bits). *)
Definition char_value (c : ascii) : Z :=
  if (chr c <? 128)%nat then Z.of_nat (chr c) else (Z.of_nat (chr c) - 256)%Z.

(** [isalpha] in the C locale. *)
Definition isalpha (c : ascii) : bool :=
  ((65 <=? chr c)%nat && (chr c <=? 90)%nat)
  || ((97 <=? chr c)%nat && (chr c <=? 122)%nat).

Definition NUL : ascii := Ascii.zero.

(** ** Tokens *)

Inductive TokenType : Type :=
| TOK_DISCARD
| TOK_INVALID
| TOK_EOF
| TOK_LPAREN
| TOK_RPAREN
| TOK_AND
| TOK_OR
| TOK_NOT
| TOK_ADD
| TOK_CONTROL.

Definition TokenType_eqb (a b : TokenType) : bool :=
  match a, b with
  | TOK_DISCARD, TOK_DISCARD | TOK_INVALID, TOK_INVALID | TOK_EOF, TOK_EOF
  | TOK_LPAREN, TOK_LPAREN | TOK_RPAREN, TOK_RPAREN | TOK_AND, TOK_AND
  | TOK_OR, TOK_OR | TOK_NOT, TOK_NOT | TOK_ADD, TOK_ADD
  | TOK_CONTROL, TOK_CONTROL => true
  | _, _ => false
  end.

(** [OpName]; [None] is the [assert(false)] of the default case. *)
Definition OpName (op : TokenType) : option string :=
  match op with
  | TOK_AND => Some "And"
  | TOK_OR => Some "Or"
  | TOK_NOT => Some "Not"
  | TOK_ADD => Some "Add"
  | _ => None
  end.

(** [ParseStatus], with the values the implementation file uses. *)
Inductive ParseStatus : Type :=
| Successful
| SyntaxError
| EmptyExpression.

Definition ParseStatus_eqb (a b : ParseStatus) : bool :=
  match a, b with
  | Successful, Successful | SyntaxError, SyntaxError
  | EmptyExpression, EmptyExpression => true
  | _, _ => false
  end.

Section WithDevices.

Context {DI : DeviceInterface}.

(** ** Qualifiers ([ExpressionParser.h]) *)

Record ControlQualifier : Type := {
  has_device : bool;
  device_qualifier : DeviceQualifier;
  control_name : string
}.

(** [ControlQualifier()] *)
Definition ControlQualifier_new : ControlQualifier :=
  {| has_device := false;
     device_qualifier := DeviceQualifier_new;
     control_name := "" |}.

(** [ControlQualifier::operator std::string] *)
Definition ControlQualifier_to_string (q : ControlQualifier) : string :=
  if has_device q
  then ToString (device_qualifier q) ++ ":" ++ control_name q
  else control_name q.

Record Token : Type := {
  type : TokenType;
  qualifier : ControlQualifier
}.

(** [Token(TokenType)] and [Token(TokenType, ControlQualifier)] *)
Definition Token_of (ty : TokenType) : Token :=
  {| type := ty; qualifier := ControlQualifier_new |}.

Definition Token_with (ty : TokenType) (q : ControlQualifier) : Token :=
  {| type := ty; qualifier := q |}.

(** ** Lexer *)

(** [Lexer::FetchBacktickString(value, otherDelim)] from cursor [it]:
    the returned flag, the fetched [value] and the cursor afterwards.
    [value += c] in iteration order is the order of the characters read. *)
Fixpoint FetchBacktickString (it : string) (otherDelim : ascii)
  : bool * string * string :=
  match it with
  | EmptyString => (false, "", "")
  | String c it' =>
      if Ascii.eqb c "`" then (false, "", it')
      else if (0 <? char_value c)%Z && Ascii.eqb c otherDelim
      then (true, "", it')
      else let '(found, value, rest) := FetchBacktickString it' otherDelim in
           (found, String c value, rest)
  end.

(** [Lexer::GetFullyQualifiedControl] *)
Definition GetFullyQualifiedControl (it : string) : Token * string :=
  let '(found, value, it1) := FetchBacktickString it ":" in
  if found
  then
    let '(_, value2, it2) := FetchBacktickString it1 NUL in
    (Token_with TOK_CONTROL
       {| has_device := true;
          device_qualifier := FromString DeviceQualifier_new value;
          control_name := value2 |}, it2)
  else
    (Token_with TOK_CONTROL
       {| has_device := false;
          device_qualifier := DeviceQualifier_new;
          control_name := value |}, it1).

(** The [while] loop of [Lexer::GetBarewordsControl]: the alphabetic
    characters appended to [name] and the cursor afterwards. *)
Fixpoint GetBarewordsControl_loop (it : string) : string * string :=
  match it with
  | EmptyString => ("", "")
  | String c it' =>
      if negb (isalpha c) then ("", it)
      else let '(name, rest) := GetBarewordsControl_loop it' in
           (String c name, rest)
  end.

(** [Lexer::GetBarewordsControl(c)] *)
Definition GetBarewordsControl (c : ascii) (it : string) : Token * string :=
  let '(name, rest) := GetBarewordsControl_loop it in
  (Token_with TOK_CONTROL
     {| has_device := false;
        device_qualifier := DeviceQualifier_new;
        control_name := String c name |}, rest).

(** [Lexer::NextToken] *)
Definition NextToken (it : string) : Token * string :=
  match it with
  | EmptyString => (Token_of TOK_EOF, "")
  | String c it' =>
      if Ascii.eqb c " " || Ascii.eqb c "009" || Ascii.eqb c "010"
         || Ascii.eqb c "013"
      then (Token_of TOK_DISCARD, it')
      else if Ascii.eqb c "(" then (Token_of TOK_LPAREN, it')
      else if Ascii.eqb c ")" then (Token_of TOK_RPAREN, it')
      else if Ascii.eqb c "&" then (Token_of TOK_AND, it')
      else if Ascii.eqb c "|" then (Token_of TOK_OR, it')
      else if Ascii.eqb c "!" then (Token_of TOK_NOT, it')
      else if Ascii.eqb c "+" then (Token_of TOK_ADD, it')
      else if Ascii.eqb c "`" then GetFullyQualifiedControl it'
      else if isalpha c then GetBarewordsControl c it'
      else (Token_of TOK_INVALID, it')
  end.

(** The [while (true)] loop of [Lexer::Tokenize], from cursor [it] with
    the vector [tokens] filled so far; [None] when the fuel runs out. *)
Fixpoint Tokenize_loop (fuel : nat) (it : string) (tokens : list Token)
  : option (ParseStatus * list Token) :=
  match fuel with
  | O => None
  | S fuel' =>
      let '(tok, it') := NextToken it in
      match type tok with
      | TOK_DISCARD => Tokenize_loop fuel' it' tokens
      | TOK_INVALID => Some (SyntaxError, [])
      | TOK_EOF => Some (Successful, (tokens ++ [tok])%list)
      | _ => Tokenize_loop fuel' it' (tokens ++ [tok])%list
      end
  end.

(** [Lexer(expr).Tokenize(tokens)] on an empty vector. *)
Definition Tokenize (expr : string) : option (ParseStatus * list Token) :=
  Tokenize_loop (S (String.length expr)) expr [].

(** ** Control states: IEEE 754 binary64 *)

Definition prec : Z := 53.
Definition emax : Z := 1024.

Definition ControlState : Type := spec_float.

(** The literals [0.0] and [1.0]. *)
Definition zero : ControlState := S754_zero false.
Definition one : ControlState := S754_finite false 4503599627370496 (-52).

Definition add (a b : ControlState) : ControlState := SFadd prec emax a b.
Definition sub (a b : ControlState) : ControlState := SFsub prec emax a b.
(** [a < b] and [a <= b] on doubles *)
Definition ltb (a b : ControlState) : bool := SFltb a b.
Definition leb (a b : ControlState) : bool := SFleb a b.

(** [std::min(a, b)] is [(b < a) ? b : a] and [std::max(a, b)] is
    [(a < b) ? b : a]. *)
Definition std_min (a b : ControlState) : ControlState :=
  if ltb b a then b else a.
Definition std_max (a b : ControlState) : ControlState :=
  if ltb a b then b else a.

(** The control states in [0, 1]: valid binary64 numbers that are neither
    below 0.0 nor above 1.0 (so no NaN and no infinity). *)
Definition unit_state (v : ControlState) : Prop :=
  valid_binary prec emax v = true
  /\ leb zero v = true
  /\ leb v one = true.

(** ** The finder ([ControlFinder]) *)

Record ControlFinder : Type := {
  container : DeviceContainer;
  default_device : DeviceQualifier;
  is_input : bool
}.

(** [ControlFinder::FindDevice] *)
Definition FindDevice (finder : ControlFinder) (q : ControlQualifier)
  : option Device :=
  if has_device q
  then container_FindDevice (container finder) (device_qualifier q)
  else container_FindDevice (container finder) (default_device finder).

(** [ControlFinder::FindControl] *)
Definition FindControl (finder : ControlFinder) (q : ControlQualifier)
  : option Control :=
  match FindDevice finder q with
  | None => None
  | Some device =>
      if is_input finder
      then FindInput device (control_name q)
      else FindOutput device (control_name q)
  end.

(** ** Expression trees

    [ControlExpression(qualifier, device, control)], [BinaryExpression(op,
    lhs, rhs)] and [UnaryExpression(op, inner)]; the children of a node are
    owned by it, so a tree is a term. *)

Inductive Expression : Type :=
| ControlExpression (qualifier : ControlQualifier) (m_device : option Device)
    (control : option Control)
| BinaryExpression (op : TokenType) (lhs rhs : Expression)
| UnaryExpression (op : TokenType) (inner : Expression).

(** [GetValue], reading the state of the input controls from [state];
    [None] is a failed assertion. *)
Fixpoint GetValue (state : Control -> ControlState) (e : Expression)
  : option ControlState :=
  match e with
  | ControlExpression _ _ control =>
      match control with
      | Some c => Some (state c)
      | None => Some zero
      end
  | BinaryExpression op lhs rhs =>
      match GetValue state lhs, GetValue state rhs with
      | Some lhsValue, Some rhsValue =>
          match op with
          | TOK_AND => Some (std_min lhsValue rhsValue)
          | TOK_OR => Some (std_max lhsValue rhsValue)
          | TOK_ADD => Some (std_min (add lhsValue rhsValue) one)
          | _ => None
          end
      | _, _ => None
      end
  | UnaryExpression op inner =>
      match GetValue state inner with
      | Some value =>
          match op with
          | TOK_NOT => Some (sub one value)
          | _ => None
          end
      | None => None
      end
  end.

(** [SetValue]: the calls [control->ToOutput()->SetState(value)] it makes,
    in order; [None] is a failed assertion. *)
Fixpoint SetValue (e : Expression) (value : ControlState)
  : option (list (Control * ControlState)) :=
  match e with
  | ControlExpression _ _ control =>
      match control with
      | Some c => Some [(c, value)]
      | None => Some []
      end
  | BinaryExpression _ lhs rhs =>
      match SetValue lhs value with
      | Some w1 =>
          match SetValue rhs value with
          | Some w2 => Some (w1 ++ w2)%list
          | None => None
          end
      | None => None
      end
  | UnaryExpression op inner =>
      match op with
      | TOK_NOT => SetValue inner (sub one value)
      | _ => None
      end
  end.

(** [CountNumControls] (an [int]; the count never exceeds the number of
    tokens of the parsed text). *)
Fixpoint CountNumControls (e : Expression) : Z :=
  match e with
  | ControlExpression _ _ control =>
      match control with Some _ => 1 | None => 0 end
  | BinaryExpression _ lhs rhs =>
      CountNumControls lhs + CountNumControls rhs
  | UnaryExpression _ inner => CountNumControls inner
  end.

(** [operator std::string]; [None] is the failed assertion of [OpName]. *)
Fixpoint to_string (e : Expression) : option string :=
  match e with
  | ControlExpression q _ _ =>
      Some ("`" ++ ControlQualifier_to_string q ++ "`")
  | BinaryExpression op lhs rhs =>
      match OpName op, to_string lhs, to_string rhs with
      | Some name, Some l, Some r => Some (name ++ "(" ++ l ++ ", " ++ r ++ ")")
      | _, _, _ => None
      end
  | UnaryExpression op inner =>
      match OpName op, to_string inner with
      | Some name, Some i => Some (name ++ "(" ++ i ++ ")")
      | _, _ => None
      end
  end.

(** ** Parser *)

Record ParseResult : Type := {
  status : ParseStatus;
  expr : option Expression
}.

(** [ParseResult(status)] and [ParseResult(status, expr)] *)
Definition Failed (st : ParseStatus) : ParseResult :=
  {| status := st; expr := None |}.
Definition Parsed (e : Expression) : ParseResult :=
  {| status := Successful; expr := Some e |}.

(** The outcome of a parser method: its value and the cursor [m_it]
    afterwards, or one of the events the C++ code leaves undefined
    (dereferencing [tokens.end()], a node built around a null child), or
    the exhaustion of the fuel. *)
Inductive Outcome (A : Type) : Type :=
| Ret (a : A) (m_it : list Token)
| PastEnd
| NullChild
| OutOfFuel.

Arguments Ret {A} a m_it.
Arguments PastEnd {A}.
Arguments NullChild {A}.
Arguments OutOfFuel {A}.

Definition Run (A : Type) : Type := list Token -> Outcome A.

Definition ret {A} (a : A) : Run A := fun m_it => Ret a m_it.

(** Sequencing: the rest of a method runs on the value and the cursor
    that the first call left; the other outcomes end the run. *)
Definition and_then {A B} (o : Outcome A) (k : A -> Run B) : Outcome B :=
  match o with
  | Ret a m_it' => k a m_it'
  | PastEnd => PastEnd
  | NullChild => NullChild
  | OutOfFuel => OutOfFuel
  end.

Definition bind {A B} (m : Run A) (k : A -> Run B) : Run B :=
  fun m_it => and_then (m m_it) k.

Notation "x <- m ;; k" := (bind m (fun x => k))
  (at level 61, m at next level, right associativity).

(** [Chew() { return *m_it++; }] and [Peek() { return *m_it; }] *)
Definition Chew : Run Token :=
  fun m_it => match m_it with
              | [] => PastEnd
              | tok :: m_it' => Ret tok m_it'
              end.

Definition Peek : Run Token :=
  fun m_it => match m_it with
              | [] => PastEnd
              | tok :: _ => Ret tok m_it
              end.

Definition Expects (ty : TokenType) : Run bool :=
  tok <- Chew ;; ret (TokenType_eqb (type tok) ty).

Definition IsUnaryExpression (ty : TokenType) : bool :=
  match ty with
  | TOK_NOT => true
  | _ => false
  end.

Definition IsBinaryToken (ty : TokenType) : bool :=
  match ty with
  | TOK_AND | TOK_OR | TOK_ADD => true
  | _ => false
  end.

Section WithFinder.

Variable finder : ControlFinder.

(** The methods of [Parser]; [Binary_loop] is the [while] loop of
    [Binary], entered with the tree built so far. *)
Fixpoint Atom (fuel : nat) : Run ParseResult :=
  match fuel with
  | O => fun _ => OutOfFuel
  | S n =>
      tok <- Chew ;;
      match type tok with
      | TOK_CONTROL =>
          let device := FindDevice finder (qualifier tok) in
          let control := FindControl finder (qualifier tok) in
          ret (Parsed (ControlExpression (qualifier tok) device control))
      | TOK_LPAREN => Paren n
      | _ => ret (Failed SyntaxError)
      end
  end

with Unary (fuel : nat) : Run ParseResult :=
  match fuel with
  | O => fun _ => OutOfFuel
  | S n =>
      next <- Peek ;;
      if IsUnaryExpression (type next)
      then
        tok <- Chew ;;
        result <- Atom n ;;
        if ParseStatus_eqb (status result) SyntaxError then ret result
        else match expr result with
             | Some inner => ret (Parsed (UnaryExpression (type tok) inner))
             | None => fun _ => NullChild
             end
      else Atom n
  end

with Binary (fuel : nat) : Run ParseResult :=
  match fuel with
  | O => fun _ => OutOfFuel
  | S n =>
      result <- Unary n ;;
      if ParseStatus_eqb (status result) SyntaxError then ret result
      else match expr result with
           | Some e => Binary_loop n e
           | None => fun _ => NullChild
           end
  end

with Binary_loop (fuel : nat) (e : Expression) : Run ParseResult :=
  match fuel with
  | O => fun _ => OutOfFuel
  | S n =>
      next <- Peek ;;
      if IsBinaryToken (type next)
      then
        tok <- Chew ;;
        unary_result <- Unary n ;;
        if ParseStatus_eqb (status unary_result) SyntaxError
        then ret unary_result
        else match expr unary_result with
             | Some rhs => Binary_loop n (BinaryExpression (type tok) e rhs)
             | None => fun _ => NullChild
             end
      else ret (Parsed e)
  end

with Paren (fuel : nat) : Run ParseResult :=
  match fuel with
  | O => fun _ => OutOfFuel
  | S n =>
      (* lparen already chewed *)
      result <- Toplevel n ;;
      if negb (ParseStatus_eqb (status result) Successful) then ret result
      else
        ok <- Expects TOK_RPAREN ;;
        if negb ok then ret (Failed SyntaxError) else ret result
  end

with Toplevel (fuel : nat) : Run ParseResult :=
  match fuel with
  | O => fun _ => OutOfFuel
  | S n => Binary n
  end.

(** Fuel for a token vector: every call spends one unit, and a chain of
    five calls ([Toplevel], [Binary], [Unary], [Atom], [Paren]) consumes
    at least one token. *)
Definition parser_fuel (tokens : list Token) : nat :=
  5 * List.length tokens + 5.

(** [Parser(tokens, finder).Parse()] *)
Definition Parse (tokens : list Token) : Outcome ParseResult :=
  Toplevel (parser_fuel tokens) tokens.

(** ** The grammar

    The grammar that the parser implements, as the derivations of a token
    sequence into a tree:
<<
      toplevel := binary
      binary   := unary ( (AND|OR|ADD) unary )*     (left-associative)
      unary    := NOT atom | atom
      atom     := CONTROL | LPAREN toplevel RPAREN
>>
    A CONTROL token is resolved by the finder where it is parsed. *)
Inductive atom_of : list Token -> Expression -> Prop :=
| atom_control (tok : Token) :
    type tok = TOK_CONTROL ->
    atom_of [tok]
      (ControlExpression (qualifier tok)
         (FindDevice finder (qualifier tok))
         (FindControl finder (qualifier tok)))
| atom_paren (lp : Token) (ts : list Token) (e : Expression) (rp : Token) :
    type lp = TOK_LPAREN ->
    binary_of ts e ->
    type rp = TOK_RPAREN ->
    atom_of (lp :: ts ++ [rp]) e

with unary_of : list Token -> Expression -> Prop :=
| unary_not (tok : Token) (ts : list Token) (e : Expression) :
    type tok = TOK_NOT ->
    atom_of ts e ->
    unary_of (tok :: ts) (UnaryExpression (type tok) e)
| unary_atom (ts : list Token) (e : Expression) :
    atom_of ts e ->
    unary_of ts e

with binary_of : list Token -> Expression -> Prop :=
| binary_first (ts : list Token) (e : Expression) :
    unary_of ts e ->
    binary_of ts e
| binary_more (ts1 : list Token) (e1 : Expression) (tok : Token)
    (ts2 : list Token) (e2 : Expression) :
    binary_of ts1 e1 ->
    IsBinaryToken (type tok) = true ->
    unary_of ts2 e2 ->
    binary_of (ts1 ++ tok :: ts2) (BinaryExpression (type tok) e1 e2).

Scheme atom_of_mut := Minimality for atom_of Sort Prop
  with unary_of_mut := Minimality for unary_of Sort Prop
  with binary_of_mut := Minimality for binary_of Sort Prop.

Combined Scheme derivation_ind from atom_of_mut, unary_of_mut, binary_of_mut.

End WithFinder.

(** The whitespace: space, tab, LF and CR. *)
Definition is_space (c : ascii) : bool :=
  Ascii.eqb c " " || Ascii.eqb c "009" || Ascii.eqb c "010"
  || Ascii.eqb c "013".

(** Modelled from the spec: the two halves of [StripSpaces], which drop
    the leading and the trailing whitespace of a text. *)
Fixpoint strip_left (s : string) : string :=
  match s with
  | EmptyString => ""
  | String c s' => if is_space c then strip_left s' else s
  end.

Fixpoint strip_right (s : string) : string :=
  match s with
  | EmptyString => ""
  | String c s' =>
      match strip_right s' with
      | EmptyString => if is_space c then "" else String c ""
      | r => String c r
      end
  end.

(** Modelled from the spec: [StripSpaces] of [Common/StringUtil.h], which
    is not among the sources. The text without its leading and trailing
    whitespace (space, tab, CR, LF); a blank text strips to the empty
    one. *)
Definition StripSpaces (s : string) : string := strip_right (strip_left s).

(** [std::string::empty] *)
Definition empty (s : string) : bool :=
  match s with
  | EmptyString => true
  | _ => false
  end.

(** [ParseExpressionInner]; [None] stands for the events that have no
    defined result (they do not occur: see [ParseExpressionInner_total]). *)
Definition ParseExpressionInner (str : string) (finder : ControlFinder)
  : option ParseResult :=
  if empty (StripSpaces str) then Some (Failed EmptyExpression)
  else
    match Tokenize str with
    | None => None
    | Some (tokenize_status, tokens) =>
        if negb (ParseStatus_eqb tokenize_status Successful)
        then Some (Failed tokenize_status)
        else
          match Parse finder tokens with
          | Ret result _ => Some result
          | _ => None
          end
    end.

(** The qualifier that [ParseExpression] builds from the whole text. *)
Definition whole_text_qualifier (str : string) : ControlQualifier :=
  {| has_device := false;
     device_qualifier := DeviceQualifier_new;
     control_name := str |}.

(** [ParseExpression] *)
Definition ParseExpression (str : string) (finder : ControlFinder)
  : option (ParseStatus * option Expression) :=
  let qualifier := whole_text_qualifier str in
  let device := FindDevice finder qualifier in
  let control := FindControl finder qualifier in
  match control with
  | Some c =>
      Some (Successful, Some (ControlExpression qualifier device (Some c)))
  | None =>
      match ParseExpressionInner str finder with
      | Some result => Some (status result, expr result)
      | None => None
      end
  end.

(** ** Vocabulary of the properties *)

(** [contains c s]: the character [c] occurs in [s]. *)
Fixpoint contains (c : ascii) (s : string) : bool :=
  match s with
  | EmptyString => false
  | String x s' => Ascii.eqb x c || contains c s'
  end.

(** The characters that start a token or are skipped: whitespace, the
    operators and parentheses, the backtick and the letters. *)
Definition lexable (c : ascii) : bool :=
  is_space c || Ascii.eqb c "(" || Ascii.eqb c ")" || Ascii.eqb c "&"
  || Ascii.eqb c "|" || Ascii.eqb c "!" || Ascii.eqb c "+"
  || Ascii.eqb c "`" || isalpha c.

(** [quoted inside s]: whether the position after [s] is inside a
    backtick-quoted region, when the position before [s] is ([inside]) or
    is not: every backtick opens or closes a region. *)
Fixpoint quoted (inside : bool) (s : string) : bool :=
  match s with
  | EmptyString => inside
  | String c s' => quoted (if Ascii.eqb c "`" then negb inside else inside) s'
  end.

(** The loop of [Binary] stops at a token that is no binary operator. *)
Definition stops_at (m_it : list Token) : Prop :=
  exists tok rest, m_it = tok :: rest /\ IsBinaryToken (type tok) = false.

(** A token vector that ends with an EOF token, as [Tokenize] leaves it. *)
Definition ends_with_EOF (tokens : list Token) : Prop :=
  exists body eof, tokens = (body ++ [eof])%list /\ type eof = TOK_EOF.

(** The control-reference tokens of a token sequence, and those of them
    that the finder resolves to a control. *)
Definition is_control (tok : Token) : bool :=
  TokenType_eqb (type tok) TOK_CONTROL.

Definition resolves (finder : ControlFinder) (tok : Token) : bool :=
  match FindControl finder (qualifier tok) with
  | Some _ => true
  | None => false
  end.

Definition count_controls (toks : list Token) : Z :=
  Z.of_nat (List.length (filter is_control toks)).

Definition count_resolved (finder : ControlFinder) (toks : list Token) : Z :=
  Z.of_nat
    (List.length (filter (fun tok => is_control tok && resolves finder tok)
                    toks)).

(** The trees that pass the assertions: the operator of a binary node is
    AND, OR or ADD and the operator of a unary node is NOT. *)
Fixpoint well_formed (e : Expression) : bool :=
  match e with
  | ControlExpression _ _ _ => true
  | BinaryExpression op lhs rhs =>
      IsBinaryToken op && well_formed lhs && well_formed rhs
  | UnaryExpression op inner => IsUnaryExpression op && well_formed inner
  end.

(** The qualifiers of the leaves of a tree, from left to right. *)
Fixpoint leaves (e : Expression) : list ControlQualifier :=
  match e with
  | ControlExpression q _ _ => [q]
  | BinaryExpression _ lhs rhs => (leaves lhs ++ leaves rhs)%list
  | UnaryExpression _ inner => leaves inner
  end.

(** The status of an outcome, when it has one. *)
Definition status_of (o : Outcome ParseResult) : option ParseStatus :=
  match o with
  | Ret result _ => Some (status result)
  | _ => None
  end.

(** The qualifiers that the lexer produces: no backtick in the control
    name; with a device, the identity is read from a text without backtick
    or colon; without one, the device is the default-constructed one and
    the control name has no colon. *)
Definition lexed (q : ControlQualifier) : Prop :=
  contains "`" (control_name q) = false
  /\ if has_device q
     then exists v, device_qualifier q = FromString DeviceQualifier_new v
                    /\ contains "`" v = false /\ contains ":" v = false
     else device_qualifier q = DeviceQualifier_new
          /\ contains ":" (control_name q) = false.

(** The controls of the resolved leaves of a tree, from left to right. *)
Fixpoint resolved_controls (e : Expression) : list Control :=
  match e with
  | ControlExpression _ _ (Some c) => [c]
  | ControlExpression _ _ None => []
  | BinaryExpression _ lhs rhs =>
      (resolved_controls lhs ++ resolved_controls rhs)%list
  | UnaryExpression _ inner => resolved_controls inner
  end.

(** The trees without a unary node. *)
Fixpoint unary_free (e : Expression) : bool :=
  match e with
  | ControlExpression _ _ _ => true
  | BinaryExpression _ lhs rhs => unary_free lhs && unary_free rhs
  | UnaryExpression _ _ => false
  end.

End WithDevices.

Arguments Ret {DI A} a m_it.
Arguments PastEnd {DI A}.
Arguments NullChild {DI A}.
Arguments OutOfFuel {DI A}.

(** ** A small device layer, for the examples

    A device identity is its name, a device is a name with the names of
    its controls, and a control is the pair of its device's name and its
    own. *)

Definition simple_FindControl (d : string * list string) (name : string)
  : option (string * string) :=
  if existsb (String.eqb name) (snd d) then Some (fst d, name) else None.

#[export] Instance simple_devices : DeviceInterface := {|
  DeviceQualifier := string;
  DeviceQualifier_new := "";
  FromString := fun _ str => str;
  ToString := fun dq => dq;
  DeviceContainer := list (string * list string);
  Device := string * list string;
  Control := string * string;
  container_FindDevice :=
    fun c dq => find (fun d => String.eqb (fst d) dq) c;
  FindInput := simple_FindControl;
  FindOutput := simple_FindControl
|}.

(** A finder over one device ["Pad"], the default one, with the given
    input controls. *)
Definition pad_finder (controls : list string) : ControlFinder :=
  {| container := [("Pad", controls)];
     default_device := "Pad";
     is_input := true |}.

(** * Binary64 arithmetic

    The facts about [SpecFloat] that the evaluator needs: rounding gives a
    valid number, a sum of numbers that are not negative is not negative,
    and [1.0 - a] stays in [0, 1] for [a] in [0, 1]. *)

Section Binary64.

Local Open Scope Z_scope.

Lemma digits2_pos_log2 (p : positive) :
  Zpos (digits2_pos p) = Z.log2 (Zpos p) + 1.
Proof.
  induction p as [p IH | p IH |]; cbn [digits2_pos].
  - rewrite Pos2Z.inj_succ, IH. cbn [Z.log2].
    destruct p; cbn; lia.
  - rewrite Pos2Z.inj_succ, IH. cbn [Z.log2].
    destruct p; cbn; lia.
  - reflexivity.
Qed.

Lemma Zdigits2_log2 (m : Z) : 0 < m -> Zdigits2 m = Z.log2 m + 1.
Proof.
  destruct m as [|p|p]; try lia. intros _. apply digits2_pos_log2.
Qed.

(** [m < 2 ^ Zdigits2 m], and [2 ^ (Zdigits2 m - 1) <= m] for [0 < m] *)
Lemma Zdigits2_bounds (m : Z) :
  0 < m -> 2 ^ (Zdigits2 m - 1) <= m < 2 ^ Zdigits2 m.
Proof.
  intros Hm. rewrite (Zdigits2_log2 m Hm).
  pose proof (Z.log2_spec m Hm) as H.
  replace (Z.log2 m + 1 - 1) with (Z.log2 m) by lia.
  replace (Z.log2 m + 1) with (Z.succ (Z.log2 m)) by lia. exact H.
Qed.

Lemma shr_1_m (mrs : shr_record) :
  0 <= shr_m mrs -> shr_m (shr_1 mrs) = Z.shiftr (shr_m mrs) 1.
Proof.
  destruct mrs as [m r s]. cbn [shr_m]. intros Hm.
  rewrite <- Z.div2_spec.
  destruct m as [|p|p]; [reflexivity | | lia].
  destruct p; reflexivity.
Qed.

Lemma iter_pos_shr_1 (n : positive) :
  forall mrs,
    0 <= shr_m mrs ->
    shr_m (iter_pos shr_1 n mrs) = Z.shiftr (shr_m mrs) (Zpos n).
Proof.
  induction n as [n IH | n IH |]; intros mrs Hm; cbn [iter_pos].
  - assert (H1 : 0 <= shr_m (shr_1 mrs))
      by (rewrite shr_1_m by assumption; now apply Z.shiftr_nonneg).
    assert (H2 : 0 <= shr_m (iter_pos shr_1 n (shr_1 mrs)))
      by (rewrite IH by assumption; now apply Z.shiftr_nonneg).
    rewrite IH, IH, shr_1_m by assumption.
    rewrite !Z.shiftr_shiftr by lia. f_equal. lia.
  - assert (H2 : 0 <= shr_m (iter_pos shr_1 n mrs))
      by (rewrite IH by assumption; now apply Z.shiftr_nonneg).
    rewrite IH, IH by assumption.
    rewrite !Z.shiftr_shiftr by lia. f_equal. lia.
  - now apply shr_1_m.
Qed.

Lemma shr_record_of_loc_m (m : Z) (l : location) :
  shr_m (shr_record_of_loc m l) = m.
Proof. destruct l as [|[]]; reflexivity. Qed.

(** [shr_fexp] shifts the mantissa right, up to the exponent [fexp]. *)
Lemma shr_fexp_spec (m e : Z) (l : location) :
  0 <= m ->
  shr_m (fst (shr_fexp prec emax m e l))
  = Z.shiftr m (Z.max 0 (fexp prec emax (Zdigits2 m + e) - e))
  /\ snd (shr_fexp prec emax m e l)
     = e + Z.max 0 (fexp prec emax (Zdigits2 m + e) - e).
Proof.
  intros Hm. unfold shr_fexp, shr.
  destruct (fexp prec emax (Zdigits2 m + e) - e) as [|n|n] eqn:En;
    cbn [fst snd].
  - rewrite shr_record_of_loc_m. cbn. split; [reflexivity | lia].
  - rewrite iter_pos_shr_1 by (now rewrite shr_record_of_loc_m).
    rewrite shr_record_of_loc_m.
    replace (Z.max 0 (Z.pos n)) with (Z.pos n) by lia.
    split; [reflexivity | lia].
  - rewrite shr_record_of_loc_m.
    replace (Z.max 0 (Z.neg n)) with 0 by lia.
    rewrite Z.shiftr_0_r. split; [reflexivity | lia].
Qed.

Lemma fexp_unfold (x : Z) : fexp prec emax x = Z.max (x - 53) (-1074).
Proof. reflexivity. Qed.

(** The digits of a mantissa shifted right. *)
Lemma Zdigits2_shiftr (m n : Z) :
  0 < m -> 0 <= n ->
  (n < Zdigits2 m ->
   0 < Z.shiftr m n /\ Zdigits2 (Z.shiftr m n) = Zdigits2 m - n)
  /\ (Zdigits2 m <= n -> Z.shiftr m n = 0).
Proof.
  intros Hm Hn. rewrite (Zdigits2_log2 m Hm). split; intros H.
  - assert (Hpos : 0 < Z.shiftr m n).
    { rewrite Z.shiftr_div_pow2 by assumption.
      apply Z.div_str_pos. split; [apply Z.pow_pos_nonneg; lia|].
      apply Z.log2_le_pow2; lia. }
    split; [assumption|].
    rewrite (Zdigits2_log2 _ Hpos), Z.log2_shiftr by assumption. lia.
  - apply Z.shiftr_eq_0; lia.
Qed.

Lemma round_nearest_even_bounds (m : Z) (l : location) :
  m <= round_nearest_even m l <= m + 1.
Proof.
  unfold round_nearest_even.
  destruct l as [|[]]; try lia. destruct (Z.even m); lia.
Qed.

Lemma Zdigits2_le (a b : Z) : 0 < a -> a <= b -> Zdigits2 a <= Zdigits2 b.
Proof.
  intros Ha Hab. rewrite !Zdigits2_log2 by lia.
  pose proof (Z.log2_le_mono a b Hab). lia.
Qed.

(** A mantissa with an exponent not above the exponent of the format is
    shifted to that exponent; what is left is canonical, and bounded by
    the power of two above the number. *)
Lemma shr_fexp_canonical (m e : Z) (l : location) :
  0 < m ->
  e <= fexp prec emax (Zdigits2 m + e) ->
  let m' := shr_m (fst (shr_fexp prec emax m e l)) in
  let e' := snd (shr_fexp prec emax m e l) in
  0 <= m'
  /\ e' = fexp prec emax (Zdigits2 m + e)
  /\ m' = Z.shiftr m (e' - e)
  /\ (0 < m' -> Zdigits2 m' + e' = Zdigits2 m + e)
  /\ (m' = 0 -> e' = -1074)
  /\ (forall bound, Zdigits2 m + e <= bound -> -1074 <= bound ->
        0 <= bound - e' /\ m' + 1 <= 2 ^ (bound - e')).
Proof.
  intros Hm He. cbv zeta.
  destruct (shr_fexp_spec m e l (Z.lt_le_incl _ _ Hm)) as [-> ->].
  set (n := fexp prec emax (Zdigits2 m + e) - e) in *.
  replace (Z.max 0 n) with n by lia.
  assert (Hn : 0 <= n) by lia.
  destruct (Zdigits2_shiftr m n Hm Hn) as [Hlt Hge].
  split; [apply Z.shiftr_nonneg; lia|].
  split; [unfold n; lia|].
  split; [f_equal; lia|].
  split.
  { intros Hpos.
    destruct (Z.lt_ge_cases n (Zdigits2 m)) as [H | H].
    - destruct (Hlt H) as [_ ->]. lia.
    - rewrite (Hge H) in Hpos. lia. }
  split.
  { intros H0.
    destruct (Z.lt_ge_cases n (Zdigits2 m)) as [H | H].
    - destruct (Hlt H) as [Hpos _]. lia.
    - unfold n in *. rewrite fexp_unfold in *. lia. }
  intros bound Hb1 Hb2.
  assert (Hbe : 0 <= bound - (e + n))
    by (unfold n in *; rewrite fexp_unfold in *; lia).
  split; [assumption|].
  destruct (Z.lt_ge_cases n (Zdigits2 m)) as [H | H].
  - assert (Hlt' : Z.shiftr m n < 2 ^ (Zdigits2 m - n)).
    { rewrite Z.shiftr_div_pow2 by assumption.
      apply Z.div_lt_upper_bound; [apply Z.pow_pos_nonneg; lia|].
      rewrite <- Z.pow_add_r by lia.
      replace (n + (Zdigits2 m - n)) with (Zdigits2 m) by lia.
      apply (Zdigits2_bounds m Hm). }
    assert (2 ^ (Zdigits2 m - n) <= 2 ^ (bound - (e + n)))
      by (apply Z.pow_le_mono_r; lia).
    lia.
  - rewrite (Hge H).
    assert (0 < 2 ^ (bound - (e + n))) by (apply Z.pow_pos_nonneg; lia).
    lia.
Qed.

(** A canonical mantissa and exponent below a power of two that is at
    most 1 make a number that is at most 1.0. *)
Lemma leb_finite_of_bound (p q : positive) (e bound : Z) :
  Zpos q = 2 ^ 52 ->
  fexp prec emax (Zdigits2 (Zpos p) + e) = e ->
  0 <= bound - e -> bound <= 0 ->
  Zpos p <= 2 ^ (bound - e) ->
  SFleb (S754_finite false p e) (S754_finite false q (-52)) = true.
Proof.
  intros Hq Hcan Hbe Hb Hp. unfold SFleb, SFcompare.
  destruct (Z.compare_spec e (-52)) as [-> | Hlt | Hgt]; [|reflexivity|].
  - assert (H : 2 ^ (bound - -52) <= 2 ^ 52)
      by (apply Z.pow_le_mono_r; lia).
    rewrite Pos.compare_cont_spec. cbn [Pos.switch_Eq].
    destruct (Pos.compare_spec p q); try reflexivity. lia.
  - exfalso. rewrite fexp_unfold in Hcan.
    assert (Hd : Zdigits2 (Zpos p) = 53) by lia.
    pose proof (Zdigits2_bounds (Zpos p) eq_refl) as [Hlow _].
    rewrite Hd in Hlow.
    assert (H : 2 ^ (bound - e) < 2 ^ (53 - 1))
      by (apply Z.pow_lt_mono_r; lia).
    lia.
Qed.

Lemma leb_one_of_bound (p : positive) (e bound : Z) :
  fexp prec emax (Zdigits2 (Zpos p) + e) = e ->
  0 <= bound - e -> bound <= 0 ->
  Zpos p <= 2 ^ (bound - e) ->
  SFleb (S754_finite false p e) one = true.
Proof. apply leb_finite_of_bound. reflexivity. Qed.

(** Shifting right a mantissa below a power of two. *)
Lemma shiftr_le_pow2 (a n k : Z) :
  0 <= a <= 2 ^ k -> 0 <= n -> 0 <= k ->
  0 < Z.shiftr a n ->
  n <= k /\ Z.shiftr a n <= 2 ^ (k - n).
Proof.
  intros [Ha Hak] Hn Hk. rewrite Z.shiftr_div_pow2 by assumption. intros Hpos.
  assert (Hnk : n <= k).
  { destruct (Z.le_gt_cases n k) as [H | H]; [assumption|].
    assert (2 ^ k < 2 ^ n) by (apply Z.pow_lt_mono_r; lia).
    rewrite Z.div_small in Hpos by lia. lia. }
  split; [assumption|].
  assert (H2n : 0 < 2 ^ n) by (apply Z.pow_pos_nonneg; lia).
  replace (2 ^ (k - n)) with (2 ^ k / 2 ^ n).
  - apply Z.div_le_mono; assumption.
  - replace k with (k - n + n) at 1 by lia.
    rewrite Z.pow_add_r by lia. apply Z.div_mul. lia.
Qed.

(** The result of [binary_round_aux] on a positive mantissa whose
    exponent is not above the exponent of the format: a valid number that
    is not negative, and at most 1.0 when the mantissa and exponent are
    below 2 ^ 0. *)
Lemma binary_round_aux_unit (m e : Z) (l : location) :
  0 < m ->
  e <= fexp prec emax (Zdigits2 m + e) ->
  let r := binary_round_aux prec emax false m e l in
  valid_binary prec emax r = true
  /\ SFleb zero r = true
  /\ (Zdigits2 m + e <= 0 -> SFleb r one = true).
Proof.
  intros Hm He. cbv zeta. unfold binary_round_aux.
  pose proof (shr_fexp_canonical m e l Hm He) as H1. cbv zeta in H1.
  destruct (shr_fexp prec emax m e l) as [mrs' e'] eqn:E1.
  cbn [fst snd] in H1.
  destruct H1 as (Hm1 & He' & _ & Hd1 & Hz1 & Hb1).
  pose proof (round_nearest_even_bounds (shr_m mrs') (loc_of_shr_record mrs'))
    as Hr.
  set (m2 := round_nearest_even (shr_m mrs') (loc_of_shr_record mrs')) in *.
  destruct (Z.eq_dec m2 0) as [H20 | H20].
  { (* everything was rounded away *)
    rewrite H20.
    destruct (shr_fexp_spec 0 e' loc_Exact (Z.le_refl 0)) as [H _].
    destruct (shr_fexp prec emax 0 e' loc_Exact) as [mrs'' e''].
    cbn [fst] in H. rewrite H, Z.shiftr_0_l. now repeat split. }
  assert (Hm2 : 0 < m2) by lia.
  assert (He2 : e' <= fexp prec emax (Zdigits2 m2 + e')).
  { destruct (Z.eq_dec (shr_m mrs') 0) as [H10 | H10].
    - rewrite (Hz1 H10), fexp_unfold. lia.
    - assert (H1pos : 0 < shr_m mrs') by lia.
      pose proof (Zdigits2_le (shr_m mrs') m2 H1pos (proj1 Hr)).
      specialize (Hd1 H1pos). rewrite fexp_unfold in He' |- *. lia. }
  pose proof (shr_fexp_canonical m2 e' loc_Exact Hm2 He2) as H2.
  cbv zeta in H2.
  destruct (shr_fexp prec emax m2 e' loc_Exact) as [mrs'' e''] eqn:E2.
  cbn [fst snd] in H2.
  destruct H2 as (Hm3 & He'' & Hshift & Hd3 & _ & _).
  destruct (shr_m mrs'') as [|p|p] eqn:E3; [now repeat split | | lia].
  assert (Hcan : fexp prec emax (Zdigits2 (Zpos p) + e'') = e'').
  { rewrite (Hd3 eq_refl). now symmetry. }
  assert (Hunit : Zdigits2 m + e <= 0 ->
                  0 <= 0 - e'' /\ Zpos p <= 2 ^ (0 - e'')).
  { intros HG.
    destruct (Hb1 0 HG ltac:(lia)) as [Hk Hbound].
    destruct (shiftr_le_pow2 m2 (e'' - e') (0 - e')) as [Hnk Hle];
      try lia.
    replace (0 - e' - (e'' - e')) with (0 - e'') in Hle by lia.
    split; [lia|]. now rewrite Hshift. }
  destruct (Z.leb_spec e'' (emax - prec)) as [Hle | Hgt].
  - split.
    { cbn [valid_binary]. unfold bounded, canonical_mantissa.
      change (Z.pos (digits2_pos p)) with (Zdigits2 (Zpos p)).
      rewrite Hcan, Z.eqb_refl. cbn [andb]. now apply Z.leb_le. }
    split; [reflexivity|].
    intros HG. destruct (Hunit HG) as [Hk Hp].
    now apply (leb_one_of_bound p e'' 0).
  - split; [reflexivity|]. split; [reflexivity|].
    intros HG. destruct (Hunit HG) as [Hk _].
    unfold emax, prec in Hgt. lia.
Qed.

(** [shl_align] shifts the mantissa left to the smaller exponent. *)
Lemma shl_align_spec (mx : positive) (ex ex' : Z) :
  let mz := fst (shl_align mx ex ex') in
  let ez := snd (shl_align mx ex ex') in
  ez = Z.min ex ex'
  /\ Zpos mz = Zpos mx * 2 ^ (ex - ez)
  /\ Zdigits2 (Zpos mz) + ez = Zdigits2 (Zpos mx) + ex.
Proof.
  cbv zeta. unfold shl_align.
  destruct (ex' - ex) as [|d|d] eqn:Ed; cbn [fst snd].
  - replace (ex - ex) with 0 by lia. cbn [Z.pow]. lia.
  - replace (ex - ex) with 0 by lia. cbn [Z.pow]. lia.
  - assert (Hm : Zpos (Pos.iter xO mx d) = Zpos mx * 2 ^ Zpos d).
    { change (Pos.iter xO mx d) with (shift_pos d mx).
      rewrite shift_pos_correct. change (Z.pow_pos 2 d) with (2 ^ Zpos d).
      lia. }
    split; [lia|].
    replace (ex - ex') with (Zpos d) by lia. split; [assumption|].
    rewrite !Zdigits2_log2 by lia.
    rewrite Hm, Z.log2_mul_pow2 by lia. lia.
Qed.

(** The result of [binary_round] on a positive number. *)
Lemma binary_round_unit (mx : positive) (ex : Z) :
  let r := binary_round prec emax false mx ex in
  valid_binary prec emax r = true
  /\ SFleb zero r = true
  /\ (Zdigits2 (Zpos mx) + ex <= 0 -> SFleb r one = true).
Proof.
  cbv zeta. unfold binary_round.
  pose proof (shl_align_spec mx ex
                (fexp prec emax (Zpos (digits2_pos mx) + ex))) as H.
  cbv zeta in H.
  destruct (shl_align mx ex (fexp prec emax (Zpos (digits2_pos mx) + ex)))
    as [mz ez].
  cbn [fst snd] in H. destruct H as (Hez & _ & Hd).
  change (Zpos (digits2_pos mx)) with (Zdigits2 (Zpos mx)) in Hez.
  rewrite <- Hd.
  apply binary_round_aux_unit; [reflexivity|].
  rewrite Hd. lia.
Qed.

Lemma unit_state_zero (s : bool) : unit_state (S754_zero s).
Proof. now repeat split. Qed.

Lemma unit_state_one : unit_state one.
Proof. repeat split; vm_compute; reflexivity. Qed.

Lemma leb_finite_inv (m q : positive) (e : Z) :
  SFleb (S754_finite false m e) (S754_finite false q (-52)) = true ->
  e < -52 \/ (e = -52 /\ Zpos m <= Zpos q).
Proof.
  unfold SFleb, SFcompare.
  destruct (Z.compare_spec e (-52)) as [-> | Hlt | Hgt].
  - rewrite Pos.compare_cont_spec. cbn [Pos.switch_Eq].
    destruct (Pos.compare_spec m q); try discriminate; lia.
  - now left.
  - discriminate.
Qed.

Lemma one_mantissa : Zpos 4503599627370496 = 2 ^ 52.
Proof. reflexivity. Qed.

(** A number in [0, 1] is a zero or a positive finite number whose
    exponent is below that of 1.0, or is that of 1.0 with a mantissa not
    above the mantissa of 1.0. *)
Lemma unit_state_inv (v : spec_float) :
  unit_state v ->
  (exists s, v = S754_zero s)
  \/ exists m e,
       v = S754_finite false m e
       /\ fexp prec emax (Zdigits2 (Zpos m) + e) = e
       /\ (e < -52 \/ (e = -52 /\ Zpos m <= 2 ^ 52)).
Proof.
  intros (Hv & H0 & H1).
  destruct v as [s | s | | s m e].
  - left. now exists s.
  - destruct s; discriminate.
  - discriminate.
  - right. exists m, e.
    destruct s; [discriminate|].
    split; [reflexivity|].
    cbn [valid_binary] in Hv. unfold bounded in Hv.
    apply andb_true_iff in Hv as [Hc _].
    unfold canonical_mantissa in Hc. apply Z.eqb_eq in Hc.
    split; [exact Hc|].
    rewrite <- one_mantissa. now apply leb_finite_inv.
Qed.

(** The order of the numbers: comparing the other way round gives the
    opposite answer. *)
Lemma SFcompare_antisym (x y : spec_float) :
  SFcompare y x = match SFcompare x y with
                  | Some c => Some (CompOpp c)
                  | None => None
                  end.
Proof.
  destruct x as [s1 | s1 | | s1 m1 e1], y as [s2 | s2 | | s2 m2 e2];
    try reflexivity; try (destruct s1; reflexivity);
    try (destruct s2; reflexivity);
    try (destruct s1, s2; reflexivity).
  cbn [SFcompare]. rewrite (Z.compare_antisym e1 e2).
  destruct s1, s2; try reflexivity;
    destruct (e1 ?= e2); cbn [CompOpp]; try reflexivity;
    rewrite ?CompOpp_involutive, Pos.compare_cont_antisym; reflexivity.
Qed.

Lemma SFcompare_refl (x : spec_float) :
  x <> S754_nan -> SFcompare x x = Some Eq.
Proof.
  destruct x as [s | s | | s m e]; intros H; try congruence.
  - reflexivity.
  - now destruct s.
  - cbn [SFcompare]. rewrite Z.compare_refl, Pos.compare_cont_refl.
    now destruct s.
Qed.

(** What is not above is below or equal, NaN apart. *)
Lemma not_ltb_leb (a b : spec_float) :
  SFcompare a b <> None -> SFltb b a = false -> SFleb a b = true.
Proof.
  unfold SFltb, SFleb. rewrite (SFcompare_antisym a b).
  destruct (SFcompare a b) as [[]|]; cbn; congruence.
Qed.

Lemma leb_zero_not_nan (v : spec_float) :
  SFleb zero v = true -> v <> S754_nan.
Proof. intros H ->. discriminate. Qed.

Lemma SFcompare_not_nan (a b : spec_float) :
  a <> S754_nan -> b <> S754_nan -> SFcompare a b <> None.
Proof.
  destruct a as [s1 | s1 | | s1 m1 e1], b as [s2 | s2 | | s2 m2 e2];
    cbn; congruence.
Qed.

(** [std::min] and [std::max] of two numbers (not NaN) are the smaller
    and the larger of the two. *)
Lemma std_min_spec (a b : spec_float) :
  a <> S754_nan -> b <> S754_nan ->
  (std_min a b = a \/ std_min a b = b)
  /\ leb (std_min a b) a = true /\ leb (std_min a b) b = true.
Proof.
  intros Ha Hb. unfold std_min, ltb, leb.
  destruct (SFltb b a) eqn:E.
  - split; [now right|]. split.
    + unfold SFltb in E. unfold SFleb.
      destruct (SFcompare b a) as [[]|]; congruence.
    + unfold SFleb. now rewrite SFcompare_refl.
  - split; [now left|]. split.
    + unfold SFleb. now rewrite SFcompare_refl.
    + apply not_ltb_leb; [now apply SFcompare_not_nan | assumption].
Qed.

Lemma std_max_spec (a b : spec_float) :
  a <> S754_nan -> b <> S754_nan ->
  (std_max a b = a \/ std_max a b = b)
  /\ leb a (std_max a b) = true /\ leb b (std_max a b) = true.
Proof.
  intros Ha Hb. unfold std_max, ltb, leb.
  destruct (SFltb a b) eqn:E.
  - split; [now right|]. split.
    + unfold SFltb in E. unfold SFleb.
      destruct (SFcompare a b) as [[]|]; congruence.
    + unfold SFleb. now rewrite SFcompare_refl.
  - split; [now left|]. split.
    + unfold SFleb. now rewrite SFcompare_refl.
    + apply not_ltb_leb; [now apply SFcompare_not_nan | assumption].
Qed.

(** [1.0 - a] for [a] in [0, 1] is in [0, 1]. *)
Lemma sub_finite_unit (q m : positive) (e : Z) :
  Zpos q = 2 ^ 52 ->
  fexp prec emax (Zdigits2 (Zpos m) + e) = e ->
  e < -52 \/ (e = -52 /\ Zpos m <= 2 ^ 52) ->
  unit_state (SFsub prec emax (S754_finite false q (-52))
                (S754_finite false m e)).
Proof.
  intros Hq Hcan Hle. unfold SFsub. cbn [cond_Zopp].
  remember (Z.min (-52) e) as ez eqn:Hez.
  pose proof (shl_align_spec q (-52) ez) as H1.
  pose proof (shl_align_spec m e ez) as H2.
  cbv zeta in H1, H2.
  destruct (shl_align q (-52) ez) as [mz1 ez1].
  destruct (shl_align m e ez) as [mz2 ez2].
  cbn [fst snd] in *.
  destruct H1 as (He1 & Hm1 & _), H2 as (He2 & Hm2 & _).
  assert (Hez1 : ez1 = ez) by lia. assert (Hez2 : ez2 = ez) by lia.
  rewrite Hez1 in Hm1. rewrite Hez2 in Hm2. clear He1 He2 Hez1 Hez2.
  assert (Hone : Zpos mz1 = 2 ^ (- ez)).
  { rewrite Hm1, Hq, <- Z.pow_add_r by lia. f_equal. lia. }
  assert (Hupper : Zpos m < 2 ^ 53).
  { rewrite fexp_unfold in Hcan.
    pose proof (Zdigits2_bounds (Zpos m) eq_refl) as [_ H].
    assert (2 ^ Zdigits2 (Zpos m) <= 2 ^ 53)
      by (apply Z.pow_le_mono_r; lia).
    lia. }
  assert (Hrange : 0 <= Zpos mz1 - Zpos mz2 < 2 ^ (- ez)).
  { destruct Hle as [Hlt | [-> Hm]].
    - assert (Hz : ez = e) by lia. clear Hez. subst ez.
      replace (e - e) with 0 in Hm2 by lia.
      assert (2 ^ 53 <= 2 ^ (- e)) by (apply Z.pow_le_mono_r; lia).
      cbn [Z.pow] in Hm2. lia.
    - assert (Hz : ez = -52) by lia. clear Hez. subst ez.
      replace (-52 - -52) with 0 in Hm2 by lia.
      cbn [Z.pow] in Hm2. replace (- -52) with 52 in * by lia. lia. }
  destruct (Zpos mz1 - Zpos mz2) as [|p|p] eqn:Ed;
    cbn [binary_normalize]; [apply unit_state_zero | | lia].
  destruct (binary_round_unit p ez) as (Hv & H0 & H1).
  repeat split; try assumption. apply H1.
  rewrite Zdigits2_log2 by lia.
  assert (Z.log2 (Zpos p) < - ez) by (apply Z.log2_lt_pow2; lia).
  lia.
Qed.

Lemma sub_one_unit (a : spec_float) :
  unit_state a -> unit_state (sub one a).
Proof.
  intros Ha.
  destruct (unit_state_inv a Ha) as [[s ->] | (m & e & -> & Hc & Hle)].
  - exact unit_state_one.
  - apply sub_finite_unit; [exact one_mantissa | assumption | assumption].
Qed.

(** [a + b] for [a] and [b] in [0, 1] is a valid number, not below 0. *)
Lemma add_unit (a b : spec_float) :
  unit_state a -> unit_state b ->
  valid_binary prec emax (add a b) = true /\ SFleb zero (add a b) = true.
Proof.
  intros Ha Hb.
  destruct (unit_state_inv a Ha) as [[sa ->] | (ma & ea & -> & _ & _)],
           (unit_state_inv b Hb) as [[sb ->] | (mb & eb & -> & _ & _)].
  - now destruct sa, sb.
  - destruct Hb as (Hv & H0 & _). now split.
  - destruct Ha as (Hv & H0 & _). now split.
  - unfold add, SFadd. cbn [cond_Zopp Z.add binary_normalize].
    destruct (binary_round_unit
                (fst (shl_align ma ea (Z.min ea eb))
                 + fst (shl_align mb eb (Z.min ea eb)))
                (Z.min ea eb)) as (Hv & H0 & _).
    now split.
Qed.

(** The clamped sum of two numbers in [0, 1] is in [0, 1]. *)
Lemma clamped_add_unit (a b : spec_float) :
  unit_state a -> unit_state b -> unit_state (std_min (add a b) one).
Proof.
  intros Ha Hb. destruct (add_unit a b Ha Hb) as [Hv H0].
  unfold std_min, ltb. destruct (SFltb one (add a b)) eqn:E.
  - exact unit_state_one.
  - repeat split; try assumption.
    apply not_ltb_leb; [|assumption].
    apply SFcompare_not_nan; [now apply leb_zero_not_nan | discriminate].
Qed.

Lemma unit_state_not_nan (v : spec_float) : unit_state v -> v <> S754_nan.
Proof. intros (_ & H & _). now apply leb_zero_not_nan. Qed.

Lemma std_min_unit (a b : spec_float) :
  unit_state a -> unit_state b -> unit_state (std_min a b).
Proof. intros Ha Hb. unfold std_min. now destruct (ltb b a). Qed.

Lemma std_max_unit (a b : spec_float) :
  unit_state a -> unit_state b -> unit_state (std_max a b).
Proof. intros Ha Hb. unfold std_max. now destruct (ltb a b). Qed.

End Binary64.

(** * Properties *)

Section Properties.

Context {DI : DeviceInterface}.

(** ** Strings *)

Lemma append_String (c : ascii) (s t : string) :
  String c s ++ t = String c (s ++ t).
Proof. reflexivity. Qed.

Lemma append_assoc (s t u : string) : (s ++ t) ++ u = s ++ (t ++ u).
Proof.
  induction s as [|c s IH]; simpl; [reflexivity|].
  now rewrite IH.
Qed.

Lemma length_append (s t : string) :
  String.length (s ++ t) = String.length s + String.length t.
Proof.
  induction s as [|c s IH]; simpl; [reflexivity|].
  now rewrite IH.
Qed.

Lemma never_NUL (c : ascii) :
  (0 <? char_value c)%Z && Ascii.eqb c NUL = false.
Proof.
  destruct (Ascii.eqb_spec c NUL) as [->|_].
  - reflexivity.
  - apply andb_false_r.
Qed.

(** ** The backtick scanner *)

(** A closing backtick ends the scan, and the text before it is the
    fetched value. *)
Lemma Fetch_backtick (d : ascii) (v rest : string) :
  contains "`" v = false ->
  (contains d v = false \/ d = NUL) ->
  FetchBacktickString (v ++ String "`" rest) d = (false, v, rest).
Proof.
  intros Hb Hd.
  induction v as [|c v IH]; simpl in *.
  - reflexivity.
  - apply orb_false_iff in Hb as [Hc Hb].
    rewrite Hc.
    assert (Hcd : (0 <? char_value c)%Z && Ascii.eqb c d = false).
    { destruct Hd as [Hd | ->].
      - apply orb_false_iff in Hd as [Hd _]. rewrite Hd. apply andb_false_r.
      - apply never_NUL. }
    rewrite Hcd, IH; [reflexivity | assumption |].
    destruct Hd as [Hd | Hd]; [left | now right].
    now apply orb_false_iff in Hd.
Qed.

(** The other delimiter, met before any backtick, ends the scan too. *)
Lemma Fetch_delim (d : ascii) (v rest : string) :
  contains "`" v = false ->
  contains d v = false ->
  (0 <? char_value d)%Z = true ->
  Ascii.eqb d "`" = false ->
  FetchBacktickString (v ++ String d rest) d = (true, v, rest).
Proof.
  intros Hb Hd Hpos Hne.
  induction v as [|c v IH]; simpl in *.
  - now rewrite Hne, Hpos, Ascii.eqb_refl.
  - apply orb_false_iff in Hb as [Hc Hb].
    apply orb_false_iff in Hd as [Hcd Hd].
    now rewrite Hc, Hcd, andb_false_r, IH.
Qed.

(** At the end of the input the scan stops with what it has read. *)
Lemma Fetch_end (d : ascii) (v : string) :
  contains "`" v = false ->
  (contains d v = false \/ d = NUL) ->
  FetchBacktickString v d = (false, v, "").
Proof.
  intros Hb Hd.
  induction v as [|c v IH]; simpl in *.
  - reflexivity.
  - apply orb_false_iff in Hb as [Hc Hb].
    rewrite Hc.
    assert (Hcd : (0 <? char_value c)%Z && Ascii.eqb c d = false).
    { destruct Hd as [Hd | ->].
      - apply orb_false_iff in Hd as [Hd _]. rewrite Hd. apply andb_false_r.
      - apply never_NUL. }
    rewrite Hcd, IH; [reflexivity | assumption |].
    destruct Hd as [Hd | Hd]; [left | now right].
    now apply orb_false_iff in Hd.
Qed.

Lemma NextToken_backtick (it : string) :
  NextToken (String "`" it) = GetFullyQualifiedControl it.
Proof. reflexivity. Qed.

(** What [GetFullyQualifiedControl] reads after the opening backtick:
    a device and a name, or a name alone, up to the closing backtick or
    the end of the input. *)
Lemma GetFullyQualifiedControl_reads (dev name rest : string) :
  contains "`" dev = false -> contains ":" dev = false ->
  contains "`" name = false ->
  GetFullyQualifiedControl (dev ++ ":" ++ name ++ "`" ++ rest)
  = (Token_with TOK_CONTROL
       {| has_device := true;
          device_qualifier := FromString DeviceQualifier_new dev;
          control_name := name |}, rest)
  /\ GetFullyQualifiedControl (dev ++ "`" ++ rest)
     = (Token_with TOK_CONTROL
          {| has_device := false;
             device_qualifier := DeviceQualifier_new;
             control_name := dev |}, rest)
  /\ GetFullyQualifiedControl dev
     = (Token_with TOK_CONTROL
          {| has_device := false;
             device_qualifier := DeviceQualifier_new;
             control_name := dev |}, "")
  /\ GetFullyQualifiedControl (dev ++ ":" ++ name)
     = (Token_with TOK_CONTROL
          {| has_device := true;
             device_qualifier := FromString DeviceQualifier_new dev;
             control_name := name |}, "").
Proof.
  intros Hdb Hdc Hnb.
  repeat split; unfold GetFullyQualifiedControl; simpl append.
  - rewrite Fetch_delim by (assumption || reflexivity).
    now rewrite Fetch_backtick by (assumption || now right).
  - now rewrite Fetch_backtick by (assumption || now left).
  - now rewrite Fetch_end by (assumption || now left).
  - rewrite Fetch_delim by (assumption || reflexivity).
    now rewrite Fetch_end by (assumption || now right).
Qed.

Lemma GetFullyQualifiedControl_type (it : string) :
  type (fst (GetFullyQualifiedControl it)) = TOK_CONTROL.
Proof.
  unfold GetFullyQualifiedControl.
  destruct (FetchBacktickString it ":") as [[found value] it1].
  destruct found; [|reflexivity].
  now destruct (FetchBacktickString it1 NUL) as [[found2 value2] it2].
Qed.

(** C9. A backtick-opened token: with a colon before the closing backtick
    the text before the colon is the device identity ([has_device] is set)
    and the text after it, up to the closing backtick, is the control
    name; without a colon the whole quoted text is the control name and
    [has_device] stays false; and when the input ends before a closing
    backtick the scan stops there and the text read so far is a CONTROL
    token all the same. Whatever follows the backtick, the token is a
    CONTROL token, never INVALID. *)
Theorem backtick_token (dev name rest : string) :
  contains "`" dev = false -> contains ":" dev = false ->
  contains "`" name = false ->
  NextToken ("`" ++ dev ++ ":" ++ name ++ "`" ++ rest)
  = (Token_with TOK_CONTROL
       {| has_device := true;
          device_qualifier := FromString DeviceQualifier_new dev;
          control_name := name |}, rest)
  /\ NextToken ("`" ++ dev ++ "`" ++ rest)
     = (Token_with TOK_CONTROL
          {| has_device := false;
             device_qualifier := DeviceQualifier_new;
             control_name := dev |}, rest)
  /\ NextToken ("`" ++ dev)
     = (Token_with TOK_CONTROL
          {| has_device := false;
             device_qualifier := DeviceQualifier_new;
             control_name := dev |}, "")
  /\ NextToken ("`" ++ dev ++ ":" ++ name)
     = (Token_with TOK_CONTROL
          {| has_device := true;
             device_qualifier := FromString DeviceQualifier_new dev;
             control_name := name |}, "")
  /\ (forall it, type (fst (NextToken ("`" ++ it))) = TOK_CONTROL).
Proof.
  intros Hdb Hdc Hnb.
  destruct (GetFullyQualifiedControl_reads dev name rest Hdb Hdc Hnb)
    as (H1 & H2 & H3 & H4).
  repeat split; try (rewrite append_String, NextToken_backtick; assumption).
  intros it. rewrite append_String, NextToken_backtick.
  apply GetFullyQualifiedControl_type.
Qed.

(** ** Characters the grammar cannot lex *)

(** Inside a quoted region the scan runs to the closing backtick, or to
    the delimiter and leaves the cursor inside the region. *)
Lemma Fetch_quoted (d : ascii) (pre tail : string) :
  quoted true pre = false ->
  exists found value pre',
    FetchBacktickString (pre ++ tail) d = (found, value, pre' ++ tail)
    /\ String.length pre' < String.length pre
    /\ quoted found pre' = false.
Proof.
  induction pre as [|c pre IH]; simpl; intros Hq; [discriminate|].
  destruct (Ascii.eqb c "`") eqn:Hc.
  - exists false, "", pre. auto.
  - destruct ((0 <? char_value c)%Z && Ascii.eqb c d).
    + exists true, "", pre. auto.
    + destruct (IH Hq) as (found & value & pre' & -> & Hlen & Hq').
      exists found, (String c value), pre'. auto.
Qed.

(** The second scan of a qualified name has no delimiter to report. *)
Lemma Fetch_NUL_not_found (it : string) :
  fst (fst (FetchBacktickString it NUL)) = false.
Proof.
  induction it as [|c it IH]; simpl; [reflexivity|].
  destruct (Ascii.eqb c "`"); [reflexivity|].
  rewrite never_NUL.
  now destruct (FetchBacktickString it NUL) as [[found value] rest].
Qed.

Lemma GetFullyQualifiedControl_quoted (pre tail : string) :
  quoted true pre = false ->
  exists q pre',
    GetFullyQualifiedControl (pre ++ tail)
    = (Token_with TOK_CONTROL q, pre' ++ tail)
    /\ String.length pre' < String.length pre
    /\ quoted false pre' = false.
Proof.
  intros Hq. unfold GetFullyQualifiedControl.
  destruct (Fetch_quoted ":" pre tail Hq)
    as (found & value & pre1 & -> & Hlen1 & Hq1).
  destruct found.
  - destruct (Fetch_quoted NUL pre1 tail Hq1)
      as (found2 & value2 & pre2 & E2 & Hlen2 & Hq2).
    rewrite E2. eexists _, pre2. split; [reflexivity|]. split; [lia|].
    destruct found2; [|assumption].
    pose proof (Fetch_NUL_not_found (pre1 ++ tail)) as Hnf.
    rewrite E2 in Hnf. discriminate Hnf.
  - eexists _, pre1. auto.
Qed.

Lemma isalpha_not_backtick (c : ascii) :
  isalpha c = true -> Ascii.eqb c "`" = false.
Proof.
  intros H.
  destruct (Ascii.eqb_spec c "`") as [->|_]; [discriminate H | reflexivity].
Qed.

(** A bareword stops at a character that is not a letter, so before the
    character [c] when [c] is none. *)
Lemma GetBarewordsControl_loop_stops (c : ascii) (pre post : string) :
  isalpha c = false ->
  exists name pre',
    GetBarewordsControl_loop (pre ++ String c post)
    = (name, pre' ++ String c post)
    /\ String.length pre' <= String.length pre
    /\ forall b, quoted b pre' = quoted b pre.
Proof.
  intros Hc. induction pre as [|x pre IH]; simpl.
  - rewrite Hc. simpl. exists "", "". auto.
  - destruct (isalpha x) eqn:Hx; simpl.
    + destruct IH as (name & pre' & -> & Hlen & Hq).
      exists (String x name), pre'. split; [reflexivity|]. split; [lia|].
      intros b. now rewrite (isalpha_not_backtick _ Hx).
    + exists "", (String x pre). auto.
Qed.

Lemma not_lexable (c : ascii) :
  lexable c = false ->
  is_space c = false /\ Ascii.eqb c "(" = false /\ Ascii.eqb c ")" = false
  /\ Ascii.eqb c "&" = false /\ Ascii.eqb c "|" = false
  /\ Ascii.eqb c "!" = false /\ Ascii.eqb c "+" = false
  /\ Ascii.eqb c "`" = false /\ isalpha c = false.
Proof.
  unfold lexable. intros H.
  do 8 (apply orb_false_iff in H as [H ?]). repeat split; assumption.
Qed.

(** The lexer reports INVALID at a character it cannot lex. *)
Lemma NextToken_invalid (c : ascii) (post : string) :
  lexable c = false ->
  NextToken (String c post) = (Token_of TOK_INVALID, post).
Proof.
  intros H. apply not_lexable in H.
  destruct H as (Hs & H1 & H2 & H3 & H4 & H5 & H6 & H7 & H8).
  unfold NextToken. fold (is_space c).
  now rewrite Hs, H1, H2, H3, H4, H5, H6, H7, H8.
Qed.

(** One token read outside a quoted region, before a character [c] that
    cannot be lexed: INVALID, or a token that ends outside a quoted region
    and still before [c]. *)
Lemma NextToken_before_invalid (c x : ascii) (pre post : string) :
  lexable c = false ->
  quoted false (String x pre) = false ->
  let '(tok, it') := NextToken (String x pre ++ String c post) in
  type tok = TOK_INVALID
  \/ (type tok <> TOK_EOF
      /\ exists pre', it' = pre' ++ String c post
                      /\ String.length pre' <= String.length pre
                      /\ quoted false pre' = false).
Proof.
  intros Hc Hq. simpl append. simpl in Hq.
  destruct (Ascii.eqb_spec x "`") as [->|Hx].
  - change (NextToken (String "`" (pre ++ String c post)))
      with (GetFullyQualifiedControl (pre ++ String c post)).
    destruct (GetFullyQualifiedControl_quoted pre (String c post) Hq)
      as (q & pre' & -> & Hlen & Hq').
    right. split; [discriminate|]. exists pre'. split; [reflexivity|].
    split; [lia | assumption].
  - apply Ascii.eqb_neq in Hx.
    assert (Hkeep : exists pre', pre ++ String c post = pre' ++ String c post
                      /\ String.length pre' <= String.length pre
                      /\ quoted false pre' = false)
      by (exists pre; auto).
    unfold NextToken. fold (is_space x). rewrite Hx.
    destruct (is_space x); [right; split; [discriminate | exact Hkeep]|].
    destruct (Ascii.eqb x "(");
      [right; split; [discriminate | exact Hkeep]|].
    destruct (Ascii.eqb x ")");
      [right; split; [discriminate | exact Hkeep]|].
    destruct (Ascii.eqb x "&");
      [right; split; [discriminate | exact Hkeep]|].
    destruct (Ascii.eqb x "|");
      [right; split; [discriminate | exact Hkeep]|].
    destruct (Ascii.eqb x "!");
      [right; split; [discriminate | exact Hkeep]|].
    destruct (Ascii.eqb x "+");
      [right; split; [discriminate | exact Hkeep]|].
    destruct (isalpha x); [|now left].
    unfold GetBarewordsControl.
    destruct (GetBarewordsControl_loop_stops c pre post
                (proj2 (proj2 (proj2 (proj2 (proj2 (proj2 (proj2 (proj2
                   (not_lexable c Hc))))))))))
      as (name & pre' & -> & Hlen & Hq').
    right. split; [discriminate|]. exists pre'. split; [reflexivity|].
    split; [assumption|]. now rewrite Hq'.
Qed.

(** Tokenization aborts when a character that cannot be lexed stands
    outside every quoted region. *)
Lemma Tokenize_loop_invalid (c : ascii) (post : string) :
  lexable c = false ->
  forall fuel pre tokens,
    String.length pre < fuel ->
    quoted false pre = false ->
    Tokenize_loop fuel (pre ++ String c post) tokens = Some (SyntaxError, []).
Proof.
  intros Hc. induction fuel as [|fuel IH]; intros pre tokens Hlen Hq; [lia|].
  destruct pre as [|x pre].
  - simpl append. cbn [Tokenize_loop].
    now rewrite (NextToken_invalid c post Hc).
  - cbn [Tokenize_loop].
    pose proof (NextToken_before_invalid c x pre post Hc Hq) as H.
    destruct (NextToken (String x pre ++ String c post)) as [tok it'].
    destruct H as [-> | (Hne & pre' & -> & Hlen' & Hq')]; [reflexivity|].
    simpl in Hlen.
    destruct (type tok); try (apply IH; [lia | assumption]);
      [reflexivity | congruence].
Qed.

(** ** The parser: defining equations *)

Section ParserEquations.

Variable finder : ControlFinder.

Lemma Atom_S (n : nat) (toks : list Token) :
  Atom finder (S n) toks =
  match toks with
  | [] => PastEnd
  | tok :: rest =>
      match type tok with
      | TOK_CONTROL =>
          Ret (Parsed (ControlExpression (qualifier tok)
                         (FindDevice finder (qualifier tok))
                         (FindControl finder (qualifier tok)))) rest
      | TOK_LPAREN => Paren finder n rest
      | _ => Ret (Failed SyntaxError) rest
      end
  end.
Proof.
  destruct toks as [|[ty q] rest]; [reflexivity|].
  destruct ty; reflexivity.
Qed.

Lemma Unary_S (n : nat) (toks : list Token) :
  Unary finder (S n) toks =
  match toks with
  | [] => PastEnd
  | tok :: rest =>
      if IsUnaryExpression (type tok)
      then and_then (Atom finder n rest) (fun result rest' =>
             if ParseStatus_eqb (status result) SyntaxError
             then Ret result rest'
             else match expr result with
                  | Some inner =>
                      Ret (Parsed (UnaryExpression (type tok) inner)) rest'
                  | None => NullChild
                  end)
      else Atom finder n toks
  end.
Proof.
  destruct toks as [|tok rest]; [reflexivity|].
  change (Unary finder (S n) (tok :: rest))
    with ((if IsUnaryExpression (type tok)
           then bind Chew (fun tok0 => bind (Atom finder n) (fun result =>
                  if ParseStatus_eqb (status result) SyntaxError
                  then ret result
                  else match expr result with
                       | Some inner =>
                           ret (Parsed (UnaryExpression (type tok0) inner))
                       | None => fun _ => NullChild
                       end))
           else Atom finder n) (tok :: rest)).
  destruct (IsUnaryExpression (type tok)); [|reflexivity].
  unfold bind, Chew, and_then.
  destruct (Atom finder n rest) as [result rest'| | |]; try reflexivity.
  destruct (ParseStatus_eqb (status result) SyntaxError); [reflexivity|].
  now destruct (expr result).
Qed.

Lemma Binary_S (n : nat) (toks : list Token) :
  Binary finder (S n) toks =
  and_then (Unary finder n toks) (fun result rest =>
    if ParseStatus_eqb (status result) SyntaxError then Ret result rest
    else match expr result with
         | Some e => Binary_loop finder n e rest
         | None => NullChild
         end).
Proof.
  change (Binary finder (S n) toks)
    with (and_then (Unary finder n toks) (fun result =>
            if ParseStatus_eqb (status result) SyntaxError then ret result
            else match expr result with
                 | Some e => Binary_loop finder n e
                 | None => fun _ => NullChild
                 end)).
  destruct (Unary finder n toks) as [result rest| | |]; try reflexivity.
  unfold and_then.
  destruct (ParseStatus_eqb (status result) SyntaxError); [reflexivity|].
  now destruct (expr result).
Qed.

Lemma Binary_loop_S (n : nat) (e : Expression) (toks : list Token) :
  Binary_loop finder (S n) e toks =
  match toks with
  | [] => PastEnd
  | tok :: rest =>
      if IsBinaryToken (type tok)
      then and_then (Unary finder n rest) (fun unary_result rest' =>
             if ParseStatus_eqb (status unary_result) SyntaxError
             then Ret unary_result rest'
             else match expr unary_result with
                  | Some rhs =>
                      Binary_loop finder n
                        (BinaryExpression (type tok) e rhs) rest'
                  | None => NullChild
                  end)
      else Ret (Parsed e) toks
  end.
Proof.
  destruct toks as [|tok rest]; [reflexivity|].
  change (Binary_loop finder (S n) e (tok :: rest))
    with ((if IsBinaryToken (type tok)
           then bind Chew (fun tok0 => bind (Unary finder n)
                  (fun unary_result =>
                     if ParseStatus_eqb (status unary_result) SyntaxError
                     then ret unary_result
                     else match expr unary_result with
                          | Some rhs =>
                              Binary_loop finder n
                                (BinaryExpression (type tok0) e rhs)
                          | None => fun _ => NullChild
                          end))
           else ret (Parsed e)) (tok :: rest)).
  destruct (IsBinaryToken (type tok)); [|reflexivity].
  unfold bind, Chew, and_then.
  destruct (Unary finder n rest) as [result rest'| | |]; try reflexivity.
  destruct (ParseStatus_eqb (status result) SyntaxError); [reflexivity|].
  now destruct (expr result).
Qed.

Lemma Paren_S (n : nat) (toks : list Token) :
  Paren finder (S n) toks =
  and_then (Toplevel finder n toks) (fun result rest =>
    if negb (ParseStatus_eqb (status result) Successful) then Ret result rest
    else match rest with
         | [] => PastEnd
         | tok :: rest' =>
             if TokenType_eqb (type tok) TOK_RPAREN then Ret result rest'
             else Ret (Failed SyntaxError) rest'
         end).
Proof.
  change (Paren finder (S n) toks)
    with (and_then (Toplevel finder n toks) (fun result =>
            if negb (ParseStatus_eqb (status result) Successful)
            then ret result
            else bind (Expects TOK_RPAREN) (fun ok =>
                   if negb ok then ret (Failed SyntaxError)
                   else ret result))).
  destruct (Toplevel finder n toks) as [result rest| | |]; try reflexivity.
  unfold and_then.
  destruct (negb (ParseStatus_eqb (status result) Successful));
    [reflexivity|].
  destruct rest as [|tok rest']; [reflexivity|].
  unfold bind, Expects, bind, Chew, and_then, ret.
  now destruct (TokenType_eqb (type tok) TOK_RPAREN).
Qed.

Lemma Toplevel_S (n : nat) (toks : list Token) :
  Toplevel finder (S n) toks = Binary finder n toks.
Proof. reflexivity. Qed.

End ParserEquations.

(** ** The parser: fuel

    A run that does not exhaust its fuel is the run with any larger
    fuel. *)

Section ParserFuel.

Variable finder : ControlFinder.

Lemma fuel_step (n : nat) :
  (forall toks, Atom finder n toks = OutOfFuel
                \/ Atom finder (S n) toks = Atom finder n toks)
  /\ (forall toks, Unary finder n toks = OutOfFuel
                   \/ Unary finder (S n) toks = Unary finder n toks)
  /\ (forall toks, Binary finder n toks = OutOfFuel
                   \/ Binary finder (S n) toks = Binary finder n toks)
  /\ (forall e toks, Binary_loop finder n e toks = OutOfFuel
                     \/ Binary_loop finder (S n) e toks
                        = Binary_loop finder n e toks)
  /\ (forall toks, Paren finder n toks = OutOfFuel
                   \/ Paren finder (S n) toks = Paren finder n toks)
  /\ (forall toks, Toplevel finder n toks = OutOfFuel
                   \/ Toplevel finder (S n) toks = Toplevel finder n toks).
Proof.
  induction n as [|n (IA & IU & IB & IL & IP & IT)].
  { repeat split; intros; left; reflexivity. }
  repeat split; intros.
  - rewrite !Atom_S. destruct toks as [|tok rest]; [now right|].
    destruct (type tok); try (now right). apply IP.
  - rewrite !Unary_S. destruct toks as [|tok rest]; [now right|].
    destruct (IsUnaryExpression (type tok)); [|apply IA].
    destruct (IA rest) as [E|E]; rewrite E; [now left | now right].
  - rewrite !Binary_S.
    destruct (IU toks) as [E|E]; rewrite E; [now left|].
    destruct (Unary finder n toks) as [result rest| | |]; try (now right).
    cbn [and_then].
    destruct (ParseStatus_eqb (status result) SyntaxError); [now right|].
    destruct (expr result); [apply IL | now right].
  - rewrite !Binary_loop_S. destruct toks as [|tok rest]; [now right|].
    destruct (IsBinaryToken (type tok)); [|now right].
    destruct (IU rest) as [E|E]; rewrite E; [now left|].
    destruct (Unary finder n rest) as [result rest'| | |]; try (now right).
    cbn [and_then].
    destruct (ParseStatus_eqb (status result) SyntaxError); [now right|].
    destruct (expr result); [apply IL | now right].
  - rewrite !Paren_S.
    destruct (IT toks) as [E|E]; rewrite E; [now left | now right].
  - rewrite !Toplevel_S. apply IB.
Qed.

Lemma fuel_mono (k n : nat) :
  (forall toks, Atom finder n toks = OutOfFuel
                \/ Atom finder (k + n) toks = Atom finder n toks)
  /\ (forall toks, Unary finder n toks = OutOfFuel
                   \/ Unary finder (k + n) toks = Unary finder n toks)
  /\ (forall toks, Binary finder n toks = OutOfFuel
                   \/ Binary finder (k + n) toks = Binary finder n toks)
  /\ (forall e toks, Binary_loop finder n e toks = OutOfFuel
                     \/ Binary_loop finder (k + n) e toks
                        = Binary_loop finder n e toks)
  /\ (forall toks, Paren finder n toks = OutOfFuel
                   \/ Paren finder (k + n) toks = Paren finder n toks)
  /\ (forall toks, Toplevel finder n toks = OutOfFuel
                   \/ Toplevel finder (k + n) toks = Toplevel finder n toks).
Proof.
  induction k as [|k (IA & IU & IB & IL & IP & IT)].
  { repeat split; intros; right; reflexivity. }
  destruct (fuel_step (k + n)) as (SA & SU & SB & SL & SP & ST).
  cbn [Nat.add].
  repeat split; intros.
  - destruct (IA toks) as [E|E]; [now left|].
    destruct (SA toks) as [E'|E']; [left | right]; congruence.
  - destruct (IU toks) as [E|E]; [now left|].
    destruct (SU toks) as [E'|E']; [left | right]; congruence.
  - destruct (IB toks) as [E|E]; [now left|].
    destruct (SB toks) as [E'|E']; [left | right]; congruence.
  - destruct (IL e toks) as [E|E]; [now left|].
    destruct (SL e toks) as [E'|E']; [left | right]; congruence.
  - destruct (IP toks) as [E|E]; [now left|].
    destruct (SP toks) as [E'|E']; [left | right]; congruence.
  - destruct (IT toks) as [E|E]; [now left|].
    destruct (ST toks) as [E'|E']; [left | right]; congruence.
Qed.

(** With more fuel [Toplevel] returns what it returned. *)
Lemma Toplevel_more_fuel (n m : nat) (toks : list Token)
      (result : ParseResult) (rest : list Token) :
  n <= m ->
  Toplevel finder n toks = Ret result rest ->
  Toplevel finder m toks = Ret result rest.
Proof.
  intros Hle H.
  destruct (fuel_mono (m - n) n) as (_ & _ & _ & _ & _ & IT).
  replace (m - n + n) with m in IT by lia.
  destruct (IT toks) as [E|E]; congruence.
Qed.

End ParserFuel.

(** ** The parser follows the grammar *)

Lemma TokenType_eqb_eq (a b : TokenType) :
  TokenType_eqb a b = true <-> a = b.
Proof. destruct a, b; simpl; split; congruence. Qed.

Section ParserSound.

Variable finder : ControlFinder.

(** What a method returns: a syntax error without a tree, or the tree of
    the tokens it consumed. *)
Definition returns (derives : list Token -> Expression -> Prop)
    (toks : list Token) (result : ParseResult) (rest : list Token) : Prop :=
  result = Failed SyntaxError
  \/ exists e consumed,
       result = Parsed e /\ toks = (consumed ++ rest)%list
       /\ derives consumed e.

Lemma parser_sound (n : nat) :
  (forall toks result rest,
      Atom finder n toks = Ret result rest ->
      returns (atom_of finder) toks result rest)
  /\ (forall toks result rest,
         Unary finder n toks = Ret result rest ->
         returns (unary_of finder) toks result rest)
  /\ (forall toks result rest,
         Binary finder n toks = Ret result rest ->
         returns (fun ts e => binary_of finder ts e /\ stops_at rest)
           toks result rest)
  /\ (forall e0 ts0 toks result rest,
         binary_of finder ts0 e0 ->
         Binary_loop finder n e0 toks = Ret result rest ->
         returns (fun ts e => binary_of finder (ts0 ++ ts) e /\ stops_at rest)
           toks result rest)
  /\ (forall toks result rest,
         Paren finder n toks = Ret result rest ->
         returns (fun ts e => exists ts' rp,
                      ts = (ts' ++ [rp])%list /\ type rp = TOK_RPAREN
                      /\ binary_of finder ts' e)
           toks result rest)
  /\ (forall toks result rest,
         Toplevel finder n toks = Ret result rest ->
         returns (fun ts e => binary_of finder ts e /\ stops_at rest)
           toks result rest).
Proof.
  induction n as [|n (IA & IU & IB & IL & IP & IT)].
  { repeat split; intros; discriminate. }
  repeat split.
  - (* Atom *)
    intros toks result rest. rewrite Atom_S.
    destruct toks as [|tok toks]; [discriminate|].
    destruct (type tok) eqn:Ety;
      try (intros [= <- <-]; left; reflexivity).
    + (* LPAREN *)
      intros H. apply IP in H as [-> | (e & consumed & -> & -> & Hd)];
        [now left|].
      destruct Hd as (ts' & rp & -> & Hrp & Hd).
      right. exists e, (tok :: ts' ++ [rp])%list.
      split; [reflexivity|]. split; [reflexivity|].
      now apply atom_paren.
    + (* CONTROL *)
      intros [= <- <-]. right. eexists _, [tok].
      split; [reflexivity|]. split; [reflexivity|].
      now apply atom_control.
  - (* Unary *)
    intros toks result rest. rewrite Unary_S.
    destruct toks as [|tok toks]; [discriminate|].
    destruct (IsUnaryExpression (type tok)) eqn:Htok.
    + destruct (Atom finder n toks) as [r rest'| | |] eqn:E;
        try discriminate.
      apply IA in E as [-> | (e & consumed & -> & -> & Hd)]; cbn.
      * intros [= <- <-]. now left.
      * intros [= <- <-]. right. exists (UnaryExpression (type tok) e),
          (tok :: consumed)%list.
        split; [reflexivity|]. split; [reflexivity|].
        apply unary_not; [|assumption].
        destruct (type tok); try discriminate; reflexivity.
    + intros H. apply IA in H as [-> | (e & consumed & -> & E & Hd)];
        [now left|].
      right. exists e, consumed. repeat split; try assumption.
      now apply unary_atom.
  - (* Binary *)
    intros toks result rest. rewrite Binary_S.
    destruct (Unary finder n toks) as [r rest'| | |] eqn:E; try discriminate.
    apply IU in E as [-> | (e & consumed & -> & -> & Hd)]; cbn.
    + intros [= <- <-]. now left.
    + intros H.
      apply (IL e consumed) in H as [-> | (e' & consumed' & -> & -> & Hd')];
        [now left | | now apply binary_first].
      right. exists e', (consumed ++ consumed')%list.
      split; [reflexivity|]. split; [now rewrite app_assoc | assumption].
  - (* Binary_loop *)
    intros e0 ts0 toks result rest H0. rewrite Binary_loop_S.
    destruct toks as [|tok toks]; [discriminate|].
    destruct (IsBinaryToken (type tok)) eqn:Htok.
    + destruct (Unary finder n toks) as [r rest'| | |] eqn:E;
        try discriminate.
      apply IU in E as [-> | (e & consumed & -> & -> & Hd)]; cbn.
      * intros [= <- <-]. now left.
      * intros H.
        apply (IL _ (ts0 ++ tok :: consumed)%list) in H
          as [-> | (e' & consumed' & -> & -> & Hd' & Hstop)];
          [now left | | now apply binary_more].
        right. exists e', (tok :: consumed ++ consumed')%list.
        split; [reflexivity|].
        split; [cbn [app]; now rewrite app_assoc|].
        split; [|assumption].
        now rewrite <- app_assoc in Hd'.
    + intros [= <- <-]. right. exists e0, []. split; [reflexivity|].
      split; [reflexivity|]. rewrite app_nil_r. split; [assumption|].
      now exists tok, toks.
  - (* Paren *)
    intros toks result rest. rewrite Paren_S.
    destruct (Toplevel finder n toks) as [r rest'| | |] eqn:E;
      try discriminate.
    apply IT in E as [-> | (e & consumed & -> & -> & Hd & _)]; cbn.
    + intros [= <- <-]. now left.
    + destruct rest' as [|tok rest']; [discriminate|].
      destruct (TokenType_eqb (type tok) TOK_RPAREN) eqn:Htok.
      * intros [= <- <-]. right. exists e, (consumed ++ [tok])%list.
        split; [reflexivity|]. split; [now rewrite <- app_assoc|].
        exists consumed, tok. apply TokenType_eqb_eq in Htok. auto.
      * intros [= <- <-]. now left.
  - (* Toplevel *)
    intros toks result rest. rewrite Toplevel_S. apply IB.
Qed.

(** A derivation consumes at least one token. *)
Lemma atom_of_nonempty (ts : list Token) (e : Expression) :
  atom_of finder ts e -> ts <> [].
Proof. intros H. destruct H; discriminate. Qed.

Lemma unary_of_nonempty (ts : list Token) (e : Expression) :
  unary_of finder ts e -> ts <> [].
Proof.
  intros H. destruct H; [discriminate | eapply atom_of_nonempty; eassumption].
Qed.

End ParserSound.

(** ** The parser returns

    Enough fuel is five units for each token, and on a token vector that
    ends with EOF the cursor never passes the end: after the last token
    every method returns a syntax error, which every caller hands on. *)

Section ParserTotal.

Variable finder : ControlFinder.

Lemma parser_fuel_enough (n : nat) :
  (forall toks, 5 * List.length toks + 1 <= n ->
                Atom finder n toks <> OutOfFuel)
  /\ (forall toks, 5 * List.length toks + 2 <= n ->
                   Unary finder n toks <> OutOfFuel)
  /\ (forall toks, 5 * List.length toks + 3 <= n ->
                   Binary finder n toks <> OutOfFuel)
  /\ (forall e toks, 5 * List.length toks + 1 <= n ->
                     Binary_loop finder n e toks <> OutOfFuel)
  /\ (forall toks, 5 * List.length toks + 5 <= n ->
                   Paren finder n toks <> OutOfFuel)
  /\ (forall toks, 5 * List.length toks + 4 <= n ->
                   Toplevel finder n toks <> OutOfFuel).
Proof.
  induction n as [|n (IA & IU & IB & IL & IP & IT)].
  { repeat split; intros; lia. }
  destruct (parser_sound finder n) as (SA & SU & SB & SL & SP & ST).
  repeat split.
  - intros toks Hn. rewrite Atom_S.
    destruct toks as [|tok toks]; [discriminate|]. cbn [List.length] in Hn.
    destruct (type tok); try discriminate. apply IP. lia.
  - intros toks Hn. rewrite Unary_S.
    destruct toks as [|tok toks]; [discriminate|].
    destruct (IsUnaryExpression (type tok)).
    + cbn [List.length] in Hn.
      destruct (Atom finder n toks) as [r rest| | |] eqn:E;
        try discriminate.
      * cbn. destruct (ParseStatus_eqb (status r) SyntaxError);
          [discriminate|]. destruct (expr r); discriminate.
      * exfalso. revert E. apply IA. lia.
    + apply IA. lia.
  - intros toks Hn. rewrite Binary_S.
    destruct (Unary finder n toks) as [r rest| | |] eqn:E; try discriminate.
    + pose proof (SU _ _ _ E) as Hr.
      destruct Hr as [-> | (e & consumed & -> & Htoks & Hd)];
        [discriminate|].
      cbn. apply IL.
      assert (List.length rest < List.length toks); [|lia].
      apply unary_of_nonempty in Hd. subst toks. rewrite length_app.
      destruct consumed; [congruence | simpl; lia].
    + exfalso. revert E. apply IU. lia.
  - intros e toks Hn. rewrite Binary_loop_S.
    destruct toks as [|tok toks]; [discriminate|]. cbn [List.length] in Hn.
    destruct (IsBinaryToken (type tok)); [|discriminate].
    destruct (Unary finder n toks) as [r rest| | |] eqn:E; try discriminate.
    + pose proof (SU _ _ _ E) as Hr.
      destruct Hr as [-> | (e' & consumed & -> & Htoks & Hd)];
        [discriminate|].
      cbn. apply IL.
      assert (List.length rest < List.length toks); [|lia].
      apply unary_of_nonempty in Hd. subst toks. rewrite length_app.
      destruct consumed; [congruence | simpl; lia].
    + exfalso. revert E. apply IU. lia.
  - intros toks Hn. rewrite Paren_S.
    destruct (Toplevel finder n toks) as [r rest| | |] eqn:E;
      try discriminate.
    + cbn. destruct (negb (ParseStatus_eqb (status r) Successful));
        [discriminate|].
      destruct rest as [|tok rest]; [discriminate|].
      destruct (TokenType_eqb (type tok) TOK_RPAREN); discriminate.
    + exfalso. revert E. apply IT. lia.
  - intros toks Hn. rewrite Toplevel_S. apply IB. lia.
Qed.

Lemma ends_with_EOF_tail (tok : Token) (toks : list Token) :
  ends_with_EOF (tok :: toks) ->
  type tok <> TOK_EOF ->
  ends_with_EOF toks.
Proof.
  intros (body & eof & E & Heof) Hne.
  destruct body as [|b body]; cbn in E.
  - injection E as -> _. contradiction.
  - injection E as _ ->. now exists body, eof.
Qed.

Lemma ends_with_EOF_nonempty (toks : list Token) :
  ends_with_EOF toks -> toks <> [].
Proof. intros (body & eof & -> & _). now destruct body. Qed.

(** On a vector that ends with EOF a method runs out of fuel or returns,
    and where it returns a tree the cursor is still before the EOF. *)
Definition stays_inside (o : Outcome ParseResult) : Prop :=
  match o with
  | Ret result rest => status result = Successful -> ends_with_EOF rest
  | OutOfFuel => True
  | PastEnd | NullChild => False
  end.

Lemma parser_stays_inside (n : nat) :
  (forall toks, ends_with_EOF toks -> stays_inside (Atom finder n toks))
  /\ (forall toks, ends_with_EOF toks -> stays_inside (Unary finder n toks))
  /\ (forall toks, ends_with_EOF toks ->
                   stays_inside (Binary finder n toks))
  /\ (forall e toks, ends_with_EOF toks ->
                     stays_inside (Binary_loop finder n e toks))
  /\ (forall toks, ends_with_EOF toks -> stays_inside (Paren finder n toks))
  /\ (forall toks, ends_with_EOF toks ->
                   stays_inside (Toplevel finder n toks)).
Proof.
  induction n as [|n (IA & IU & IB & IL & IP & IT)].
  { repeat split; intros; exact I. }
  destruct (parser_sound finder n) as (SA & SU & SB & SL & SP & ST).
  repeat split.
  - intros toks He. rewrite Atom_S.
    pose proof (ends_with_EOF_nonempty _ He) as Hne.
    destruct toks as [|tok toks]; [congruence|].
    destruct (type tok) eqn:Ety; try (cbn; discriminate).
    + apply IP. apply (ends_with_EOF_tail _ _ He). congruence.
    + cbn. intros _. apply (ends_with_EOF_tail _ _ He). congruence.
  - intros toks He. rewrite Unary_S.
    pose proof (ends_with_EOF_nonempty _ He) as Hne.
    destruct toks as [|tok toks]; [congruence|].
    destruct (IsUnaryExpression (type tok)) eqn:Htok; [|now apply IA].
    assert (He' : ends_with_EOF toks).
    { apply (ends_with_EOF_tail _ _ He). intros E. now rewrite E in Htok. }
    pose proof (IA _ He') as Hin.
    destruct (Atom finder n toks) as [r rest| | |] eqn:E; try exact Hin.
    apply SA in E as [-> | (e & consumed & -> & _ & _)]; cbn.
    + discriminate.
    + intros _. now apply Hin.
  - intros toks He. rewrite Binary_S.
    pose proof (IU _ He) as Hin.
    destruct (Unary finder n toks) as [r rest| | |] eqn:E; try exact Hin.
    apply SU in E as [-> | (e & consumed & -> & _ & _)]; cbn.
    + discriminate.
    + apply IL. now apply Hin.
  - intros e toks He. rewrite Binary_loop_S.
    pose proof (ends_with_EOF_nonempty _ He) as Hne.
    destruct toks as [|tok toks]; [congruence|].
    destruct (IsBinaryToken (type tok)) eqn:Htok; [|now cbn].
    assert (He' : ends_with_EOF toks).
    { apply (ends_with_EOF_tail _ _ He). intros E. now rewrite E in Htok. }
    pose proof (IU _ He') as Hin.
    destruct (Unary finder n toks) as [r rest| | |] eqn:E; try exact Hin.
    apply SU in E as [-> | (e' & consumed & -> & _ & _)]; cbn.
    + discriminate.
    + apply IL. now apply Hin.
  - intros toks He. rewrite Paren_S.
    pose proof (IT _ He) as Hin.
    destruct (Toplevel finder n toks) as [r rest| | |] eqn:E; try exact Hin.
    apply ST in E as [-> | (e & consumed & -> & _ & _)]; cbn.
    + discriminate.
    + specialize (Hin eq_refl).
      pose proof (ends_with_EOF_nonempty _ Hin) as Hne.
      destruct rest as [|tok rest]; [congruence|].
      destruct (TokenType_eqb (type tok) TOK_RPAREN) eqn:Htok;
        [|cbn; discriminate].
      cbn. intros _. apply (ends_with_EOF_tail _ _ Hin).
      apply TokenType_eqb_eq in Htok. congruence.
  - intros toks He. rewrite Toplevel_S. now apply IB.
Qed.

(** [Parse] returns on every token vector that ends with EOF. *)
Lemma Parse_total (tokens : list Token) :
  ends_with_EOF tokens ->
  exists result rest, Parse finder tokens = Ret result rest.
Proof.
  intros He. unfold Parse.
  destruct (parser_fuel_enough (parser_fuel tokens))
    as (_ & _ & _ & _ & _ & Hfuel).
  destruct (parser_stays_inside (parser_fuel tokens))
    as (_ & _ & _ & _ & _ & Hin).
  specialize (Hfuel tokens). specialize (Hin tokens He).
  destruct (Toplevel finder (parser_fuel tokens) tokens) as [r rest| | |].
  - now exists r, rest.
  - contradiction.
  - contradiction.
  - exfalso. apply Hfuel; [unfold parser_fuel; lia | reflexivity].
Qed.

(** [Parse] is [Toplevel] with any fuel that does not run out. *)
Lemma Parse_Toplevel (n : nat) (tokens : list Token) (result : ParseResult)
      (rest : list Token) :
  Toplevel finder n tokens = Ret result rest ->
  Parse finder tokens = Ret result rest.
Proof.
  intros H. unfold Parse.
  destruct (parser_fuel_enough (parser_fuel tokens))
    as (_ & _ & _ & _ & _ & Hfuel).
  specialize (Hfuel tokens).
  destruct (Toplevel finder (parser_fuel tokens) tokens)
    as [r rest'| | |] eqn:E.
  - destruct (Nat.le_ge_cases n (parser_fuel tokens)) as [Hle | Hle].
    + rewrite <- E. eapply Toplevel_more_fuel; eassumption.
    + apply (Toplevel_more_fuel finder _ _ _ _ _ Hle) in E. congruence.
  - destruct (Nat.le_ge_cases n (parser_fuel tokens)) as [Hle | Hle].
    + apply (Toplevel_more_fuel finder _ _ _ _ _ Hle) in H. congruence.
    + destruct (fuel_mono finder (n - parser_fuel tokens) (parser_fuel tokens))
        as (_ & _ & _ & _ & _ & IT).
      replace (n - parser_fuel tokens + parser_fuel tokens) with n in IT
        by lia.
      destruct (IT tokens); congruence.
  - destruct (Nat.le_ge_cases n (parser_fuel tokens)) as [Hle | Hle].
    + apply (Toplevel_more_fuel finder _ _ _ _ _ Hle) in H. congruence.
    + destruct (fuel_mono finder (n - parser_fuel tokens) (parser_fuel tokens))
        as (_ & _ & _ & _ & _ & IT).
      replace (n - parser_fuel tokens + parser_fuel tokens) with n in IT
        by lia.
      destruct (IT tokens); congruence.
  - exfalso. apply Hfuel; [unfold parser_fuel; lia | reflexivity].
Qed.

End ParserTotal.

(** ** The parser accepts what the grammar derives *)

Section ParserComplete.

Variable finder : ControlFinder.

Lemma Binary_loop_stops (n : nat) (e : Expression) (rest : list Token) :
  stops_at rest ->
  Binary_loop finder (S n) e rest = Ret (Parsed e) rest.
Proof.
  intros (tok & rest' & -> & Htok). rewrite Binary_loop_S. now rewrite Htok.
Qed.

Lemma parser_complete :
  (forall ts e, atom_of finder ts e ->
     forall rest, exists n0, forall n, n0 <= n ->
       Atom finder n (ts ++ rest)%list = Ret (Parsed e) rest)
  /\ (forall ts e, unary_of finder ts e ->
        forall rest, exists n0, forall n, n0 <= n ->
          Unary finder n (ts ++ rest)%list = Ret (Parsed e) rest)
  /\ (forall ts e, binary_of finder ts e ->
        forall rest, exists n0 d, forall n, n0 <= n ->
          Binary finder (d + n) (ts ++ rest)%list
          = Binary_loop finder n e rest).
Proof.
  apply derivation_ind.
  - (* CONTROL *)
    intros tok Htok rest. exists 1. intros n Hn.
    destruct n as [|n]; [lia|]. rewrite Atom_S. cbn [app]. now rewrite Htok.
  - (* LPAREN toplevel RPAREN *)
    intros lp ts e rp Hlp _ IH Hrp rest.
    destruct (IH (rp :: rest)) as (n0 & d & Hb).
    exists (3 + (d + S n0)). intros n Hn.
    replace n with (S (S (S (d + (n - 3 - d))))) by lia.
    rewrite Atom_S. cbn [app]. rewrite Hlp.
    rewrite Paren_S, Toplevel_S, <- app_assoc. cbn [app].
    rewrite Hb by lia.
    replace (n - 3 - d) with (S (n - 4 - d)) by lia.
    rewrite Binary_loop_stops.
    + cbn. now rewrite Hrp.
    + exists rp, rest. now rewrite Hrp.
  - (* NOT atom *)
    intros tok ts e Htok _ IH rest.
    destruct (IH rest) as (n0 & Ha).
    exists (S n0). intros n Hn. destruct n as [|n]; [lia|].
    rewrite Unary_S. cbn [app]. rewrite Htok. cbn [IsUnaryExpression].
    now rewrite Ha by lia.
  - (* atom *)
    intros ts e Hd IH rest.
    destruct (IH rest) as (n0 & Ha).
    exists (S n0). intros n Hn. destruct n as [|n]; [lia|].
    rewrite Unary_S.
    destruct Hd as [tok Htok | lp ts e rp Hlp _ _]; cbn [app].
    + rewrite Htok. cbn [IsUnaryExpression]. apply (Ha n). lia.
    + rewrite Hlp. cbn [IsUnaryExpression]. apply (Ha n). lia.
  - (* unary *)
    intros ts e _ IH rest.
    destruct (IH rest) as (n0 & Hu).
    exists n0, 1. intros n Hn. cbn [Nat.add].
    rewrite Binary_S. now rewrite Hu by lia.
  - (* binary (AND|OR|ADD) unary *)
    intros ts1 e1 tok ts2 e2 _ IH1 Htok _ IH2 rest.
    destruct (IH1 (tok :: ts2 ++ rest)%list) as (n1 & d & Hb).
    destruct (IH2 rest) as (n2 & Hu).
    exists (n1 + n2), (S d). intros n Hn.
    rewrite <- app_assoc. cbn [app].
    replace (S d + n) with (d + S n) by lia.
    rewrite Hb by lia.
    rewrite Binary_loop_S, Htok. now rewrite Hu by lia.
Qed.

(** [Parse] returns a tree exactly for a token vector that starts with a
    derivation of the grammar followed by a token that is no binary
    operator; the tokens after the derivation are left unread. *)
Lemma Parse_derives (tokens : list Token) (e : Expression)
      (rest : list Token) :
  Parse finder tokens = Ret (Parsed e) rest <->
  exists consumed,
    tokens = (consumed ++ rest)%list
    /\ binary_of finder consumed e /\ stops_at rest.
Proof.
  split.
  - unfold Parse. intros H.
    destruct (parser_sound finder (parser_fuel tokens))
      as (_ & _ & _ & _ & _ & ST).
    apply ST in H as [H | (e' & consumed & [= <-] & -> & Hd & Hs)];
      [discriminate|].
    now exists consumed.
  - intros (consumed & -> & Hd & Hs).
    destruct parser_complete as (_ & _ & Hb).
    destruct (Hb _ _ Hd rest) as (n0 & d & Hn).
    apply (Parse_Toplevel finder (S (d + S n0))).
    rewrite Toplevel_S, Hn by lia. now apply Binary_loop_stops.
Qed.

End ParserComplete.

(** ** The lexer returns *)

Lemma Fetch_shorter (d : ascii) (it : string) :
  String.length (snd (FetchBacktickString it d)) <= String.length it.
Proof.
  induction it as [|c it IH]; simpl; [lia|].
  destruct (Ascii.eqb c "`"); [simpl; lia|].
  destruct ((0 <? char_value c)%Z && Ascii.eqb c d); [simpl; lia|].
  destruct (FetchBacktickString it d) as [[found value] rest].
  simpl in *. lia.
Qed.

Lemma GetBarewordsControl_loop_shorter (it : string) :
  String.length (snd (GetBarewordsControl_loop it)) <= String.length it.
Proof.
  induction it as [|c it IH]; simpl; [lia|].
  destruct (isalpha c); simpl; [|lia].
  destruct (GetBarewordsControl_loop it) as [name rest]. simpl in *. lia.
Qed.

(** Every token but EOF consumes at least one character. *)
Lemma NextToken_shorter (c : ascii) (it : string) :
  String.length (snd (NextToken (String c it))) <= String.length it
  /\ type (fst (NextToken (String c it))) <> TOK_EOF.
Proof.
  unfold NextToken. fold (is_space c).
  destruct (is_space c); [simpl; split; [lia | discriminate]|].
  destruct (Ascii.eqb c "("); [simpl; split; [lia | discriminate]|].
  destruct (Ascii.eqb c ")"); [simpl; split; [lia | discriminate]|].
  destruct (Ascii.eqb c "&"); [simpl; split; [lia | discriminate]|].
  destruct (Ascii.eqb c "|"); [simpl; split; [lia | discriminate]|].
  destruct (Ascii.eqb c "!"); [simpl; split; [lia | discriminate]|].
  destruct (Ascii.eqb c "+"); [simpl; split; [lia | discriminate]|].
  destruct (Ascii.eqb c "`").
  - unfold GetFullyQualifiedControl.
    pose proof (Fetch_shorter ":" it) as H1.
    destruct (FetchBacktickString it ":") as [[found value] it1].
    destruct found; [|simpl in *; split; [lia | discriminate]].
    pose proof (Fetch_shorter NUL it1) as H2.
    destruct (FetchBacktickString it1 NUL) as [[found2 value2] it2].
    simpl in *. split; [lia | discriminate].
  - destruct (isalpha c); [|simpl; split; [lia | discriminate]].
    unfold GetBarewordsControl.
    pose proof (GetBarewordsControl_loop_shorter it) as H.
    destruct (GetBarewordsControl_loop it) as [name rest].
    simpl in *. split; [lia | discriminate].
Qed.

(** What [Tokenize] leaves in [tokens]: nothing with a syntax error, and
    otherwise tokens that end with the EOF token. *)
Definition tokenized (st : ParseStatus) (tokens : list Token) : Prop :=
  (st = SyntaxError /\ tokens = [])
  \/ (st = Successful /\ ends_with_EOF tokens).

Lemma Tokenize_loop_total (fuel : nat) :
  forall it tokens,
    String.length it < fuel ->
    exists st tokens',
      Tokenize_loop fuel it tokens = Some (st, tokens')
      /\ tokenized st tokens'.
Proof.
  induction fuel as [|fuel IH]; intros it tokens Hlen; [lia|].
  cbn [Tokenize_loop].
  destruct it as [|c it].
  - cbn. exists Successful, (tokens ++ [Token_of TOK_EOF])%list.
    split; [reflexivity|]. right. split; [reflexivity|].
    now exists tokens, (Token_of TOK_EOF).
  - destruct (NextToken_shorter c it) as [Hshort Hne].
    destruct (NextToken (String c it)) as [tok it'].
    cbn [fst snd] in *. cbn [String.length] in Hlen.
    destruct (type tok); try (apply IH; lia).
    + exists SyntaxError, []. split; [reflexivity|]. now left.
    + congruence.
Qed.

Lemma Tokenize_total (expr : string) :
  exists st tokens,
    Tokenize expr = Some (st, tokens) /\ tokenized st tokens.
Proof. apply Tokenize_loop_total. lia. Qed.

(** [ParseExpressionInner] and [ParseExpression] return on every text. *)
Lemma ParseExpressionInner_total (str : string) (finder : ControlFinder) :
  exists result, ParseExpressionInner str finder = Some result.
Proof.
  unfold ParseExpressionInner.
  destruct (empty (StripSpaces str)); [eauto|].
  destruct (Tokenize_total str) as (st & tokens & -> & Ht).
  destruct Ht as [[-> ->] | [-> He]]; cbn [negb ParseStatus_eqb]; [eauto|].
  destruct (Parse_total finder tokens He) as (result & rest & ->). eauto.
Qed.

Lemma ParseExpression_total (str : string) (finder : ControlFinder) :
  exists st tree, ParseExpression str finder = Some (st, tree).
Proof.
  unfold ParseExpression.
  destruct (FindControl finder (whole_text_qualifier str)); [eauto|].
  destruct (ParseExpressionInner_total str finder) as (result & ->). eauto.
Qed.

(** ** Blank texts *)

Lemma strip_left_keeps (pre : string) (c : ascii) (post : string) :
  is_space c = false ->
  exists x s, strip_left (pre ++ String c post) = String x s
              /\ is_space x = false.
Proof.
  intros Hc. induction pre as [|y pre IH]; cbn [append strip_left].
  - rewrite Hc. eauto.
  - destruct (is_space y) eqn:Hy; [exact IH | eauto].
Qed.

Lemma strip_right_keeps (x : ascii) (s : string) :
  is_space x = false -> empty (strip_right (String x s)) = false.
Proof.
  intros Hx. cbn [strip_right].
  destruct (strip_right s); [now rewrite Hx | reflexivity].
Qed.

(** A text with a character that is no whitespace is not blank. *)
Lemma StripSpaces_keeps (pre : string) (c : ascii) (post : string) :
  is_space c = false ->
  empty (StripSpaces (pre ++ String c post)) = false.
Proof.
  intros Hc. unfold StripSpaces.
  destruct (strip_left_keeps pre c post Hc) as (x & s & -> & Hx).
  now apply strip_right_keeps.
Qed.

(** ** Claims about the lexer and the entry point *)

(** C8, as amended. A character that is no operator, parenthesis,
    whitespace, backtick or letter, outside every backtick-quoted region:
    the lexer reports INVALID at it, tokenization aborts with SyntaxError
    and an emptied token vector, and the lexer-and-parser path returns
    SyntaxError without a tree; so does [ParseExpression], unless the
    whole text is the name of a control of the default device (the legacy
    fast path, which never runs the lexer). *)
Theorem invalid_character_aborts (pre : string) (c : ascii) (post : string)
        (finder : ControlFinder) :
  lexable c = false ->
  quoted false pre = false ->
  NextToken (String c post) = (Token_of TOK_INVALID, post)
  /\ Tokenize (pre ++ String c post) = Some (SyntaxError, [])
  /\ ParseExpressionInner (pre ++ String c post) finder
     = Some (Failed SyntaxError)
  /\ (FindControl finder (whole_text_qualifier (pre ++ String c post)) = None
      -> ParseExpression (pre ++ String c post) finder
         = Some (SyntaxError, None)).
Proof.
  intros Hc Hq.
  assert (Htok : Tokenize (pre ++ String c post) = Some (SyntaxError, [])).
  { apply Tokenize_loop_invalid; [assumption | | assumption].
    rewrite length_append. cbn. lia. }
  assert (Hinner : ParseExpressionInner (pre ++ String c post) finder
                   = Some (Failed SyntaxError)).
  { unfold ParseExpressionInner.
    rewrite StripSpaces_keeps by (now apply not_lexable in Hc).
    now rewrite Htok. }
  split; [now apply NextToken_invalid|].
  split; [assumption|]. split; [assumption|].
  intros Hfind. unfold ParseExpression. now rewrite Hfind, Hinner.
Qed.

(** C3, as amended. [ParseExpression] first takes the entire text, as it
    is given (not trimmed), for the name of a control of the finder's
    default device; when the finder has such a control the result is
    Successful with that single control reference, whatever the lexer and
    the parser would make of the text. *)
Theorem legacy_fast_path (str : string) (finder : ControlFinder)
        (c : Control) :
  FindControl finder (whole_text_qualifier str) = Some c ->
  FindDevice finder (whole_text_qualifier str)
  = container_FindDevice (container finder) (default_device finder)
  /\ ParseExpression str finder
     = Some (Successful,
             Some (ControlExpression (whole_text_qualifier str)
                     (FindDevice finder (whole_text_qualifier str))
                     (Some c))).
Proof.
  intros H. split; [reflexivity|].
  unfold ParseExpression. now rewrite H.
Qed.

(** ** Trees of the grammar *)

Section Trees.

Variable finder : ControlFinder.

Lemma count_resolved_app (ts1 ts2 : list Token) :
  count_resolved finder (ts1 ++ ts2)
  = (count_resolved finder ts1 + count_resolved finder ts2)%Z.
Proof.
  unfold count_resolved. rewrite filter_app, length_app. lia.
Qed.

Lemma count_resolved_cons (tok : Token) (ts : list Token) :
  is_control tok = false ->
  count_resolved finder (tok :: ts) = count_resolved finder ts.
Proof. intros H. unfold count_resolved. cbn [filter]. now rewrite H. Qed.

Lemma count_resolved_le (ts : list Token) :
  (count_resolved finder ts <= count_controls ts)%Z.
Proof.
  unfold count_resolved, count_controls.
  induction ts as [|tok ts IH]; cbn [filter]; [lia|].
  destruct (is_control tok); cbn [andb]; [|exact IH].
  destruct (resolves finder tok); cbn [List.length]; lia.
Qed.

Lemma count_controls_app (ts1 ts2 : list Token) :
  count_controls (ts1 ++ ts2)
  = (count_controls ts1 + count_controls ts2)%Z.
Proof. unfold count_controls. rewrite filter_app, length_app. lia. Qed.

Lemma count_controls_nonneg (ts : list Token) : (0 <= count_controls ts)%Z.
Proof. unfold count_controls. lia. Qed.

(** The tree of a derivation counts the control tokens that resolve, has
    the qualifiers of the control tokens at its leaves, and passes the
    assertions. *)
Lemma derivation_tree :
  (forall ts e, atom_of finder ts e ->
     CountNumControls e = count_resolved finder ts
     /\ leaves e = map qualifier (filter is_control ts)
     /\ well_formed e = true)
  /\ (forall ts e, unary_of finder ts e ->
        CountNumControls e = count_resolved finder ts
        /\ leaves e = map qualifier (filter is_control ts)
        /\ well_formed e = true)
  /\ (forall ts e, binary_of finder ts e ->
        CountNumControls e = count_resolved finder ts
        /\ leaves e = map qualifier (filter is_control ts)
        /\ well_formed e = true).
Proof.
  apply derivation_ind.
  - intros tok Htok.
    assert (Hc : is_control tok = true)
      by (unfold is_control; now rewrite Htok).
    unfold count_resolved, resolves. cbn [filter CountNumControls leaves].
    rewrite Hc. cbn [andb map].
    repeat split.
    destruct (FindControl finder (qualifier tok)); reflexivity.
  - intros lp ts e rp Hlp _ (IH1 & IH2 & IH3) Hrp.
    assert (Hl : is_control lp = false)
      by (unfold is_control; now rewrite Hlp).
    assert (Hr : is_control rp = false)
      by (unfold is_control; now rewrite Hrp).
    rewrite count_resolved_cons, count_resolved_app by assumption.
    rewrite (count_resolved_cons rp []) by assumption.
    cbn [filter]. rewrite Hl, filter_app. cbn [filter]. rewrite Hr, app_nil_r.
    repeat split; try assumption. rewrite IH1. unfold count_resolved. cbn. lia.
  - intros tok ts e Htok _ (IH1 & IH2 & IH3).
    assert (Hc : is_control tok = false)
      by (unfold is_control; now rewrite Htok).
    rewrite count_resolved_cons by assumption.
    cbn [filter CountNumControls leaves well_formed]. rewrite Hc, Htok.
    now repeat split.
  - intros ts e _ IH. exact IH.
  - intros ts e _ IH. exact IH.
  - intros ts1 e1 tok ts2 e2 _ (IH1 & IH2 & IH3) Htok _ (IH4 & IH5 & IH6).
    assert (Hc : is_control tok = false).
    { unfold is_control. destruct (type tok); try discriminate; reflexivity. }
    rewrite count_resolved_app, count_resolved_cons by assumption.
    rewrite filter_app. cbn [filter CountNumControls leaves well_formed].
    rewrite Hc, map_app, Htok, IH1, IH2, IH3, IH4, IH5, IH6.
    now repeat split.
Qed.

(** Evaluation of a tree that passes the assertions does not fail. *)
Lemma well_formed_GetValue (state : Control -> ControlState)
      (e : Expression) :
  well_formed e = true -> exists v, GetValue state e = Some v.
Proof.
  induction e as [q d c | op l IHl r IHr | op i IHi]; cbn; intros H.
  - destruct c; eauto.
  - apply andb_true_iff in H as [H Hr]. apply andb_true_iff in H as [Hop Hl].
    destruct (IHl Hl) as (vl & ->), (IHr Hr) as (vr & ->).
    destruct op; try discriminate; eauto.
  - apply andb_true_iff in H as [Hop Hi].
    destruct (IHi Hi) as (v & ->).
    destruct op; try discriminate; eauto.
Qed.

Lemma well_formed_SetValue (e : Expression) :
  well_formed e = true ->
  forall v, exists writes, SetValue e v = Some writes.
Proof.
  induction e as [q d c | op l IHl r IHr | op i IHi]; cbn; intros H v.
  - destruct c; eauto.
  - apply andb_true_iff in H as [H Hr]. apply andb_true_iff in H as [Hop Hl].
    destruct (IHl Hl v) as (wl & ->), (IHr Hr v) as (wr & ->). eauto.
  - apply andb_true_iff in H as [Hop Hi].
    destruct op; try discriminate. apply (IHi Hi).
Qed.

End Trees.

(** The status and the cursor of a run do not depend on what the finder
    resolves. *)
Definition same_run (o1 o2 : Outcome ParseResult) : Prop :=
  match o1, o2 with
  | Ret r1 rest1, Ret r2 rest2 =>
      status r1 = status r2 /\ rest1 = rest2
      /\ (expr r1 = None <-> expr r2 = None)
  | PastEnd, PastEnd | NullChild, NullChild | OutOfFuel, OutOfFuel => True
  | _, _ => False
  end.

Lemma parser_same_run (finder1 finder2 : ControlFinder) (n : nat) :
  (forall toks, same_run (Atom finder1 n toks) (Atom finder2 n toks))
  /\ (forall toks, same_run (Unary finder1 n toks) (Unary finder2 n toks))
  /\ (forall toks, same_run (Binary finder1 n toks) (Binary finder2 n toks))
  /\ (forall e1 e2 toks,
         same_run (Binary_loop finder1 n e1 toks)
                  (Binary_loop finder2 n e2 toks))
  /\ (forall toks, same_run (Paren finder1 n toks) (Paren finder2 n toks))
  /\ (forall toks,
         same_run (Toplevel finder1 n toks) (Toplevel finder2 n toks)).
Proof.
  induction n as [|n (IA & IU & IB & IL & IP & IT)].
  { repeat split; intros; exact I. }
  repeat split.
  - intros toks. rewrite !Atom_S.
    destruct toks as [|tok toks]; [exact I|].
    destruct (type tok); try apply IP; cbn; repeat split; auto; discriminate.
  - intros toks. rewrite !Unary_S.
    destruct toks as [|tok toks]; [exact I|].
    destruct (IsUnaryExpression (type tok)); [|apply IA].
    specialize (IA toks).
    destruct (Atom finder1 n toks) as [r1 rest1| | |],
             (Atom finder2 n toks) as [r2 rest2| | |];
      try (exfalso; exact IA); try exact I.
    destruct IA as (Hs & <- & He). cbn. rewrite <- Hs.
    destruct (ParseStatus_eqb (status r1) SyntaxError);
      [cbn; auto|].
    destruct (expr r1), (expr r2); cbn; try (repeat split; discriminate).
    + destruct He as [_ He]. specialize (He eq_refl). discriminate.
    + destruct He as [He _]. specialize (He eq_refl). discriminate.
  - intros toks. rewrite !Binary_S.
    specialize (IU toks).
    destruct (Unary finder1 n toks) as [r1 rest1| | |],
             (Unary finder2 n toks) as [r2 rest2| | |];
      try (exfalso; exact IU); try exact I.
    destruct IU as (Hs & <- & He). cbn. rewrite <- Hs.
    destruct (ParseStatus_eqb (status r1) SyntaxError);
      [cbn; auto|].
    destruct (expr r1), (expr r2); cbn.
    + apply IL.
    + destruct He as [_ He]. specialize (He eq_refl). discriminate.
    + destruct He as [He _]. specialize (He eq_refl). discriminate.
    + exact I.
  - intros e1 e2 toks. rewrite !Binary_loop_S.
    destruct toks as [|tok toks]; [exact I|].
    destruct (IsBinaryToken (type tok));
      [|cbn; repeat split; discriminate].
    specialize (IU toks).
    destruct (Unary finder1 n toks) as [r1 rest1| | |],
             (Unary finder2 n toks) as [r2 rest2| | |];
      try (exfalso; exact IU); try exact I.
    destruct IU as (Hs & <- & He). cbn. rewrite <- Hs.
    destruct (ParseStatus_eqb (status r1) SyntaxError);
      [cbn; auto|].
    destruct (expr r1), (expr r2); cbn.
    + apply IL.
    + destruct He as [_ He]. specialize (He eq_refl). discriminate.
    + destruct He as [He _]. specialize (He eq_refl). discriminate.
    + exact I.
  - intros toks. rewrite !Paren_S.
    specialize (IT toks).
    destruct (Toplevel finder1 n toks) as [r1 rest1| | |],
             (Toplevel finder2 n toks) as [r2 rest2| | |];
      try (exfalso; exact IT); try exact I.
    destruct IT as (Hs & <- & He). cbn. rewrite <- Hs.
    destruct (negb (ParseStatus_eqb (status r1) Successful));
      [cbn; auto|].
    destruct rest1 as [|tok rest1]; [exact I|].
    destruct (TokenType_eqb (type tok) TOK_RPAREN); cbn; auto.
    repeat split; discriminate.
  - intros toks. rewrite !Toplevel_S. apply IB.
Qed.

(** ** Claims about the parser and the trees *)

(** The lexer-and-parser path, when it returns a tree: the text was
    tokenized, and the tree is the derivation of the tokens before the
    cursor. *)
Lemma ParseExpressionInner_tree (str : string) (finder : ControlFinder)
      (result : ParseResult) (e : Expression) :
  ParseExpressionInner str finder = Some result ->
  status result = Successful ->
  expr result = Some e ->
  exists tokens consumed rest,
    Tokenize str = Some (Successful, tokens)
    /\ ends_with_EOF tokens
    /\ tokens = (consumed ++ rest)%list
    /\ binary_of finder consumed e
    /\ stops_at rest.
Proof.
  unfold ParseExpressionInner. intros H Hs He.
  destruct (empty (StripSpaces str)).
  { injection H as <-. discriminate. }
  destruct (Tokenize_total str) as (st & tokens & Ht & Htok).
  rewrite Ht in H.
  destruct Htok as [[-> ->] | [-> Hend]]; cbn [negb ParseStatus_eqb] in H.
  { injection H as <-. discriminate. }
  destruct (Parse finder tokens) as [r rest| | |] eqn:E; try discriminate.
  injection H as ->.
  destruct result as [st tree]. cbn in Hs, He. subst st tree.
  apply Parse_derives in E as (consumed & -> & Hd & Hstop).
  now exists (consumed ++ rest)%list, consumed, rest.
Qed.

(** C2, as amended. The count of a parsed tree is the number of the
    control-reference tokens, among those the parser consumed, that the
    finder resolved to a control: an unresolved reference counts for
    nothing. The tokens consumed are those before the cursor that [Parse]
    returns on the tokens of the text, so the count is fixed by the text
    and the finder. It is therefore at most the number of
    control-reference tokens of the source. (A text taken by the legacy
    fast path is one resolved reference and counts 1.) *)
Theorem CountNumControls_counts_resolved (str : string)
        (finder : ControlFinder) (e : Expression) :
  ParseExpression str finder = Some (Successful, Some e) ->
  (exists c,
      FindControl finder (whole_text_qualifier str) = Some c
      /\ e = ControlExpression (whole_text_qualifier str)
               (FindDevice finder (whole_text_qualifier str)) (Some c)
      /\ CountNumControls e = 1%Z)
  \/ (FindControl finder (whole_text_qualifier str) = None
      /\ exists tokens consumed rest,
           Tokenize str = Some (Successful, tokens)
           /\ Parse finder tokens = Ret (Parsed e) rest
           /\ tokens = (consumed ++ rest)%list
           /\ (forall consumed',
                  tokens = (consumed' ++ rest)%list -> consumed' = consumed)
           /\ CountNumControls e = count_resolved finder consumed
           /\ (CountNumControls e <= count_controls tokens)%Z).
Proof.
  unfold ParseExpression. intros H.
  destruct (FindControl finder (whole_text_qualifier str)) as [c|] eqn:Hc.
  - left. injection H as <-. exists c. now repeat split.
  - right. split; [reflexivity|].
    destruct (ParseExpressionInner str finder) as [result|] eqn:E;
      [|discriminate].
    injection H as Hs He.
    destruct (ParseExpressionInner_tree str finder result e E Hs He)
      as (tokens & consumed & rest & Ht & _ & -> & Hd & Hstop).
    exists (consumed ++ rest)%list, consumed, rest.
    destruct (derivation_tree finder) as (_ & _ & Hb).
    destruct (Hb _ _ Hd) as (Hcount & _ & _).
    split; [assumption|].
    split; [apply Parse_derives; now exists consumed|].
    split; [reflexivity|].
    split; [intros consumed' Heq; symmetry; exact (app_inv_tail _ _ _ Heq)|].
    split; [assumption|].
    rewrite Hcount, count_controls_app.
    pose proof (count_resolved_le finder consumed).
    pose proof (count_controls_nonneg rest). lia.
Qed.

(** A tree comes with the status Successful, and passes the assertions. *)
Lemma ParseExpression_well_formed (str : string) (finder : ControlFinder)
      (st : ParseStatus) (e : Expression) :
  ParseExpression str finder = Some (st, Some e) ->
  st = Successful /\ well_formed e = true.
Proof.
  unfold ParseExpression. intros H.
  destruct (FindControl finder (whole_text_qualifier str)) as [c|].
  { injection H as <- <-. now split. }
  destruct (ParseExpressionInner str finder) as [result|] eqn:E;
    [|discriminate].
  injection H as Hs He.
  assert (Hst : status result = Successful).
  { revert E. unfold ParseExpressionInner.
    destruct (empty (StripSpaces str)).
    { intros [= <-]. discriminate. }
    destruct (Tokenize str) as [[tst tokens]|]; [|discriminate].
    destruct (negb (ParseStatus_eqb tst Successful)).
    { intros [= <-]. discriminate. }
    unfold Parse.
    destruct (Toplevel finder (parser_fuel tokens) tokens)
      as [r rest| | |] eqn:ET; try discriminate.
    intros [= ->].
    destruct (parser_sound finder (parser_fuel tokens))
      as (_ & _ & _ & _ & _ & ST).
    apply ST in ET as [-> | (e' & consumed & -> & _)];
      [discriminate | reflexivity]. }
  split; [congruence|].
  destruct (ParseExpressionInner_tree str finder result e E Hst He)
    as (tokens & consumed & rest & _ & _ & _ & Hd & _).
  destruct (derivation_tree finder) as (_ & _ & Hb).
  now destruct (Hb _ _ Hd) as (_ & _ & Hwf).
Qed.

(** C5. A control reference whose control is absent reads 0.0 and
    ignores writes; the trees that the parser and the entry point build
    evaluate without a failure, for reads and for writes; a control token
    that the finder does not resolve is parsed to a reference without a
    control, with status Successful; and the status of a parse does not
    depend on what the finder resolves. *)
Theorem unresolved_reference_is_neutral :
  (forall state q d, GetValue state (ControlExpression q d None) = Some zero)
  /\ (forall q d v, SetValue (ControlExpression q d None) v = Some [])
  /\ (forall finder tokens e rest,
         Parse finder tokens = Ret (Parsed e) rest ->
         (forall state, exists v, GetValue state e = Some v)
         /\ (forall v, exists writes, SetValue e v = Some writes))
  /\ (forall str finder st e,
         ParseExpression str finder = Some (st, Some e) ->
         (forall state, exists v, GetValue state e = Some v)
         /\ (forall v, exists writes, SetValue e v = Some writes))
  /\ (forall finder tok rest,
         type tok = TOK_CONTROL ->
         FindControl finder (qualifier tok) = None ->
         stops_at rest ->
         Parse finder (tok :: rest)
         = Ret (Parsed (ControlExpression (qualifier tok)
                          (FindDevice finder (qualifier tok)) None)) rest)
  /\ (forall finder1 finder2 tokens,
         status_of (Parse finder1 tokens) = status_of (Parse finder2 tokens)).
Proof.
  split; [reflexivity|]. split; [reflexivity|].
  split; [|split; [|split]].
  - intros finder tokens e rest H.
    apply Parse_derives in H as (consumed & _ & Hd & _).
    destruct (derivation_tree finder) as (_ & _ & Hb).
    destruct (Hb _ _ Hd) as (_ & _ & Hwf).
    split; [intros state; now apply well_formed_GetValue|].
    now apply well_formed_SetValue.
  - intros str finder st e H.
    apply ParseExpression_well_formed in H as [_ Hwf].
    split; [intros state; now apply well_formed_GetValue|].
    now apply well_formed_SetValue.
  - intros finder tok rest Htok Hnone Hstop.
    apply Parse_derives. exists [tok]. split; [reflexivity|].
    split; [|assumption]. rewrite <- Hnone.
    apply binary_first, unary_atom. now apply atom_control.
  - intros finder1 finder2 tokens. unfold Parse.
    destruct (parser_same_run finder1 finder2 (parser_fuel tokens))
      as (_ & _ & _ & _ & _ & HT).
    specialize (HT tokens).
    destruct (Toplevel finder1 (parser_fuel tokens) tokens),
             (Toplevel finder2 (parser_fuel tokens) tokens);
      cbn in *; try contradiction; try reflexivity.
    destruct HT as (-> & _). reflexivity.
Qed.

(** The operands of a chain of binary operators: the operator token, the
    tokens of the operand and the tree of the operand. *)
Definition operand_tokens (operand : Token * list Token * Expression)
  : list Token :=
  let '(tok, ts, _) := operand in tok :: ts.

Definition apply_operand (lhs : Expression)
    (operand : Token * list Token * Expression) : Expression :=
  let '(tok, _, rhs) := operand in BinaryExpression (type tok) lhs rhs.

Lemma binary_of_chain (finder : ControlFinder)
      (operands : list (Token * list Token * Expression)) :
  Forall (fun operand =>
            IsBinaryToken (type (fst (fst operand))) = true
            /\ unary_of finder (snd (fst operand)) (snd operand)) operands ->
  forall ts0 e0,
    binary_of finder ts0 e0 ->
    binary_of finder (ts0 ++ flat_map operand_tokens operands)
      (fold_left apply_operand operands e0).
Proof.
  induction 1 as [|[[tok ts] rhs] operands [Hop Hu] _ IH];
    intros ts0 e0 H0; cbn [flat_map fold_left].
  - now rewrite app_nil_r.
  - cbn [operand_tokens apply_operand fst snd] in *.
    change (ts0 ++ (tok :: ts) ++ flat_map operand_tokens operands)%list
      with (ts0 ++ tok :: ts ++ flat_map operand_tokens operands)%list.
    replace (ts0 ++ tok :: ts ++ flat_map operand_tokens operands)%list
      with ((ts0 ++ tok :: ts) ++ flat_map operand_tokens operands)%list
      by (now rewrite <- app_assoc).
    apply IH. now apply binary_more.
Qed.

(** C6. The binary operators share one tier and associate to the left:
    a first operand followed by any number of (operator, operand) pairs,
    whatever the operators, is parsed to the tree that applies them from
    left to right. And NOT takes the one atom that follows it: where
    [Unary] returns a tree for tokens that start with NOT, the child of
    the NOT node is the tree of an atom (a control token, or a group in
    parentheses) made of the tokens consumed after the NOT. *)
Theorem binary_left_associative (finder : ControlFinder) :
  (forall ts0 e0 operands rest,
      unary_of finder ts0 e0 ->
      Forall (fun operand =>
                IsBinaryToken (type (fst (fst operand))) = true
                /\ unary_of finder (snd (fst operand)) (snd operand))
        operands ->
      stops_at rest ->
      Parse finder (ts0 ++ flat_map operand_tokens operands ++ rest)
      = Ret (Parsed (fold_left apply_operand operands e0)) rest)
  /\ (forall n tok toks result rest,
         type tok = TOK_NOT ->
         Unary finder n (tok :: toks) = Ret result rest ->
         status result = Successful ->
         exists a consumed,
           expr result = Some (UnaryExpression TOK_NOT a)
           /\ toks = (consumed ++ rest)%list
           /\ atom_of finder consumed a).
Proof.
  split.
  - intros ts0 e0 operands rest H0 Hops Hstop.
    apply Parse_derives.
    exists (ts0 ++ flat_map operand_tokens operands)%list.
    split; [now rewrite app_assoc|]. split; [|assumption].
    apply binary_of_chain; [assumption | now apply binary_first].
  - intros n tok toks result rest Htok H Hs.
    destruct n as [|n]; [discriminate|].
    rewrite Unary_S, Htok in H. cbn [IsUnaryExpression] in H.
    destruct (Atom finder n toks) as [r rest'| | |] eqn:E; try discriminate.
    destruct (parser_sound finder n) as (SA & _).
    apply SA in E as [-> | (a & consumed & -> & -> & Hd)]; cbn in H.
    + injection H as <- <-. discriminate.
    + injection H as <- <-. now exists a, consumed.
Qed.

(** C10, as amended. The parser does not check that it consumed its
    input. When the tokens [prefix] form a complete top-level expression
    (followed by EOF alone they are parsed to a tree with the cursor on
    the EOF), then [prefix] followed by any tokens that do not start with
    a binary operator is parsed, with status Successful, to the same tree,
    and the tokens that follow are left unread; the lexer-and-parser path
    returns that result, whatever follows. *)
Theorem trailing_tokens_ignored (finder : ControlFinder)
        (prefix : list Token) (eof : Token) (e : Expression)
        (rest : list Token) :
  type eof = TOK_EOF ->
  Parse finder (prefix ++ [eof]) = Ret (Parsed e) [eof] ->
  stops_at rest ->
  Parse finder (prefix ++ rest) = Ret (Parsed e) rest
  /\ (forall str,
         empty (StripSpaces str) = false ->
         Tokenize str = Some (Successful, (prefix ++ rest)%list) ->
         ParseExpressionInner str finder = Some (Parsed e)).
Proof.
  intros Heof H Hstop.
  apply Parse_derives in H as (consumed & Heq & Hd & _).
  apply app_inj_tail in Heq as [-> _].
  assert (Hp : Parse finder (consumed ++ rest) = Ret (Parsed e) rest).
  { apply Parse_derives. now exists consumed. }
  split; [assumption|].
  intros str Hne Ht. unfold ParseExpressionInner.
  now rewrite Hne, Ht, Hp.
Qed.

(** ** Writes *)

Lemma SetValue_unary_free (e : Expression) (v : ControlState) :
  unary_free e = true ->
  SetValue e v = Some (map (fun c => (c, v)) (resolved_controls e)).
Proof.
  induction e as [q d c | op l IHl r IHr | op i IHi]; cbn; intros H.
  - now destruct c.
  - apply andb_true_iff in H as [Hl Hr].
    now rewrite IHl, IHr, map_app by assumption.
  - discriminate.
Qed.

(** C4. [SetValue(v)] on a binary node, whatever its operator, is
    [SetValue(v)] on the left child and then on the right child, with the
    value unchanged; on a NOT node it is [SetValue(1.0 - v)] on the child.
    Hence a tree of binary nodes alone writes [v] itself to every control
    of its resolved leaves, from left to right. *)
Theorem SetValue_fans_out :
  (forall op lhs rhs v,
      SetValue (BinaryExpression op lhs rhs) v
      = match SetValue lhs v, SetValue rhs v with
        | Some w1, Some w2 => Some (w1 ++ w2)%list
        | _, _ => None
        end)
  /\ (forall inner v,
         SetValue (UnaryExpression TOK_NOT inner) v
         = SetValue inner (sub one v))
  /\ (forall e v,
         unary_free e = true ->
         SetValue e v = Some (map (fun c => (c, v)) (resolved_controls e))).
Proof.
  split; [|split].
  - intros op lhs rhs v. cbn [SetValue].
    destruct (SetValue lhs v); [reflexivity|].
    now destruct (SetValue rhs v).
  - reflexivity.
  - apply SetValue_unary_free.
Qed.

(** ** Rendering and parsing again *)

Lemma isalpha_not_colon (c : ascii) :
  isalpha c = true -> Ascii.eqb c ":" = false.
Proof.
  intros H. destruct (Ascii.eqb_spec c ":") as [->|_];
    [discriminate H | reflexivity].
Qed.

(** The fetched value has no backtick and no delimiter. *)
Lemma Fetch_value (d : ascii) (it : string) :
  contains "`" (snd (fst (FetchBacktickString it d))) = false
  /\ ((0 <? char_value d)%Z = true ->
      contains d (snd (fst (FetchBacktickString it d))) = false).
Proof.
  induction it as [|c it [IH1 IH2]]; cbn [FetchBacktickString].
  - now split.
  - destruct (Ascii.eqb c "`") eqn:Hb; [now split|].
    destruct ((0 <? char_value c)%Z && Ascii.eqb c d) eqn:Hd; [now split|].
    destruct (FetchBacktickString it d) as [[found value] rest].
    cbn [fst snd contains] in *. rewrite Hb. split; [exact IH1|].
    intros Hpos. rewrite (IH2 Hpos), orb_false_r.
    destruct (Ascii.eqb_spec c d) as [->|_]; [|reflexivity].
    now rewrite Hpos in Hd.
Qed.

Lemma GetBarewordsControl_loop_name (it : string) :
  contains "`" (fst (GetBarewordsControl_loop it)) = false
  /\ contains ":" (fst (GetBarewordsControl_loop it)) = false.
Proof.
  induction it as [|c it [IH1 IH2]]; cbn [GetBarewordsControl_loop].
  - now split.
  - destruct (isalpha c) eqn:Hc; cbn [negb]; [|now split].
    destruct (GetBarewordsControl_loop it) as [name rest].
    cbn [fst contains] in *.
    now rewrite (isalpha_not_backtick c Hc), (isalpha_not_colon c Hc).
Qed.

Lemma lexed_new : lexed ControlQualifier_new.
Proof. repeat split. Qed.

(** Every token of the lexer carries a qualifier of the lexer. *)
Lemma NextToken_lexed (it : string) :
  lexed (qualifier (fst (NextToken it))).
Proof.
  destruct it as [|c it]; [apply lexed_new|].
  unfold NextToken. fold (is_space c).
  destruct (is_space c); [apply lexed_new|].
  destruct (Ascii.eqb c "("); [apply lexed_new|].
  destruct (Ascii.eqb c ")"); [apply lexed_new|].
  destruct (Ascii.eqb c "&"); [apply lexed_new|].
  destruct (Ascii.eqb c "|"); [apply lexed_new|].
  destruct (Ascii.eqb c "!"); [apply lexed_new|].
  destruct (Ascii.eqb c "+"); [apply lexed_new|].
  destruct (Ascii.eqb c "`").
  - unfold GetFullyQualifiedControl.
    destruct (Fetch_value ":" it) as [H1 H2].
    destruct (FetchBacktickString it ":") as [[found value] it1].
    cbn [fst snd] in *. destruct found.
    + destruct (Fetch_value NUL it1) as [H3 _].
      destruct (FetchBacktickString it1 NUL) as [[found2 value2] it2].
      cbn [fst snd] in *. split; [exact H3|]. cbn.
      exists value. auto.
    + split; [exact H1|]. cbn. auto.
  - destruct (isalpha c) eqn:Hc; [|apply lexed_new].
    unfold GetBarewordsControl.
    destruct (GetBarewordsControl_loop_name it) as [H1 H2].
    destruct (GetBarewordsControl_loop it) as [name rest].
    cbn [fst] in *. split; cbn.
    + now rewrite (isalpha_not_backtick c Hc).
    + split; [reflexivity|]. now rewrite (isalpha_not_colon c Hc).
Qed.

Lemma Tokenize_loop_lexed (fuel : nat) :
  forall it tokens st tokens',
    Forall (fun tok => lexed (qualifier tok)) tokens ->
    Tokenize_loop fuel it tokens = Some (st, tokens') ->
    Forall (fun tok => lexed (qualifier tok)) tokens'.
Proof.
  induction fuel as [|fuel IH]; intros it tokens st tokens' Hall;
    [discriminate|].
  cbn [Tokenize_loop].
  pose proof (NextToken_lexed it) as Hlex.
  destruct (NextToken it) as [tok it']. cbn [fst] in Hlex.
  assert (Hall' : Forall (fun tok => lexed (qualifier tok))
                    (tokens ++ [tok])%list).
  { apply Forall_app. split; [assumption | now constructor]. }
  destruct (type tok); try (now apply IH).
  - intros [= <- <-]. constructor.
  - intros [= <- <-]. assumption.
Qed.

Lemma Tokenize_lexed (expr : string) (st : ParseStatus)
      (tokens : list Token) :
  Tokenize expr = Some (st, tokens) ->
  Forall (fun tok => lexed (qualifier tok)) tokens.
Proof. apply Tokenize_loop_lexed. constructor. Qed.

(** A text that is one control token. *)
Lemma Tokenize_one_control (expr : string) (q : ControlQualifier) :
  expr <> "" ->
  NextToken expr = (Token_with TOK_CONTROL q, "") ->
  Tokenize expr
  = Some (Successful, [Token_with TOK_CONTROL q; Token_of TOK_EOF]).
Proof.
  intros Hne H. unfold Tokenize. cbn [Tokenize_loop]. rewrite H.
  cbn [type Token_with].
  destruct expr as [|c expr]; [congruence|]. reflexivity.
Qed.

Lemma Parse_one_control (finder : ControlFinder) (q : ControlQualifier) :
  Parse finder [Token_with TOK_CONTROL q; Token_of TOK_EOF]
  = Ret (Parsed (ControlExpression q (FindDevice finder q)
                   (FindControl finder q))) [Token_of TOK_EOF].
Proof. reflexivity. Qed.

(** The rendering of a qualifier of the lexer, between backticks, is read
    back as a qualifier with the same rendering, when the rendering of a
    device identity is stable. *)
Lemma NextToken_rendered (q : ControlQualifier) :
  (forall v, contains "`" v = false -> contains ":" v = false ->
     contains "`" (ToString (FromString DeviceQualifier_new v)) = false
     /\ contains ":" (ToString (FromString DeviceQualifier_new v)) = false
     /\ ToString (FromString DeviceQualifier_new
                    (ToString (FromString DeviceQualifier_new v)))
        = ToString (FromString DeviceQualifier_new v)) ->
  lexed q ->
  exists q',
    NextToken ("`" ++ ControlQualifier_to_string q ++ "`")
    = (Token_with TOK_CONTROL q', "")
    /\ ControlQualifier_to_string q' = ControlQualifier_to_string q.
Proof.
  intros Hstable [Hname Hdev].
  unfold ControlQualifier_to_string.
  destruct q as [hd dq name].
  cbn [has_device device_qualifier control_name] in *.
  destruct hd.
  - destruct Hdev as (v & -> & Hvb & Hvc).
    destruct (Hstable v Hvb Hvc) as (Hrb & Hrc & Hrr).
    destruct (GetFullyQualifiedControl_reads
                (ToString (FromString DeviceQualifier_new v))
                name "" Hrb Hrc Hname) as (H & _).
    eexists. split.
    + rewrite append_String, NextToken_backtick, append_assoc. exact H.
    + cbn. now rewrite Hrr.
  - destruct Hdev as [-> Hnc].
    destruct (GetFullyQualifiedControl_reads name "" "" Hname Hnc eq_refl)
      as (_ & H & _).
    eexists. split.
    + rewrite append_String, NextToken_backtick. exact H.
    + reflexivity.
Qed.

(** C7, as amended. Re-rendering is stable for the trees that are one
    control reference. When the source is parsed to such a tree, by the
    lexer and the parser or by the legacy fast path of [ParseExpression],
    its rendering (the qualifier between backticks) parses Successfully
    to a control reference that renders to the same text, provided:
    - a name taken by the fast path has no backtick and no colon (the
      lexer gives no such name to a reference without device);
    - the rendering of a device identity is stable (it has no backtick or
      colon and is read back as itself);
    - the rendering is not itself the name of a control of the default
      device. *)
Theorem render_stable_on_reference (str : string) (finder : ControlFinder)
        (q : ControlQualifier) (d : option Device) (c : option Control) :
  (forall v, contains "`" v = false -> contains ":" v = false ->
     contains "`" (ToString (FromString DeviceQualifier_new v)) = false
     /\ contains ":" (ToString (FromString DeviceQualifier_new v)) = false
     /\ ToString (FromString DeviceQualifier_new
                    (ToString (FromString DeviceQualifier_new v)))
        = ToString (FromString DeviceQualifier_new v)) ->
  ParseExpressionInner str finder = Some (Parsed (ControlExpression q d c))
  \/ (ParseExpression str finder
      = Some (Successful, Some (ControlExpression q d c))
      /\ (FindControl finder (whole_text_qualifier str) <> None ->
          contains "`" str = false /\ contains ":" str = false)) ->
  FindControl finder
    (whole_text_qualifier ("`" ++ ControlQualifier_to_string q ++ "`"))
  = None ->
  to_string (ControlExpression q d c)
  = Some ("`" ++ ControlQualifier_to_string q ++ "`")
  /\ exists e',
       ParseExpression ("`" ++ ControlQualifier_to_string q ++ "`") finder
       = Some (Successful, Some e')
       /\ to_string e' = Some ("`" ++ ControlQualifier_to_string q ++ "`").
Proof.
  intros Hstable Hparse Hfast. split; [reflexivity|].
  assert (Hinner : forall result,
             ParseExpressionInner str finder = Some result ->
             status result = Successful ->
             expr result = Some (ControlExpression q d c) ->
             lexed q).
  { intros result E Hs He.
    destruct (ParseExpressionInner_tree str finder _ _ E Hs He)
      as (tokens & consumed & rest & Ht & _ & -> & Hd & _).
    destruct (derivation_tree finder) as (_ & _ & Hb).
    destruct (Hb _ _ Hd) as (_ & Hleaves & _). cbn [leaves] in Hleaves.
    apply Tokenize_lexed in Ht. apply Forall_app in Ht as [Ht _].
    rewrite Forall_forall in Ht.
    assert (Hin : In q (map qualifier (filter is_control consumed)))
      by (rewrite <- Hleaves; now left).
    apply in_map_iff in Hin as (tok & <- & Hin).
    apply filter_In in Hin as [Hin _]. now apply Ht. }
  assert (Hq : lexed q).
  { destruct Hparse as [E | [E Hclean]].
    - exact (Hinner _ E eq_refl eq_refl).
    - unfold ParseExpression in E.
      destruct (FindControl finder (whole_text_qualifier str)) as [x|].
      + injection E as <- _ _.
        destruct (Hclean ltac:(discriminate)) as [Hb Hc].
        split; [exact Hb | split; [reflexivity | exact Hc]].
      + destruct (ParseExpressionInner str finder) as [result|] eqn:E';
          [|discriminate E].
        injection E as Hs He. exact (Hinner _ eq_refl Hs He). }
  destruct (NextToken_rendered q Hstable Hq) as (q' & Hnext & Hsame).
  exists (ControlExpression q' (FindDevice finder q') (FindControl finder q')).
  split; [|cbn [to_string]; now rewrite Hsame].
  unfold ParseExpression. rewrite Hfast.
  unfold ParseExpressionInner.
  assert (Hne : empty (StripSpaces
                         ("`" ++ ControlQualifier_to_string q ++ "`")) = false)
    by exact (StripSpaces_keeps "" "`" (ControlQualifier_to_string q ++ "`")
                eq_refl).
  rewrite Hne.
  rewrite (Tokenize_one_control _ q') by (assumption || discriminate).
  cbn [negb ParseStatus_eqb]. now rewrite Parse_one_control.
Qed.

(** ** Reads *)

(** A tree that passes the assertions, over controls with states in
    [0, 1], evaluates to a state in [0, 1]. *)
Lemma GetValue_unit (state : Control -> ControlState) (e : Expression) :
  well_formed e = true ->
  (forall c, In c (resolved_controls e) -> unit_state (state c)) ->
  exists v, GetValue state e = Some v /\ unit_state v.
Proof.
  induction e as [q d c | op l IHl r IHr | op i IHi];
    cbn [well_formed resolved_controls GetValue]; intros Hwf Hst.
  - destruct c as [c|].
    + exists (state c). split; [reflexivity|]. apply Hst. now left.
    + exists zero. split; [reflexivity|]. apply (unit_state_zero false).
  - apply andb_true_iff in Hwf as [Hwf Hr].
    apply andb_true_iff in Hwf as [Hop Hl].
    destruct (IHl Hl) as (a & -> & Ha).
    { intros c Hc. apply Hst, in_or_app. now left. }
    destruct (IHr Hr) as (b & -> & Hb).
    { intros c Hc. apply Hst, in_or_app. now right. }
    destruct op; try discriminate.
    + exists (std_min a b). split; [reflexivity | now apply std_min_unit].
    + exists (std_max a b). split; [reflexivity | now apply std_max_unit].
    + exists (std_min (add a b) one).
      split; [reflexivity | now apply clamped_add_unit].
  - apply andb_true_iff in Hwf as [Hop Hi].
    destruct (IHi Hi Hst) as (a & -> & Ha).
    destruct op; try discriminate.
    exists (sub one a). split; [reflexivity | now apply sub_one_unit].
Qed.

(** C1. [GetValue] of a binary node is [std::min] of the values of its
    children for AND, [std::max] for OR and [std::min(sum, 1.0)] for ADD,
    and [GetValue] of a NOT node is [1.0 -] the value of its child; on
    states in [0, 1] [std::min] and [std::max] are the smaller and the
    larger of the two values; and every tree of these operators over
    controls with states in [0, 1] evaluates to a state in [0, 1]
    (in binary64 arithmetic, rounding included). *)
Theorem GetValue_laws (state : Control -> ControlState) :
  (forall lhs rhs a b,
      GetValue state lhs = Some a ->
      GetValue state rhs = Some b ->
      GetValue state (BinaryExpression TOK_AND lhs rhs) = Some (std_min a b)
      /\ GetValue state (BinaryExpression TOK_OR lhs rhs)
         = Some (std_max a b)
      /\ GetValue state (BinaryExpression TOK_ADD lhs rhs)
         = Some (std_min (add a b) one))
  /\ (forall inner a,
         GetValue state inner = Some a ->
         GetValue state (UnaryExpression TOK_NOT inner) = Some (sub one a))
  /\ (forall a b,
         unit_state a -> unit_state b ->
         (std_min a b = a \/ std_min a b = b)
         /\ leb (std_min a b) a = true /\ leb (std_min a b) b = true
         /\ (std_max a b = a \/ std_max a b = b)
         /\ leb a (std_max a b) = true /\ leb b (std_max a b) = true)
  /\ (forall e,
         well_formed e = true ->
         (forall c, In c (resolved_controls e) -> unit_state (state c)) ->
         exists v, GetValue state e = Some v /\ unit_state v).
Proof.
  split; [|split; [|split]].
  - intros lhs rhs a b Ha Hb. cbn [GetValue]. now rewrite Ha, Hb.
  - intros inner a Ha. cbn [GetValue]. now rewrite Ha.
  - intros a b Ha Hb.
    pose proof (unit_state_not_nan a Ha) as Na.
    pose proof (unit_state_not_nan b Hb) as Nb.
    destruct (std_min_spec a b Na Nb) as (H1 & H2 & H3).
    destruct (std_max_spec a b Na Nb) as (H4 & H5 & H6).
    repeat split; assumption.
  - apply GetValue_unit.
Qed.

End Properties.

Lemma backtick_token_witness :
  NextToken "`Pad:C d` & x"
  = (Token_with TOK_CONTROL
       {| has_device := true; device_qualifier := "Pad";
          control_name := "C d" |}, " & x")
  /\ NextToken "`Pad` & x"
     = (Token_with TOK_CONTROL
          {| has_device := false; device_qualifier := "";
             control_name := "Pad" |}, " & x")
  /\ NextToken "`Pad"
     = (Token_with TOK_CONTROL
          {| has_device := false; device_qualifier := "";
             control_name := "Pad" |}, "")
  /\ NextToken "`Pad:C d"
     = (Token_with TOK_CONTROL
          {| has_device := true; device_qualifier := "Pad";
             control_name := "C d" |}, "").
Proof.
  destruct (@backtick_token simple_devices "Pad" "C d" " & x"
              eq_refl eq_refl eq_refl) as (H1 & H2 & H3 & H4 & _).
  repeat split; assumption.
Defined.

(** Scenario F: an illegal character after a well-formed start. *)
Lemma invalid_character_aborts_witness :
  Tokenize "`X` & $" = Some (SyntaxError, [])
  /\ ParseExpression "`X` & $" (pad_finder ["X"]) = Some (SyntaxError, None).
Proof.
  destruct (@invalid_character_aborts simple_devices "`X` & " "$" ""
              (pad_finder ["X"]) eq_refl eq_refl) as (_ & H2 & _ & H4).
  split; [exact H2 | exact (H4 eq_refl)].
Defined.

(** C8 as stated fails: the text ["Button 1"] has a digit outside every
    quoted region, and it parses to a tree when the default device has a
    control of that name. *)
Lemma invalid_character_fast_path :
  lexable "1" = false
  /\ quoted false "Button " = false
  /\ Tokenize "Button 1" = Some (SyntaxError, [])
  /\ ParseExpression "Button 1" (pad_finder ["Button 1"])
     = Some (Successful,
             Some (ControlExpression (whole_text_qualifier "Button 1")
                     (Some ("Pad", ["Button 1"]))
                     (Some ("Pad", "Button 1")))).
Proof. repeat split. Qed.

(** A name with a blank and a digit, which the grammar cannot lex. *)
Lemma legacy_fast_path_witness :
  ParseExpression "Button 1" (pad_finder ["Button 1"])
  = Some (Successful,
          Some (ControlExpression (whole_text_qualifier "Button 1")
                  (Some ("Pad", ["Button 1"]))
                  (Some ("Pad", "Button 1")))).
Proof.
  apply (@legacy_fast_path simple_devices "Button 1"
           (pad_finder ["Button 1"]) ("Pad", "Button 1")).
  reflexivity.
Defined.

(** C3 as stated fails: the trimmed text of ["Button 1 "] names a control,
    but the text itself does not, and the lexer rejects it. *)
Lemma legacy_fast_path_not_trimmed :
  StripSpaces "Button 1 " = "Button 1"
  /\ FindControl (pad_finder ["Button 1"])
       (whole_text_qualifier (StripSpaces "Button 1 "))
     = Some ("Pad", "Button 1")
  /\ ParseExpression "Button 1 " (pad_finder ["Button 1"])
     = Some (SyntaxError, None).
Proof. repeat split. Qed.

(** ** Examples on the small device layer *)

(** The token of a bareword or of a quoted name without a device. *)
Definition control_token (name : string) : Token :=
  Token_with TOK_CONTROL (whole_text_qualifier name).

(** The reference to [name] on the default device ["Pad"] with the given
    controls, as the parser builds it. *)
Definition pad_reference (controls : list string) (name : string)
  : Expression :=
  ControlExpression (whole_text_qualifier name)
    (FindDevice (pad_finder controls) (whole_text_qualifier name))
    (FindControl (pad_finder controls) (whole_text_qualifier name)).

(** C2 as stated fails: the source has two control-reference tokens, one
    of them unresolved, and the count of the parsed tree is 1. *)
Lemma CountNumControls_skips_unresolved :
  match Tokenize "`A` & `B`",
        ParseExpression "`A` & `B`" (pad_finder ["A"]) with
  | Some (Successful, tokens), Some (Successful, Some e) =>
      count_controls tokens = 2%Z /\ CountNumControls e = 1%Z
  | _, _ => False
  end.
Proof. vm_compute. split; reflexivity. Qed.

Lemma CountNumControls_counts_resolved_witness :
  let finder := pad_finder ["A"] in
  let e := BinaryExpression TOK_AND (pad_reference ["A"] "A")
             (pad_reference ["A"] "B") in
  ParseExpression "`A` & `B`" finder = Some (Successful, Some e)
  /\ exists tokens consumed rest,
       Tokenize "`A` & `B`" = Some (Successful, tokens)
       /\ Parse finder tokens = Ret (Parsed e) rest
       /\ tokens = (consumed ++ rest)%list
       /\ CountNumControls e = count_resolved finder consumed
       /\ CountNumControls e = 1%Z.
Proof.
  intros finder e. split; [reflexivity|].
  destruct (@CountNumControls_counts_resolved simple_devices "`A` & `B`"
              finder e eq_refl)
    as [(c & Hc & _) | (_ & tokens & consumed & rest & H1 & H2 & H3 & _
                         & H5 & _)];
    [discriminate Hc|].
  exists tokens, consumed, rest. repeat split; assumption.
Defined.

(** Scenario G: an unresolved reference beside a resolved one. *)
Lemma unresolved_reference_is_neutral_witness :
  let finder := pad_finder ["A"] in
  let tokens := [control_token "Nonexistent"; Token_of TOK_OR;
                 control_token "A"; Token_of TOK_EOF] in
  Parse finder [control_token "Nonexistent"; Token_of TOK_EOF]
  = Ret (Parsed (ControlExpression (whole_text_qualifier "Nonexistent")
                   (Some ("Pad", ["A"])) None)) [Token_of TOK_EOF]
  /\ (forall state, exists v,
         GetValue state
           (BinaryExpression TOK_OR (pad_reference ["A"] "Nonexistent")
              (pad_reference ["A"] "A")) = Some v).
Proof.
  intros finder tokens.
  destruct (@unresolved_reference_is_neutral simple_devices)
    as (_ & _ & H3 & _ & H4 & _).
  split.
  - apply (H4 finder (control_token "Nonexistent") [Token_of TOK_EOF]).
    + reflexivity.
    + reflexivity.
    + exists (Token_of TOK_EOF), []. split; reflexivity.
  - apply (H3 finder tokens _ [Token_of TOK_EOF]). reflexivity.
Defined.

(** [A & B + C] is [(A & B) + C]. *)
Lemma binary_left_associative_witness :
  Parse (pad_finder [])
    [control_token "A"; Token_of TOK_AND; control_token "B";
     Token_of TOK_ADD; control_token "C"; Token_of TOK_EOF]
  = Ret (Parsed
           (BinaryExpression TOK_ADD
              (BinaryExpression TOK_AND (pad_reference [] "A")
                 (pad_reference [] "B"))
              (pad_reference [] "C")))
      [Token_of TOK_EOF].
Proof.
  apply (proj1 (@binary_left_associative simple_devices (pad_finder []))
           [control_token "A"] (pad_reference [] "A")
           [(Token_of TOK_AND, [control_token "B"], pad_reference [] "B");
            (Token_of TOK_ADD, [control_token "C"], pad_reference [] "C")]
           [Token_of TOK_EOF]).
  - apply unary_atom. apply (atom_control (pad_finder []) (control_token "A")).
    reflexivity.
  - apply Forall_cons; [split; [reflexivity|] | apply Forall_cons;
      [split; [reflexivity|] | apply Forall_nil]].
    + apply unary_atom.
      apply (atom_control (pad_finder []) (control_token "B")). reflexivity.
    + apply unary_atom.
      apply (atom_control (pad_finder []) (control_token "C")). reflexivity.
  - exists (Token_of TOK_EOF), []. split; reflexivity.
Defined.

(** NOT takes one atom: [!A & B] is [(!A) & B], [!(A & B)] needs the
    parentheses, and [!!A] is a syntax error. *)
Example NOT_takes_one_atom :
  ParseExpression "!A & B" (pad_finder [])
  = Some (Successful,
          Some (BinaryExpression TOK_AND
                  (UnaryExpression TOK_NOT (pad_reference [] "A"))
                  (pad_reference [] "B")))
  /\ ParseExpression "!(A & B)" (pad_finder [])
     = Some (Successful,
             Some (UnaryExpression TOK_NOT
                     (BinaryExpression TOK_AND (pad_reference [] "A")
                        (pad_reference [] "B"))))
  /\ ParseExpression "!!A" (pad_finder []) = Some (SyntaxError, None).
Proof. repeat split. Qed.

(** C10 as stated fails when a binary operator follows the prefix: [A]
    is a complete top-level expression, and [A &] is a syntax error. *)
Lemma trailing_operator_not_ignored :
  Parse (pad_finder []) [control_token "A"; Token_of TOK_EOF]
  = Ret (Parsed (pad_reference [] "A")) [Token_of TOK_EOF]
  /\ Parse (pad_finder [])
       [control_token "A"; Token_of TOK_AND; Token_of TOK_EOF]
     = Ret (Failed SyntaxError) []
  /\ Tokenize "A &"
     = Some (Successful,
             [control_token "A"; Token_of TOK_AND; Token_of TOK_EOF])
  /\ ParseExpression "A &" (pad_finder []) = Some (SyntaxError, None).
Proof. repeat split. Qed.

(** [A B] and [A ) B] are parsed as the control [A] alone. *)
Lemma trailing_tokens_ignored_witness :
  (Parse (pad_finder [])
     [control_token "A"; control_token "B"; Token_of TOK_EOF]
   = Ret (Parsed (pad_reference [] "A"))
       [control_token "B"; Token_of TOK_EOF]
   /\ ParseExpressionInner "A B" (pad_finder [])
      = Some (Parsed (pad_reference [] "A")))
  /\ (Parse (pad_finder [])
        [control_token "A"; Token_of TOK_RPAREN; control_token "B";
         Token_of TOK_EOF]
      = Ret (Parsed (pad_reference [] "A"))
          [Token_of TOK_RPAREN; control_token "B"; Token_of TOK_EOF]
      /\ ParseExpressionInner "A ) B" (pad_finder [])
         = Some (Parsed (pad_reference [] "A"))).
Proof.
  split.
  - destruct (@trailing_tokens_ignored simple_devices (pad_finder [])
                [control_token "A"] (Token_of TOK_EOF) (pad_reference [] "A")
                [control_token "B"; Token_of TOK_EOF] eq_refl eq_refl)
      as [H1 H2].
    + exists (control_token "B"), [Token_of TOK_EOF]. split; reflexivity.
    + split; [exact H1 | apply H2; reflexivity].
  - destruct (@trailing_tokens_ignored simple_devices (pad_finder [])
                [control_token "A"] (Token_of TOK_EOF) (pad_reference [] "A")
                [Token_of TOK_RPAREN; control_token "B"; Token_of TOK_EOF]
                eq_refl eq_refl)
      as [H1 H2].
    + exists (Token_of TOK_RPAREN), [control_token "B"; Token_of TOK_EOF].
      split; reflexivity.
    + split; [exact H1 | apply H2; reflexivity].
Defined.

(** ** Examples with states *)

(** The doubles 0.2, 0.3, 0.4, 0.6, 0.7 and 0.8. *)
Definition d0_2 : ControlState := S754_finite false 7205759403792794 (-55).
Definition d0_3 : ControlState := S754_finite false 5404319552844595 (-54).
Definition d0_4 : ControlState := S754_finite false 7205759403792794 (-54).
Definition d0_6 : ControlState := S754_finite false 5404319552844595 (-53).
Definition d0_7 : ControlState := S754_finite false 6305039478318694 (-53).
Definition d0_8 : ControlState := S754_finite false 7205759403792794 (-53).

(** The states of the controls ["A"] and ["B"] of the pad (0.0 for any
    other control). *)
Definition pad_state (a b : ControlState) (c : string * string)
  : ControlState :=
  if String.eqb (snd c) "A" then a
  else if String.eqb (snd c) "B" then b
  else zero.

(** Scenarios A, B, C and G. *)
Example scenario_A :
  GetValue (pad_state one d0_3)
    (BinaryExpression TOK_AND (pad_reference ["A"; "B"] "A")
       (pad_reference ["A"; "B"] "B"))
  = Some d0_3.
Proof. vm_compute. reflexivity. Qed.

Example scenario_B :
  GetValue (pad_state d0_2 zero)
    (UnaryExpression TOK_NOT (pad_reference ["A"; "B"] "A"))
  = Some d0_8.
Proof. vm_compute. reflexivity. Qed.

Example scenario_C :
  GetValue (pad_state d0_7 d0_6)
    (BinaryExpression TOK_ADD (pad_reference ["A"; "B"] "A")
       (pad_reference ["A"; "B"] "B"))
  = Some one.
Proof. vm_compute. reflexivity. Qed.

Example scenario_G :
  GetValue (pad_state d0_4 zero)
    (BinaryExpression TOK_OR (pad_reference ["A"] "Nonexistent")
       (pad_reference ["A"] "A"))
  = Some d0_4.
Proof. vm_compute. reflexivity. Qed.

Lemma GetValue_laws_witness :
  let state := pad_state d0_7 d0_6 in
  let A := pad_reference ["A"; "B"] "A" in
  let B := pad_reference ["A"; "B"] "B" in
  GetValue state (BinaryExpression TOK_ADD A B)
  = Some (std_min (add d0_7 d0_6) one)
  /\ GetValue state (UnaryExpression TOK_NOT A) = Some (sub one d0_7)
  /\ leb (std_min d0_7 d0_6) d0_7 = true
  /\ exists v,
       GetValue state
         (BinaryExpression TOK_OR (UnaryExpression TOK_NOT A)
            (BinaryExpression TOK_ADD A B)) = Some v
       /\ unit_state v.
Proof.
  intros state A B.
  destruct (@GetValue_laws simple_devices state) as (H1 & H2 & H3 & H4).
  assert (H7 : unit_state d0_7) by (repeat split; vm_compute; reflexivity).
  assert (H6 : unit_state d0_6) by (repeat split; vm_compute; reflexivity).
  split; [apply (H1 A B d0_7 d0_6 eq_refl eq_refl)|].
  split; [apply (H2 A d0_7 eq_refl)|].
  split; [apply (H3 d0_7 d0_6 H7 H6)|].
  apply H4; [reflexivity|].
  intros c [<- | [<- | [<- | []]]]; assumption.
Defined.

(** Writes through [(A & B) + C] with [B] unresolved. *)
Lemma SetValue_fans_out_witness :
  SetValue
    (BinaryExpression TOK_ADD
       (BinaryExpression TOK_AND (pad_reference ["A"; "C"] "A")
          (pad_reference ["A"; "C"] "B"))
       (pad_reference ["A"; "C"] "C")) d0_3
  = Some [(("Pad", "A"), d0_3); (("Pad", "C"), d0_3)]
  /\ SetValue (UnaryExpression TOK_NOT (pad_reference ["A"] "A")) d0_2
     = Some [(("Pad", "A"), d0_8)].
Proof.
  destruct (@SetValue_fans_out simple_devices) as (_ & H2 & H3).
  split.
  - apply (H3 (BinaryExpression TOK_ADD
                 (BinaryExpression TOK_AND (pad_reference ["A"; "C"] "A")
                    (pad_reference ["A"; "C"] "B"))
                 (pad_reference ["A"; "C"] "C")) d0_3).
    reflexivity.
  - rewrite H2. vm_compute. reflexivity.
Defined.

(** C7 as stated fails: the rendering of a node with an operator is not
    in the grammar. The rendering of [!A] is read back as the control
    [Not], and the rendering of [A & B] is a syntax error (the comma). *)
Lemma render_of_operator_not_stable :
  ParseExpression "!A" (pad_finder [])
  = Some (Successful, Some (UnaryExpression TOK_NOT (pad_reference [] "A")))
  /\ to_string (UnaryExpression TOK_NOT (pad_reference [] "A"))
     = Some "Not(`A`)"
  /\ ParseExpression "Not(`A`)" (pad_finder [])
     = Some (Successful, Some (pad_reference [] "Not"))
  /\ to_string (pad_reference [] "Not") = Some "`Not`"
  /\ ParseExpression "A & B" (pad_finder [])
     = Some (Successful,
             Some (BinaryExpression TOK_AND (pad_reference [] "A")
                     (pad_reference [] "B")))
  /\ to_string (BinaryExpression TOK_AND (pad_reference [] "A")
                  (pad_reference [] "B"))
     = Some "And(`A`, `B`)"
  /\ ParseExpression "And(`A`, `B`)" (pad_finder [])
     = Some (SyntaxError, None).
Proof. repeat split. Qed.

(** A name with a digit and a blank, which the grammar cannot lex: the
    fast path takes [Button 1], and its tree renders to [`Button 1`],
    which is stable, though the lexer and the parser reject
    [Button 1]. *)
Example render_of_fast_path_name :
  ParseExpression "Button 1" (pad_finder ["Button 1"])
  = Some (Successful, Some (pad_reference ["Button 1"] "Button 1"))
  /\ ParseExpressionInner "Button 1" (pad_finder ["Button 1"])
     = Some (Failed SyntaxError)
  /\ to_string (pad_reference ["Button 1"] "Button 1") = Some "`Button 1`"
  /\ ParseExpression "`Button 1`" (pad_finder ["Button 1"])
     = Some (Successful, Some (pad_reference ["Button 1"] "Button 1")).
Proof. repeat split. Qed.

(** A name with a backtick, which the fast path takes as it is: its
    rendering is read back as the reference [A], which renders to another
    text. *)
Example render_of_backtick_name_not_stable :
  let name := "A`B" in
  ParseExpression name (pad_finder [name])
  = Some (Successful, Some (pad_reference [name] name))
  /\ to_string (pad_reference [name] name) = Some "`A`B`"
  /\ ParseExpression "`A`B`" (pad_finder [name])
     = Some (Successful, Some (pad_reference [name] "A"))
  /\ to_string (pad_reference [name] "A") = Some "`A`".
Proof. repeat split. Qed.

(** A reference with a device, in parentheses in the source: the tree
    renders to [`Pad:C d`], which renders to itself. And the name
    [Button 1], taken by the fast path: the tree renders to [`Button 1`],
    which renders to itself. *)
Lemma render_stable_on_reference_witness :
  let q := {| has_device := true; device_qualifier := "Pad";
              control_name := "C d" |} in
  (to_string (ControlExpression q (Some ("Pad", ["C d"]))
                (Some ("Pad", "C d")))
   = Some "`Pad:C d`"
   /\ exists e',
        ParseExpression "`Pad:C d`" (pad_finder ["C d"])
        = Some (Successful, Some e')
        /\ to_string e' = Some "`Pad:C d`")
  /\ (to_string (pad_reference ["Button 1"] "Button 1") = Some "`Button 1`"
      /\ exists e',
           ParseExpression "`Button 1`" (pad_finder ["Button 1"])
           = Some (Successful, Some e')
           /\ to_string e' = Some "`Button 1`").
Proof.
  intros q.
  assert (Hstable : forall v : string,
             contains "`" v = false -> contains ":" v = false ->
             contains "`" v = false /\ contains ":" v = false /\ v = v)
    by (intros v Hb Hc; repeat split; assumption).
  split.
  - apply (@render_stable_on_reference simple_devices "( `Pad:C d` )"
             (pad_finder ["C d"]) q _ _ Hstable).
    + left. reflexivity.
    + reflexivity.
  - apply (@render_stable_on_reference simple_devices "Button 1"
             (pad_finder ["Button 1"]) (whole_text_qualifier "Button 1")
             _ _ Hstable).
    + right. split; [reflexivity|]. intros _. split; reflexivity.
    + reflexivity.
Defined.

(** * Further properties of the lexer *)

Section LexerProperties.

Context {DI : DeviceInterface}.

(** [Token::operator std::string] *)
Definition Token_to_string (tok : Token) : string :=
  match type tok with
  | TOK_DISCARD => "Discard"
  | TOK_EOF => "EOF"
  | TOK_LPAREN => "("
  | TOK_RPAREN => ")"
  | TOK_AND => "&"
  | TOK_OR => "|"
  | TOK_NOT => "!"
  | TOK_ADD => "+"
  | TOK_CONTROL =>
      "Device(" ++ ControlQualifier_to_string (qualifier tok) ++ ")"
  | TOK_INVALID => "Invalid"
  end.

(** The tokens of punctuation: parentheses and operators. *)
Definition is_punctuation (ty : TokenType) : bool :=
  match ty with
  | TOK_LPAREN | TOK_RPAREN | TOK_AND | TOK_OR | TOK_NOT | TOK_ADD => true
  | _ => false
  end.

(** The tokens that [Tokenize] hands to the parser before the EOF. *)
Definition is_parser_token (tok : Token) : bool :=
  is_punctuation (type tok) || is_control tok.

(** A text that is empty or starts with a character that is no letter:
    a bareword before it ends where the text starts. *)
Definition starts_apart (s : string) : bool :=
  match s with
  | EmptyString => true
  | String c _ => negb (isalpha c)
  end.

(** A text that is empty or ends with a character that is no letter: no
    bareword runs to its end. *)
Fixpoint ends_apart (s : string) : bool :=
  match s with
  | EmptyString => true
  | String c s' =>
      match s' with
      | EmptyString => negb (isalpha c)
      | String _ _ => ends_apart s'
      end
  end.

(** Two texts that do not meet letter on letter: a bareword of the first
    cannot run into the second. *)
Definition apart (pre tail : string) : bool :=
  ends_apart pre || starts_apart tail.

(** [all_of p s]: every character of [s] satisfies [p]. *)
Fixpoint all_of (p : ascii -> bool) (s : string) : bool :=
  match s with
  | EmptyString => true
  | String c s' => p c && all_of p s'
  end.

(** The renderings of a token sequence, one after the other. *)
Definition render_tokens (toks : list Token) : string :=
  fold_right (fun tok s => Token_to_string tok ++ s) "" toks.

(** [all_lexable inside s]: every character of [s] outside the
    backtick-quoted regions starts a token or is skipped, when [s] starts
    inside such a region ([inside]) or outside. *)
Fixpoint all_lexable (inside : bool) (s : string) : bool :=
  match s with
  | EmptyString => true
  | String c s' =>
      if Ascii.eqb c "`" then all_lexable (negb inside) s'
      else (inside || lexable c) && all_lexable inside s'
  end.

(** What the lexer leaves in the vector before the EOF: a parenthesis or
    an operator, without qualifier, or a control reference with a
    qualifier read from the text. *)
Definition lexer_token (tok : Token) : Prop :=
  (is_punctuation (type tok) = true /\ tok = Token_of (type tok))
  \/ (type tok = TOK_CONTROL /\ lexed (qualifier tok)).

(** [Tokenize] from a cursor and a vector: the loop with the fuel of the
    text that is left. *)
Definition Tokenize_from (it : string) (tokens : list Token)
  : option (ParseStatus * list Token) :=
  Tokenize_loop (S (String.length it)) it tokens.

(** What the tokens of a second text add to the tokens of a first one:
    the EOF of the first is dropped; a syntax error in either empties the
    vector. *)
Definition then_tokens (first second : option (ParseStatus * list Token))
  : option (ParseStatus * list Token) :=
  match first with
  | Some (Successful, toks) =>
      match second with
      | Some (Successful, toks') =>
          Some (Successful, (removelast toks ++ toks')%list)
      | other => other
      end
  | other => other
  end.

(** ** Fuel and the vector of [Tokenize] *)

(** The loop does not depend on its fuel, once it has enough. *)
Lemma Tokenize_loop_fuel (n : nat) :
  forall m it tokens,
    String.length it < n -> String.length it < m ->
    Tokenize_loop n it tokens = Tokenize_loop m it tokens.
Proof.
  induction n as [|n IH]; intros m it tokens Hn Hm; [lia|].
  destruct m as [|m]; [lia|]. cbn [Tokenize_loop].
  destruct it as [|c it]; [reflexivity|].
  destruct (NextToken_shorter c it) as [Hshort _].
  destruct (NextToken (String c it)) as [tok it'].
  cbn [snd String.length] in *.
  destruct (type tok); try reflexivity; apply IH; lia.
Qed.

Lemma Tokenize_loop_from (n : nat) (it : string) (tokens : list Token) :
  String.length it < n ->
  Tokenize_loop n it tokens = Tokenize_from it tokens.
Proof. intros H. apply Tokenize_loop_fuel; [assumption | lia]. Qed.

(** One step of the loop, on a text that is not at its end. *)
Lemma Tokenize_from_step (c : ascii) (it : string) (tokens : list Token) :
  Tokenize_from (String c it) tokens
  = let '(tok, it') := NextToken (String c it) in
    match type tok with
    | TOK_DISCARD => Tokenize_from it' tokens
    | TOK_INVALID => Some (SyntaxError, [])
    | TOK_EOF => Some (Successful, (tokens ++ [tok])%list)
    | _ => Tokenize_from it' (tokens ++ [tok])%list
    end.
Proof.
  unfold Tokenize_from at 1. cbn [Tokenize_loop].
  destruct (NextToken_shorter c it) as [Hshort _].
  destruct (NextToken (String c it)) as [tok it'].
  cbn [snd String.length] in *.
  destruct (type tok); try reflexivity; apply Tokenize_loop_from; lia.
Qed.

(** The tokens are pushed behind those that the vector holds. *)
Lemma Tokenize_loop_push (n : nat) :
  forall it held tokens,
    Tokenize_loop n it (held ++ tokens)
    = match Tokenize_loop n it tokens with
      | Some (Successful, toks) => Some (Successful, (held ++ toks)%list)
      | other => other
      end.
Proof.
  induction n as [|n IH]; intros it held tokens; [reflexivity|].
  cbn [Tokenize_loop].
  destruct (NextToken it) as [tok it'].
  destruct (type tok); try apply IH; try reflexivity;
    try (rewrite <- app_assoc; apply IH).
  now rewrite app_assoc.
Qed.

Lemma Tokenize_from_push (it : string) (held : list Token) :
  Tokenize_from it held
  = match Tokenize it with
    | Some (Successful, toks) => Some (Successful, (held ++ toks)%list)
    | other => other
    end.
Proof.
  unfold Tokenize_from, Tokenize.
  rewrite <- (app_nil_r held) at 1. apply Tokenize_loop_push.
Qed.


(** ** One token before more text *)

Lemma ends_apart_tail (c : ascii) (s : string) :
  ends_apart (String c s) = true -> ends_apart s = true.
Proof. destruct s as [|x s]; [reflexivity | exact (fun H => H)]. Qed.

Lemma apart_tail (c : ascii) (pre tail : string) :
  apart (String c pre) tail = true -> apart pre tail = true.
Proof.
  unfold apart. intros H. apply orb_true_iff in H as [H|H].
  - now rewrite (ends_apart_tail c pre H).
  - rewrite H. apply orb_true_r.
Qed.

Lemma quoted_app (s t : string) :
  forall b, quoted b (s ++ t) = quoted (quoted b s) t.
Proof.
  induction s as [|c s IH]; intros b; [reflexivity|]. cbn. apply IH.
Qed.

(** The scan of a quoted region does not look behind the backtick that
    closes it. *)
Lemma Fetch_app (d : ascii) (pre tail : string) :
  quoted true pre = false ->
  exists found value pre',
    FetchBacktickString pre d = (found, value, pre')
    /\ FetchBacktickString (pre ++ tail) d = (found, value, pre' ++ tail)
    /\ String.length pre' < String.length pre
    /\ quoted found pre' = false
    /\ (apart pre tail = true -> apart pre' tail = true).
Proof.
  induction pre as [|c pre IH]; simpl; intros Hq; [discriminate|].
  destruct (Ascii.eqb c "`") eqn:Hc.
  - exists false, "", pre.
    repeat split; [lia | assumption | apply apart_tail].
  - destruct ((0 <? char_value c)%Z && Ascii.eqb c d).
    + exists true, "", pre.
      repeat split; [lia | assumption | apply apart_tail].
    + destruct (IH Hq)
        as (found & value & pre' & -> & -> & Hlen & Hq' & Hap).
      exists found, (String c value), pre'.
      repeat split; [lia | assumption |].
      intros H. apply Hap. exact (apart_tail c pre tail H).
Qed.

Lemma GetFullyQualifiedControl_app (pre tail : string) :
  quoted true pre = false ->
  exists tok pre',
    GetFullyQualifiedControl pre = (tok, pre')
    /\ GetFullyQualifiedControl (pre ++ tail) = (tok, pre' ++ tail)
    /\ String.length pre' < String.length pre
    /\ quoted false pre' = false
    /\ (apart pre tail = true -> apart pre' tail = true).
Proof.
  intros Hq. unfold GetFullyQualifiedControl.
  destruct (Fetch_app ":" pre tail Hq)
    as (found & value & pre1 & -> & -> & Hlen1 & Hq1 & Hap1).
  destruct found.
  - destruct (Fetch_app NUL pre1 tail Hq1)
      as (found2 & value2 & pre2 & E2 & -> & Hlen2 & Hq2 & Hap2).
    pose proof (Fetch_NUL_not_found pre1) as Hnf.
    rewrite E2 in *. cbn [fst] in Hnf. subst found2.
    eexists _, pre2. repeat split; [lia | assumption | auto].
  - eexists _, pre1. repeat split; assumption.
Qed.

(** A bareword stops inside its text when that text ends with a character
    that is no letter, and at the end of it when a character that is no
    letter follows. *)
Lemma GetBarewordsControl_loop_app (pre tail : string) :
  (pre <> "" /\ ends_apart pre = true) \/ starts_apart tail = true ->
  exists name pre',
    GetBarewordsControl_loop pre = (name, pre')
    /\ GetBarewordsControl_loop (pre ++ tail) = (name, pre' ++ tail)
    /\ String.length pre' <= String.length pre
    /\ (forall b, quoted b pre' = quoted b pre)
    /\ apart pre' tail = true.
Proof.
  induction pre as [|x pre IH]; intros Ht.
  - destruct Ht as [[Hne _] | Ht]; [now elim Hne|].
    exists "", "". split; [reflexivity|].
    split; [|split; [cbn; lia | split; [reflexivity | reflexivity]]].
    destruct tail as [|c tail]; [reflexivity|].
    unfold starts_apart in Ht. cbn [GetBarewordsControl_loop append].
    now rewrite Ht.
  - cbn [GetBarewordsControl_loop append].
    destruct (isalpha x) eqn:Hx; cbn [negb].
    + destruct IH as (name & pre' & -> & -> & Hlen & Hq & Hap).
      { destruct Ht as [[_ He] | Ht]; [left | now right].
        destruct pre as [|y pre]; [cbn in He; now rewrite Hx in He|].
        split; [discriminate | exact He]. }
      exists (String x name), pre'.
      split; [reflexivity|]. split; [reflexivity|].
      split; [cbn; lia|]. split; [|assumption].
      intros b. cbn [quoted]. now rewrite (isalpha_not_backtick _ Hx).
    + exists "", (String x pre).
      split; [reflexivity|]. split; [reflexivity|].
      split; [lia|]. split; [reflexivity|].
      unfold apart. destruct Ht as [[_ He] | Ht];
        [now rewrite He | rewrite Ht; apply orb_true_r].
Qed.

(** A token read outside a quoted region, with its closing backtick when
    it has one, is read the same before more text, provided a bareword
    cannot run into that text. *)
Lemma NextToken_app (x : ascii) (pre tail : string) :
  quoted false (String x pre) = false ->
  apart (String x pre) tail = true ->
  exists tok pre',
    NextToken (String x pre) = (tok, pre')
    /\ NextToken (String x pre ++ tail) = (tok, pre' ++ tail)
    /\ String.length pre' <= String.length pre
    /\ quoted false pre' = false
    /\ apart pre' tail = true.
Proof.
  intros Hq Ht. pose proof (apart_tail x pre tail Ht) as Ht'.
  simpl append. simpl in Hq.
  destruct (Ascii.eqb_spec x "`") as [->|Hx].
  - change (NextToken (String "`" (pre ++ tail)))
      with (GetFullyQualifiedControl (pre ++ tail)).
    change (NextToken (String "`" pre)) with (GetFullyQualifiedControl pre).
    destruct (GetFullyQualifiedControl_app pre tail Hq)
      as (tok & pre' & -> & -> & Hlen & Hq' & Hap).
    exists tok, pre'. repeat split; [lia | assumption | auto].
  - apply Ascii.eqb_neq in Hx.
    unfold NextToken. fold (is_space x). rewrite Hx.
    destruct (is_space x); [eexists _, pre; repeat split; auto|].
    destruct (Ascii.eqb x "("); [eexists _, pre; repeat split; auto|].
    destruct (Ascii.eqb x ")"); [eexists _, pre; repeat split; auto|].
    destruct (Ascii.eqb x "&"); [eexists _, pre; repeat split; auto|].
    destruct (Ascii.eqb x "|"); [eexists _, pre; repeat split; auto|].
    destruct (Ascii.eqb x "!"); [eexists _, pre; repeat split; auto|].
    destruct (Ascii.eqb x "+"); [eexists _, pre; repeat split; auto|].
    destruct (isalpha x) eqn:Ha; [|eexists _, pre; repeat split; auto].
    unfold GetBarewordsControl.
    destruct (GetBarewordsControl_loop_app pre tail)
      as (name & pre' & -> & -> & Hlen & Hq' & Hap).
    { unfold apart in Ht. apply orb_true_iff in Ht as [He | Hs];
        [left | now right].
      destruct pre as [|y pre]; [cbn in He; now rewrite Ha in He|].
      split; [discriminate | exact He]. }
    eexists _, pre'.
    repeat split; [assumption | now rewrite Hq' | assumption].
Qed.

(** The tokens of a text before more text: when the text ends outside
    every quoted region and no bareword runs into what follows, its
    tokens come first and the loop goes on with what follows. *)
Lemma Tokenize_from_app (tail : string) :
  forall n pre tokens,
    String.length pre < n ->
    quoted false pre = false ->
    apart pre tail = true ->
    Tokenize_from (pre ++ tail) tokens
    = match Tokenize_from pre tokens with
      | Some (Successful, toks) => Tokenize_from tail (removelast toks)
      | other => other
      end.
Proof.
  induction n as [|n IH]; intros pre tokens Hlen Hq Ht; [lia|].
  destruct pre as [|x pre].
  - cbn [append]. unfold Tokenize_from at 2. cbn.
    now rewrite removelast_last.
  - destruct (NextToken_app x pre tail Hq Ht)
      as (tok & pre' & E1 & E2 & Hlen' & Hq' & Hap).
    pose proof (NextToken_shorter x pre) as [_ Hne]. rewrite E1 in Hne.
    cbn [fst] in Hne. cbn [String.length] in Hlen.
    rewrite (Tokenize_from_step x pre), E1.
    change (String x pre ++ tail) with (String x (pre ++ tail)) in *.
    rewrite (Tokenize_from_step x (pre ++ tail)), E2.
    destruct (type tok); try (apply IH; [lia | assumption | assumption]);
      [reflexivity | congruence].
Qed.

Lemma Tokenize_from_space (c : ascii) (it : string) (tokens : list Token) :
  is_space c = true ->
  Tokenize_from (String c it) tokens = Tokenize_from it tokens.
Proof.
  intros Hc. rewrite Tokenize_from_step.
  unfold NextToken. fold (is_space c). now rewrite Hc.
Qed.

Lemma Tokenize_from_blank (ws it : string) (tokens : list Token) :
  all_of is_space ws = true ->
  Tokenize_from (ws ++ it) tokens = Tokenize_from it tokens.
Proof.
  induction ws as [|c ws IH]; cbn [all_of append]; intros H; [reflexivity|].
  apply andb_true_iff in H as [Hc H].
  rewrite (Tokenize_from_space c _ _ Hc). now apply IH.
Qed.

(** ** Texts side by side *)

(** X1. The lexer works text by text. When a text [pre] ends outside
    every backtick-quoted region and does not meet the text [tail] letter
    on letter, the tokens of [pre ++ tail] are the tokens of [pre],
    without their EOF, followed by the tokens of [tail]; a syntax error
    in either part is a syntax error of the whole, with an empty
    vector. *)
Theorem Tokenize_concat (pre tail : string) :
  quoted false pre = false ->
  apart pre tail = true ->
  Tokenize (pre ++ tail) = then_tokens (Tokenize pre) (Tokenize tail).
Proof.
  intros Hq Ht.
  change (Tokenize (pre ++ tail)) with (Tokenize_from (pre ++ tail) []).
  rewrite (Tokenize_from_app tail (S (String.length pre)) pre []
             (Nat.lt_succ_diag_r _) Hq Ht).
  change (Tokenize_from pre []) with (Tokenize pre).
  destruct (Tokenize pre) as [[[] toks]|]; cbn [then_tokens];
    try reflexivity.
  rewrite Tokenize_from_push.
  destruct (Tokenize tail) as [[[] toks']|]; reflexivity.
Qed.

(** X2. Whitespace outside the backtick-quoted regions only separates:
    a run [ws] of blanks, tabs and line ends between two texts that do
    not meet letter on letter, or in front of a text or behind it, leaves
    the tokens as they are without it. *)
Theorem whitespace_only_separates (pre ws tail : string) :
  all_of is_space ws = true ->
  quoted false pre = false ->
  apart pre tail = true ->
  Tokenize (pre ++ ws ++ tail) = Tokenize (pre ++ tail).
Proof.
  intros Hws Hq Ht.
  assert (Hap : apart pre (ws ++ tail) = true).
  { destruct ws as [|c ws]; [exact Ht|].
    cbn [all_of] in Hws. apply andb_true_iff in Hws as [Hc _].
    unfold apart. cbn [append starts_apart].
    destruct (isalpha c) eqn:Ha; [|apply orb_true_r].
    exfalso. revert Hc Ha. unfold is_space, isalpha.
    destruct (Ascii.eqb_spec c " ") as [->|_]; [discriminate|].
    destruct (Ascii.eqb_spec c "009") as [->|_]; [discriminate|].
    destruct (Ascii.eqb_spec c "010") as [->|_]; [discriminate|].
    destruct (Ascii.eqb_spec c "013") as [->|_]; discriminate. }
  change (Tokenize (pre ++ ws ++ tail))
    with (Tokenize_from (pre ++ ws ++ tail) []).
  change (Tokenize (pre ++ tail)) with (Tokenize_from (pre ++ tail) []).
  rewrite (Tokenize_from_app (ws ++ tail) (S (String.length pre)) pre []
             (Nat.lt_succ_diag_r _) Hq Hap).
  rewrite (Tokenize_from_app tail (S (String.length pre)) pre []
             (Nat.lt_succ_diag_r _) Hq Ht).
  destruct (Tokenize_from pre []) as [[[] toks]|]; try reflexivity.
  now apply Tokenize_from_blank.
Qed.

(** ** Barewords *)

Lemma append_empty (s : string) : s ++ "" = s.
Proof. induction s as [|c s IH]; cbn; [reflexivity | now rewrite IH]. Qed.

Lemma GetBarewordsControl_loop_word (name tail : string) :
  all_of isalpha name = true ->
  starts_apart tail = true ->
  GetBarewordsControl_loop (name ++ tail) = (name, tail).
Proof.
  intros Hn Ht. induction name as [|c name IH].
  - destruct tail as [|x tail]; [reflexivity|].
    cbn in Ht |- *. now rewrite Ht.
  - cbn in Hn |- *. apply andb_true_iff in Hn as [Hc Hn].
    now rewrite Hc, (IH Hn).
Qed.

Lemma all_alpha_plain (s : string) :
  all_of isalpha s = true ->
  contains "`" s = false /\ contains ":" s = false.
Proof.
  induction s as [|c s IH]; cbn; intros H; [now split|].
  apply andb_true_iff in H as [Hc H]. destruct (IH H) as [H1 H2].
  now rewrite H1, H2, (isalpha_not_backtick c Hc), (isalpha_not_colon c Hc).
Qed.

(** X3. A bareword is the longest run of letters: at a letter the lexer
    reads on to the first character that is no letter, or to the end of
    the text, and yields a control reference without device whose name is
    the run. The word between backticks gives the same tokens. *)
Theorem bareword_token (c : ascii) (name tail : string) :
  all_of isalpha (String c name) = true ->
  starts_apart tail = true ->
  NextToken (String c name ++ tail)
  = (Token_with TOK_CONTROL
       {| has_device := false;
          device_qualifier := DeviceQualifier_new;
          control_name := String c name |}, tail)
  /\ Tokenize (String c name)
     = Some (Successful,
             [Token_with TOK_CONTROL
                {| has_device := false;
                   device_qualifier := DeviceQualifier_new;
                   control_name := String c name |};
              Token_of TOK_EOF])
  /\ Tokenize ("`" ++ String c name ++ "`") = Tokenize (String c name).
Proof.
  intros Hn Ht.
  assert (Hc : isalpha c = true)
    by (cbn in Hn; now apply andb_true_iff in Hn as [Hc _]).
  assert (Hname : all_of isalpha name = true)
    by (cbn in Hn; now apply andb_true_iff in Hn as [_ Hname]).
  assert (Hword : forall rest, starts_apart rest = true ->
            NextToken (String c name ++ rest)
            = (Token_with TOK_CONTROL
                 {| has_device := false;
                    device_qualifier := DeviceQualifier_new;
                    control_name := String c name |}, rest)).
  { intros rest Hr. cbn [append]. unfold NextToken. fold (is_space c).
    assert (Hlex : lexable c = true)
      by (unfold lexable; rewrite Hc; now rewrite !orb_true_r).
    destruct (is_space c) eqn:Hs.
    { exfalso. revert Hs Hc. unfold is_space, isalpha.
      destruct (Ascii.eqb_spec c " ") as [->|_]; [discriminate|].
      destruct (Ascii.eqb_spec c "009") as [->|_]; [discriminate|].
      destruct (Ascii.eqb_spec c "010") as [->|_]; [discriminate|].
      destruct (Ascii.eqb_spec c "013") as [->|_]; discriminate. }
    destruct (Ascii.eqb_spec c "(") as [->|_]; [discriminate Hc|].
    destruct (Ascii.eqb_spec c ")") as [->|_]; [discriminate Hc|].
    destruct (Ascii.eqb_spec c "&") as [->|_]; [discriminate Hc|].
    destruct (Ascii.eqb_spec c "|") as [->|_]; [discriminate Hc|].
    destruct (Ascii.eqb_spec c "!") as [->|_]; [discriminate Hc|].
    destruct (Ascii.eqb_spec c "+") as [->|_]; [discriminate Hc|].
    rewrite (isalpha_not_backtick c Hc), Hc.
    unfold GetBarewordsControl.
    now rewrite (GetBarewordsControl_loop_word name rest Hname Hr). }
  assert (Hbare : Tokenize (String c name)
            = Some (Successful,
                    [Token_with TOK_CONTROL
                       {| has_device := false;
                          device_qualifier := DeviceQualifier_new;
                          control_name := String c name |};
                     Token_of TOK_EOF])).
  { apply Tokenize_one_control; [discriminate|].
    rewrite <- (append_empty (String c name)) at 1. now apply Hword. }
  split; [now apply Hword|]. split; [exact Hbare|].
  rewrite Hbare. apply Tokenize_one_control; [discriminate|].
  destruct (all_alpha_plain (String c name) Hn) as [H1 H2].
  change ("`" ++ String c name ++ "`")
    with (String "`" (String c name ++ "`" ++ "")).
  rewrite NextToken_backtick.
  exact (proj1 (proj2 (GetFullyQualifiedControl_reads
                         (String c name) "" "" H1 H2 eq_refl))).
Qed.

(** ** The vector of tokens *)

(** What one call of [NextToken] yields. *)
Lemma NextToken_kind (it : string) :
  let tok := fst (NextToken it) in
  tok = Token_of TOK_DISCARD \/ tok = Token_of TOK_INVALID
  \/ tok = Token_of TOK_EOF \/ lexer_token tok.
Proof.
  pose proof (NextToken_lexed it) as Hlex. revert Hlex.
  destruct it as [|c it]; [intros _; right; right; now left|].
  unfold NextToken. fold (is_space c).
  destruct (is_space c); [intros _; now left|].
  destruct (Ascii.eqb c "(");
    [intros _; right; right; right; left; now split|].
  destruct (Ascii.eqb c ")");
    [intros _; right; right; right; left; now split|].
  destruct (Ascii.eqb c "&");
    [intros _; right; right; right; left; now split|].
  destruct (Ascii.eqb c "|");
    [intros _; right; right; right; left; now split|].
  destruct (Ascii.eqb c "!");
    [intros _; right; right; right; left; now split|].
  destruct (Ascii.eqb c "+");
    [intros _; right; right; right; left; now split|].
  destruct (Ascii.eqb c "`").
  - intros Hlex. right; right; right; right.
    split; [apply GetFullyQualifiedControl_type | exact Hlex].
  - destruct (isalpha c); [|intros _; right; now left].
    unfold GetBarewordsControl.
    destruct (GetBarewordsControl_loop it) as [name rest].
    intros Hlex. right; right; right; right. now split.
Qed.

Lemma Tokenize_loop_vector (fuel : nat) :
  forall it tokens toks,
    Tokenize_loop fuel it tokens = Some (Successful, toks) ->
    exists body,
      toks = (tokens ++ body ++ [Token_of TOK_EOF])%list
      /\ Forall lexer_token body
      /\ List.length body <= String.length it.
Proof.
  induction fuel as [|fuel IH]; intros it tokens toks; [discriminate|].
  cbn [Tokenize_loop].
  pose proof (NextToken_kind it) as Hkind.
  assert (Hshort : it <> "" ->
            S (String.length (snd (NextToken it))) <= String.length it).
  { destruct it as [|c it]; [now intros H|]. intros _.
    destruct (NextToken_shorter c it) as [H _]. cbn [String.length]. lia. }
  assert (Hend : it = "" -> NextToken it = (Token_of TOK_EOF, ""))
    by (now intros ->).
  destruct (NextToken it) as [tok it'] eqn:E. cbn [fst snd] in *.
  destruct Hkind as [-> | [-> | [-> | Htok]]].
  - cbn. intros H. destruct (IH _ _ _ H) as (body & -> & HF & Hlen).
    exists body. repeat split; [assumption|].
    destruct it as [|c it]; [specialize (Hend eq_refl); discriminate|].
    specialize (Hshort ltac:(discriminate)). lia.
  - discriminate.
  - cbn. intros [= <-]. exists []. repeat split; [constructor | cbn; lia].
  - assert (Hgo : Tokenize_loop fuel it' (tokens ++ [tok])
                  = Some (Successful, toks) ->
                  exists body,
                    toks = (tokens ++ body ++ [Token_of TOK_EOF])%list
                    /\ Forall lexer_token body
                    /\ List.length body <= String.length it).
    { intros H. destruct (IH _ _ _ H) as (body & -> & HF & Hlen).
      exists (tok :: body). rewrite <- app_assoc.
      repeat split; [now constructor|].
      destruct it as [|c it].
      - specialize (Hend eq_refl). injection Hend as -> _.
        destruct Htok as [[Hp _] | [Hc _]]; discriminate.
      - specialize (Hshort ltac:(discriminate)). cbn [List.length]. lia. }
    destruct Htok as [[Hp _] | [Hc _]].
    + destruct (type tok); try discriminate Hp; exact Hgo.
    + rewrite Hc. exact Hgo.
Qed.

(** X4. What [Tokenize] hands to the parser. It returns on every text,
    either with a syntax error and an empty vector, or successfully with
    a vector that ends in its only EOF token: before it stand only
    parentheses, operators and control references (never DISCARD, INVALID
    or EOF), the control references with a qualifier read from the text,
    and no more tokens than the text has characters. *)
Theorem Tokenize_vector (expr : string) :
  Tokenize expr = Some (SyntaxError, [])
  \/ exists body,
       Tokenize expr = Some (Successful, (body ++ [Token_of TOK_EOF])%list)
       /\ Forall lexer_token body
       /\ List.length body <= String.length expr.
Proof.
  destruct (Tokenize_total expr) as (st & tokens & E & [[-> ->] | [-> _]]);
    [now left | right].
  destruct (Tokenize_loop_vector _ _ _ _ E) as (body & -> & HF & Hlen).
  exists body. now repeat split.
Qed.

(** ** Rendering tokens *)

Lemma Tokenize_from_punctuation (ty : TokenType) (rest : string)
      (held : list Token) :
  is_punctuation ty = true ->
  Tokenize_from (Token_to_string (Token_of ty) ++ rest) held
  = Tokenize_from rest (held ++ [Token_of ty]).
Proof.
  destruct ty; try discriminate; intros _;
    cbn [Token_to_string Token_of type append];
    rewrite Tokenize_from_step; reflexivity.
Qed.

(** X5. [Token::operator std::string] and the lexer agree on the
    parentheses and the operators: the renderings of such tokens, one
    after the other, are lexed back to these tokens. The rendering of any
    other token is not lexed back to it. *)
Theorem punctuation_round_trip :
  (forall tys,
      forallb is_punctuation tys = true ->
      Tokenize (render_tokens (map Token_of tys))
      = Some (Successful, (map Token_of tys ++ [Token_of TOK_EOF])%list))
  /\ (forall tok,
         is_punctuation (type tok) = false ->
         Tokenize (Token_to_string tok)
         <> Some (Successful, [tok; Token_of TOK_EOF])).
Proof.
  split.
  - intros tys Hp.
    enough (H : forall held,
               Tokenize_from (render_tokens (map Token_of tys)) held
               = Some (Successful,
                       (held ++ map Token_of tys ++ [Token_of TOK_EOF])%list))
      by exact (H []).
    induction tys as [|ty tys IH]; intros held; [reflexivity|].
    cbn [forallb] in Hp. apply andb_true_iff in Hp as [Hty Hp].
    cbn [map render_tokens fold_right].
    fold (render_tokens (map Token_of tys)).
    rewrite (Tokenize_from_punctuation ty _ held Hty), (IH Hp).
    now rewrite <- app_assoc.
  - intros tok Hp.
    destruct (type tok) eqn:Hty; try discriminate Hp;
      unfold Token_to_string; rewrite Hty.
    + intros H. vm_compute in H. injection H as H.
      rewrite <- H in Hty. discriminate Hty.
    + intros H. vm_compute in H. injection H as H.
      rewrite <- H in Hty. discriminate Hty.
    + intros H. vm_compute in H. injection H as H.
      rewrite <- H in Hty. discriminate Hty.
    + set (s := ControlQualifier_to_string (qualifier tok) ++ ")").
      change ("Device(" ++ s) with ("Device" ++ "(" ++ s).
      change (Tokenize ("Device" ++ "(" ++ s))
        with (Tokenize_from ("Device" ++ "(" ++ s) []).
      rewrite (Tokenize_from_app ("(" ++ s) 7 "Device" []
                 ltac:(cbn; lia) eq_refl eq_refl).
      change (Tokenize_from "Device" [])
        with (Some (Successful,
                    [Token_with TOK_CONTROL
                       {| has_device := false;
                          device_qualifier := DeviceQualifier_new;
                          control_name := "Device" |};
                     Token_of TOK_EOF])).
      cbn [removelast].
      change ("(" ++ s) with (Token_to_string (Token_of TOK_LPAREN) ++ s).
      rewrite (Tokenize_from_punctuation TOK_LPAREN s _ eq_refl).
      rewrite Tokenize_from_push.
      destruct (Tokenize_total s) as (st & toks & -> & [[-> ->] | [-> He]]);
        [discriminate|].
      intros H. inversion H.
Qed.

(** ** The one cause of a syntax error in the lexer *)

Lemma isalpha_lexable (c : ascii) : isalpha c = true -> lexable c = true.
Proof. intros H. unfold lexable. rewrite H. now rewrite !orb_true_r. Qed.

Lemma Fetch_all_lexable (d : ascii) (it : string) :
  all_lexable true it = true ->
  let '(found, _, rest) := FetchBacktickString it d in
  all_lexable found rest = true.
Proof.
  induction it as [|c it IH]; cbn; [reflexivity|].
  destruct (Ascii.eqb c "`"); [exact (fun H => H)|].
  destruct ((0 <? char_value c)%Z && Ascii.eqb c d); [exact (fun H => H)|].
  intros H. specialize (IH H).
  now destruct (FetchBacktickString it d) as [[found value] rest].
Qed.

Lemma GetBarewordsControl_loop_all_lexable (it : string) :
  all_lexable false it = true ->
  all_lexable false (snd (GetBarewordsControl_loop it)) = true.
Proof.
  induction it as [|c it IH]; cbn; [reflexivity|].
  destruct (isalpha c) eqn:Hc; cbn; [|exact (fun H => H)].
  rewrite (isalpha_not_backtick c Hc), (isalpha_lexable c Hc). cbn.
  intros H. specialize (IH H).
  now destruct (GetBarewordsControl_loop it) as [name rest].
Qed.

(** Where every character outside the quoted regions can be lexed, the
    next token is not INVALID and the same holds behind it. *)
Lemma NextToken_all_lexable (it : string) :
  all_lexable false it = true ->
  type (fst (NextToken it)) <> TOK_INVALID
  /\ all_lexable false (snd (NextToken it)) = true.
Proof.
  destruct it as [|c it]; [intros _; split; [discriminate | reflexivity]|].
  cbn [all_lexable]. unfold NextToken. fold (is_space c).
  destruct (Ascii.eqb c "`") eqn:Hb.
  - destruct (Ascii.eqb_spec c "`") as [->|]; [|discriminate]. cbn.
    intros H. unfold GetFullyQualifiedControl.
    pose proof (Fetch_all_lexable ":" it H) as H1.
    destruct (FetchBacktickString it ":") as [[found value] it1].
    destruct found; [|split; [discriminate | exact H1]].
    pose proof (Fetch_all_lexable NUL it1 H1) as H2.
    pose proof (Fetch_NUL_not_found it1) as Hnf.
    destruct (FetchBacktickString it1 NUL) as [[found2 value2] it2].
    cbn in Hnf. subst found2. split; [discriminate | exact H2].
  - cbn [orb]. intros H. apply andb_true_iff in H as [Hlex H].
    destruct (is_space c) eqn:Hs; [split; [discriminate | exact H]|].
    destruct (Ascii.eqb c "(") eqn:H1; [split; [discriminate | exact H]|].
    destruct (Ascii.eqb c ")") eqn:H2; [split; [discriminate | exact H]|].
    destruct (Ascii.eqb c "&") eqn:H3; [split; [discriminate | exact H]|].
    destruct (Ascii.eqb c "|") eqn:H4; [split; [discriminate | exact H]|].
    destruct (Ascii.eqb c "!") eqn:H5; [split; [discriminate | exact H]|].
    destruct (Ascii.eqb c "+") eqn:H6; [split; [discriminate | exact H]|].
    destruct (isalpha c) eqn:Ha.
    + unfold GetBarewordsControl.
      pose proof (GetBarewordsControl_loop_all_lexable it H) as Hl.
      destruct (GetBarewordsControl_loop it) as [name rest].
      split; [discriminate | exact Hl].
    + exfalso. unfold lexable in Hlex.
      rewrite Hs, H1, H2, H3, H4, H5, H6, Hb, Ha in Hlex. discriminate Hlex.
Qed.

Lemma Tokenize_loop_all_lexable (fuel : nat) :
  forall it tokens toks,
    all_lexable false it = true ->
    Tokenize_loop fuel it tokens <> Some (SyntaxError, toks).
Proof.
  induction fuel as [|fuel IH]; intros it tokens toks Hl; [discriminate|].
  cbn [Tokenize_loop].
  destruct (NextToken_all_lexable it Hl) as [Hne Hl'].
  destruct (NextToken it) as [tok it']. cbn [fst snd] in *.
  destruct (type tok); try (now apply IH); [congruence | discriminate].
Qed.

(** A character that cannot be lexed, outside every quoted region. *)
Lemma not_all_lexable (s : string) :
  forall b,
    all_lexable b s = false ->
    exists pre c post,
      s = pre ++ String c post /\ quoted b pre = false /\ lexable c = false.
Proof.
  induction s as [|x s IH]; intros b; cbn [all_lexable]; [discriminate|].
  destruct (Ascii.eqb x "`") eqn:Hx.
  - intros H. destruct (IH _ H) as (pre & c & post & -> & Hq & Hc).
    exists (String x pre), c, post. cbn [append quoted]. now rewrite Hx.
  - intros H. apply andb_false_iff in H as [H|H].
    + apply orb_false_iff in H as [-> H]. exists "", x, s. now repeat split.
    + destruct (IH _ H) as (pre & c & post & -> & Hq & Hc).
      exists (String x pre), c, post. cbn [append quoted]. now rewrite Hx.
Qed.

(** X6. The lexer has one cause of failure. [Tokenize] ends with a
    syntax error exactly when the text has, outside every
    backtick-quoted region, a character that is no operator, parenthesis,
    whitespace, backtick or letter; every other text is tokenized
    successfully, whatever stands between its backticks. *)
Theorem Tokenize_fails_iff (expr : string) :
  Tokenize expr = Some (SyntaxError, [])
  <-> exists pre c post,
        expr = pre ++ String c post
        /\ quoted false pre = false
        /\ lexable c = false.
Proof.
  split.
  - intros H. destruct (all_lexable false expr) eqn:Hl.
    + exfalso. exact (Tokenize_loop_all_lexable _ _ _ _ Hl H).
    + exact (not_all_lexable expr false Hl).
  - intros (pre & c & post & -> & Hq & Hc).
    apply Tokenize_loop_invalid; [assumption | | assumption].
    rewrite length_append. cbn. lia.
Qed.

End LexerProperties.

(** * Further properties of the parser *)

Section ParserProperties.

Context {DI : DeviceInterface}.

(** The tokens that start an atom: a control reference or an opening
    parenthesis. *)
Definition starts_atom (ty : TokenType) : bool :=
  match ty with
  | TOK_CONTROL | TOK_LPAREN => true
  | _ => false
  end.

(** The tree with every leaf resolved anew by a finder, as [Atom] resolves
    a control reference. *)
Fixpoint resolve (finder : ControlFinder) (e : Expression) : Expression :=
  match e with
  | ControlExpression q _ _ =>
      ControlExpression q (FindDevice finder q) (FindControl finder q)
  | BinaryExpression op lhs rhs =>
      BinaryExpression op (resolve finder lhs) (resolve finder rhs)
  | UnaryExpression op inner => UnaryExpression op (resolve finder inner)
  end.

(** A text that the lexer and the parser read to its end as the tree
    [e]: it ends outside every quoted region, and the parser stops on the
    EOF token. *)
Definition parses_to (finder : ControlFinder) (s : string) (e : Expression)
  : Prop :=
  quoted false s = false
  /\ exists ts,
       Tokenize s = Some (Successful, (ts ++ [Token_of TOK_EOF])%list)
       /\ Parse finder (ts ++ [Token_of TOK_EOF])
          = Ret (Parsed e) [Token_of TOK_EOF].

(** ** What the entry points return *)

Lemma Parse_result (finder : ControlFinder) (tokens : list Token)
      (result : ParseResult) (rest : list Token) :
  Parse finder tokens = Ret result rest ->
  result = Failed SyntaxError \/ exists e, result = Parsed e.
Proof.
  unfold Parse. intros H.
  destruct (parser_sound finder (parser_fuel tokens))
    as (_ & _ & _ & _ & _ & ST).
  apply ST in H as [H | (e & _ & -> & _)]; [now left | right; now exists e].
Qed.

Lemma ParseExpressionInner_result (str : string) (finder : ControlFinder)
      (result : ParseResult) :
  ParseExpressionInner str finder = Some result ->
  result = Failed EmptyExpression \/ result = Failed SyntaxError
  \/ exists e, result = Parsed e.
Proof.
  unfold ParseExpressionInner.
  destruct (empty (StripSpaces str)); [intros [= <-]; now left|].
  destruct (Tokenize_total str) as (st & tokens & -> & [[-> ->] | [-> He]]);
    cbn [negb ParseStatus_eqb]; [intros [= <-]; right; now left|].
  destruct (Parse finder tokens) as [r rest| | |] eqn:E; try discriminate.
  intros [= <-]. right. exact (Parse_result _ _ _ _ E).
Qed.

Lemma binary_of_nonempty (finder : ControlFinder) (ts : list Token)
      (e : Expression) :
  binary_of finder ts e -> ts <> [].
Proof.
  intros H. destruct H as [ts e H | ts1 e1 tok ts2 e2 _ _ _].
  - exact (unary_of_nonempty finder ts e H).
  - now destruct ts1.
Qed.

(** X7. The contract of [ParseExpression]. On every text and with every
    finder it returns, without reading past the end of the token vector
    and without building a node around a null child; the status is
    Successful exactly when an expression is returned. *)
Theorem ParseExpression_contract (str : string) (finder : ControlFinder) :
  exists st tree,
    ParseExpression str finder = Some (st, tree)
    /\ (st = Successful <-> tree <> None).
Proof.
  unfold ParseExpression.
  destruct (FindControl finder (whole_text_qualifier str)).
  - eexists _, _. split; [reflexivity|]. split; [discriminate | reflexivity].
  - destruct (ParseExpressionInner_total str finder) as (result & E).
    rewrite E. exists (status result), (expr result).
    split; [reflexivity|].
    destruct (ParseExpressionInner_result _ _ _ E)
      as [-> | [-> | (e & ->)]]; cbn; split; intros H;
      try discriminate H; try reflexivity; now elim H.
Qed.

(** X8. The parser stays inside the token vector. On a vector that ends
    with an EOF token, as [Tokenize] leaves it, [Parse] returns: it never
    dereferences the end of the vector and it does not run on without
    end. It returns a syntax error without a tree, or a tree that passes
    the assertions of the evaluator, read from a prefix of the vector
    that is not empty, with the cursor on a token that is no binary
    operator and with the EOF token still ahead or under it. *)
Theorem Parse_stays_in_vector (finder : ControlFinder)
        (tokens : list Token) :
  ends_with_EOF tokens ->
  exists result rest,
    Parse finder tokens = Ret result rest
    /\ (result = Failed SyntaxError
        \/ exists e consumed,
             result = Parsed e
             /\ tokens = (consumed ++ rest)%list
             /\ consumed <> []
             /\ stops_at rest
             /\ ends_with_EOF rest
             /\ well_formed e = true).
Proof.
  intros He.
  destruct (Parse_total finder tokens He) as (result & rest & E).
  exists result, rest. split; [exact E|].
  destruct (Parse_result _ _ _ _ E) as [-> | (e & ->)]; [now left | right].
  pose proof (parser_stays_inside finder (parser_fuel tokens))
    as (_ & _ & _ & _ & _ & Hin).
  specialize (Hin tokens He). unfold Parse in E. rewrite E in Hin.
  apply (Parse_derives finder) in E as (consumed & -> & Hd & Hs).
  exists e, consumed. repeat split.
  - exact (binary_of_nonempty _ _ _ Hd).
  - exact Hs.
  - exact (Hin eq_refl).
  - exact (proj2 (proj2 (proj2 (proj2 (derivation_tree finder)) _ _ Hd))).
Qed.

(** ** Blank texts *)

Lemma all_of_false (p : ascii -> bool) (s : string) :
  all_of p s = false ->
  exists pre c post, s = pre ++ String c post /\ p c = false.
Proof.
  induction s as [|x s IH]; cbn [all_of]; [discriminate|].
  intros H. apply andb_false_iff in H as [H|H].
  - now exists "", x, s.
  - destruct (IH H) as (pre & c & post & -> & Hc).
    now exists (String x pre), c, post.
Qed.

Lemma strip_left_blank (s : string) :
  all_of is_space s = true -> strip_left s = "".
Proof.
  induction s as [|c s IH]; cbn [all_of strip_left]; [reflexivity|].
  intros H. apply andb_true_iff in H as [-> H]. exact (IH H).
Qed.

(** [StripSpaces] leaves nothing exactly of the texts of whitespace. *)
Lemma StripSpaces_blank (s : string) :
  empty (StripSpaces s) = all_of is_space s.
Proof.
  destruct (all_of is_space s) eqn:H.
  - unfold StripSpaces. now rewrite (strip_left_blank s H).
  - destruct (all_of_false _ _ H) as (pre & c & post & -> & Hc).
    now apply StripSpaces_keeps.
Qed.

(** X9. The status EmptyExpression is the status of the blank texts, and
    of them alone: the lexer-and-parser path returns it exactly for a
    text of blanks, tabs and line ends (the empty text is one), and
    [ParseExpression] returns it exactly for such a text that is not the
    name of a control of the default device. *)
Theorem EmptyExpression_iff_blank (str : string) (finder : ControlFinder) :
  (ParseExpressionInner str finder = Some (Failed EmptyExpression)
   <-> all_of is_space str = true)
  /\ (ParseExpression str finder = Some (EmptyExpression, None)
      <-> all_of is_space str = true
          /\ FindControl finder (whole_text_qualifier str) = None).
Proof.
  assert (Hinner : ParseExpressionInner str finder
                   = Some (Failed EmptyExpression)
                   <-> all_of is_space str = true).
  { split.
    - unfold ParseExpressionInner. rewrite StripSpaces_blank.
      destruct (all_of is_space str); [reflexivity|].
      destruct (Tokenize_total str)
        as (st & tokens & -> & [[-> ->] | [-> He]]);
        cbn [negb ParseStatus_eqb]; [discriminate|].
      destruct (Parse finder tokens) as [r rest| | |] eqn:E;
        try discriminate.
      destruct (Parse_result _ _ _ _ E) as [-> | (e & ->)]; discriminate.
    - intros H. unfold ParseExpressionInner.
      now rewrite StripSpaces_blank, H. }
  split; [exact Hinner|].
  unfold ParseExpression.
  destruct (FindControl finder (whole_text_qualifier str)) as [c|].
  - split; [discriminate | intros [_ H]; discriminate H].
  - destruct (ParseExpressionInner_total str finder) as (result & E).
    rewrite E. split.
    + intros [= Hs Hx]. split; [|reflexivity]. apply Hinner. rewrite E.
      destruct result as [st x]. cbn in Hs, Hx. now subst.
    + intros [H _]. apply Hinner in H. rewrite H in E.
      injection E as <-. reflexivity.
Qed.

(** ** Syntax errors *)

Lemma Failed_eq (r : ParseResult) :
  status r = SyntaxError -> expr r = None -> r = Failed SyntaxError.
Proof. destruct r as [st x]. cbn. now intros -> ->. Qed.

(** A token that starts no operand. *)
Lemma Unary_bad_start (finder : ControlFinder) (n : nat) (tok : Token)
      (rest : list Token) :
  starts_atom (type tok) = false ->
  type tok <> TOK_NOT ->
  Unary finder (S (S n)) (tok :: rest) = Ret (Failed SyntaxError) rest.
Proof.
  intros Ha Hn. rewrite Unary_S.
  destruct (type tok) eqn:E; try discriminate Ha; try (now elim Hn);
    cbn [IsUnaryExpression]; rewrite Atom_S, E; reflexivity.
Qed.

(** A NOT before a token that starts no atom. *)
Lemma Unary_not_bad (finder : ControlFinder) (n : nat) (tok bad : Token)
      (rest : list Token) :
  type tok = TOK_NOT ->
  starts_atom (type bad) = false ->
  Unary finder (S (S n)) (tok :: bad :: rest) = Ret (Failed SyntaxError) rest.
Proof.
  intros Ht Hb. rewrite Unary_S, Ht. cbn [IsUnaryExpression].
  rewrite Atom_S. destruct (type bad); try discriminate Hb; reflexivity.
Qed.

Lemma Binary_fails (finder : ControlFinder) (n : nat) (toks rest : list Token) :
  Unary finder n toks = Ret (Failed SyntaxError) rest ->
  Binary finder (S n) toks = Ret (Failed SyntaxError) rest.
Proof. intros H. now rewrite Binary_S, H. Qed.

(** The tokens of a whole expression, and the tree that they derive. *)
Lemma whole_derives (finder : ControlFinder) (ts : list Token)
      (e : Expression) :
  Parse finder (ts ++ [Token_of TOK_EOF]) = Ret (Parsed e) [Token_of TOK_EOF]
  <-> binary_of finder ts e.
Proof.
  split.
  - intros H. apply Parse_derives in H as (consumed & Heq & Hd & _).
    apply app_inj_tail in Heq as [-> _]. exact Hd.
  - intros Hd. apply Parse_derives. exists ts.
    split; [reflexivity|]. split; [exact Hd|].
    now exists (Token_of TOK_EOF), [].
Qed.

(** A syntax error in the right operand is one of the whole. *)
Lemma Parse_fails_right (finder : ControlFinder) (ts : list Token)
      (e : Expression) (op : Token) (toks rest : list Token) :
  binary_of finder ts e ->
  IsBinaryToken (type op) = true ->
  Parse finder toks = Ret (Failed SyntaxError) rest ->
  Parse finder (ts ++ op :: toks) = Ret (Failed SyntaxError) rest.
Proof.
  intros Hd Hop H.
  destruct (parser_complete finder) as (_ & _ & Hb).
  destruct (Hb ts e Hd (op :: toks)) as (n0 & d & Hn).
  set (N := n0 + parser_fuel toks).
  assert (Horig : Toplevel finder (S (S N)) toks
                  = Ret (Failed SyntaxError) rest)
    by (apply (Toplevel_more_fuel finder (parser_fuel toks)); [lia | exact H]).
  apply (Parse_Toplevel finder (S (d + S N))).
  rewrite Toplevel_S, Hn by lia. rewrite Binary_loop_S, Hop.
  rewrite Toplevel_S, Binary_S in Horig.
  destruct (Unary finder N toks) as [r1 rest1| | |];
    cbn [and_then] in *; try discriminate Horig.
  destruct (ParseStatus_eqb (status r1) SyntaxError); [exact Horig|].
  destruct (expr r1) as [u|]; [|discriminate Horig].
  pose proof (parser_same_run finder finder N) as (_ & _ & _ & HL & _).
  specialize (HL u (BinaryExpression (type op) e u) rest1).
  rewrite Horig in HL.
  destruct (Binary_loop finder N (BinaryExpression (type op) e u) rest1)
    as [r2 rest2| | |]; cbn in HL; try contradiction.
  destruct HL as (Hs & <- & Hx). f_equal.
  apply Failed_eq; [now rewrite <- Hs | now apply Hx].
Qed.

(** A syntax error between parentheses is one of the whole. *)
Lemma Parse_fails_inside (finder : ControlFinder) (lp : Token)
      (toks rest : list Token) :
  type lp = TOK_LPAREN ->
  Parse finder toks = Ret (Failed SyntaxError) rest ->
  Parse finder (lp :: toks) = Ret (Failed SyntaxError) rest.
Proof.
  intros Hlp H. unfold Parse in H.
  apply (Parse_Toplevel finder (S (S (S (S (S (parser_fuel toks))))))).
  rewrite Toplevel_S. apply Binary_fails.
  rewrite Unary_S, Hlp. cbn [IsUnaryExpression].
  rewrite Atom_S, Hlp, Paren_S, H. reflexivity.
Qed.

(** A parenthesis that is not closed. *)
Lemma Parse_fails_unclosed (finder : ControlFinder) (lp : Token)
      (ts : list Token) (e : Expression) (bad : Token) (rest : list Token) :
  type lp = TOK_LPAREN ->
  binary_of finder ts e ->
  IsBinaryToken (type bad) = false ->
  type bad <> TOK_RPAREN ->
  Parse finder (lp :: ts ++ bad :: rest) = Ret (Failed SyntaxError) rest.
Proof.
  intros Hlp Hd Hb Hr.
  assert (H : Parse finder (ts ++ bad :: rest)
              = Ret (Parsed e) (bad :: rest)).
  { apply Parse_derives. exists ts. split; [reflexivity|].
    split; [exact Hd|]. now exists bad, rest. }
  unfold Parse in H.
  apply (Parse_Toplevel finder
           (S (S (S (S (S (parser_fuel (ts ++ bad :: rest)))))))).
  rewrite Toplevel_S. apply Binary_fails.
  rewrite Unary_S, Hlp. cbn [IsUnaryExpression].
  rewrite Atom_S, Hlp, Paren_S, H. cbn.
  destruct (type bad); try reflexivity. now elim Hr.
Qed.

(** X10. The syntax errors of the parser. With [ts] the tokens of a
    whole expression:
    - a text cannot start with a token that starts no operand (a binary
      operator, a closing parenthesis, the EOF);
    - a NOT must stand before a control reference or an opening
      parenthesis: the parser rejects a NOT before a NOT, before a binary
      operator, before a closing parenthesis and at the end;
    - a syntax error behind a binary operator is a syntax error of the
      whole, with the cursor where the error left it; so a binary operator
      needs a right operand;
    - a syntax error between parentheses is a syntax error of the whole;
    - an opening parenthesis needs its closing one behind the expression
      that it opens. *)
Theorem syntax_errors (finder : ControlFinder) :
  (forall tok rest,
      starts_atom (type tok) = false ->
      type tok <> TOK_NOT ->
      Parse finder (tok :: rest) = Ret (Failed SyntaxError) rest)
  /\ (forall tok bad rest,
         type tok = TOK_NOT ->
         starts_atom (type bad) = false ->
         Parse finder (tok :: bad :: rest) = Ret (Failed SyntaxError) rest)
  /\ (forall ts e op toks rest,
         Parse finder (ts ++ [Token_of TOK_EOF])
         = Ret (Parsed e) [Token_of TOK_EOF] ->
         IsBinaryToken (type op) = true ->
         Parse finder toks = Ret (Failed SyntaxError) rest ->
         Parse finder (ts ++ op :: toks) = Ret (Failed SyntaxError) rest)
  /\ (forall lp toks rest,
         type lp = TOK_LPAREN ->
         Parse finder toks = Ret (Failed SyntaxError) rest ->
         Parse finder (lp :: toks) = Ret (Failed SyntaxError) rest)
  /\ (forall lp ts e bad rest,
         type lp = TOK_LPAREN ->
         Parse finder (ts ++ [Token_of TOK_EOF])
         = Ret (Parsed e) [Token_of TOK_EOF] ->
         IsBinaryToken (type bad) = false ->
         type bad <> TOK_RPAREN ->
         Parse finder (lp :: ts ++ bad :: rest)
         = Ret (Failed SyntaxError) rest).
Proof.
  split; [|split; [|split; [|split]]].
  - intros tok rest Ha Hn. apply (Parse_Toplevel finder 4).
    rewrite Toplevel_S. apply Binary_fails. now apply Unary_bad_start.
  - intros tok bad rest Ht Hb. apply (Parse_Toplevel finder 4).
    rewrite Toplevel_S. apply Binary_fails. now apply Unary_not_bad.
  - intros ts e op toks rest H Hop Hf. apply whole_derives in H.
    now apply (Parse_fails_right finder ts e).
  - intros lp toks rest Hlp Hf. now apply Parse_fails_inside.
  - intros lp ts e bad rest Hlp H Hb Hr. apply whole_derives in H.
    now apply (Parse_fails_unclosed finder lp ts e).
Qed.

(** ** The finder and the tree *)

Lemma resolve_derivation (finder1 finder2 : ControlFinder) :
  (forall ts e, atom_of finder1 ts e ->
                atom_of finder2 ts (resolve finder2 e))
  /\ (forall ts e, unary_of finder1 ts e ->
                   unary_of finder2 ts (resolve finder2 e))
  /\ (forall ts e, binary_of finder1 ts e ->
                   binary_of finder2 ts (resolve finder2 e)).
Proof.
  apply derivation_ind.
  - intros tok Htok. cbn [resolve]. now apply atom_control.
  - intros lp ts e rp Hlp _ IH Hrp. now apply atom_paren.
  - intros tok ts e Htok _ IH. cbn [resolve]. now apply unary_not.
  - intros ts e _ IH. now apply unary_atom.
  - intros ts e _ IH. now apply binary_first.
  - intros ts1 e1 tok ts2 e2 _ IH1 Htok _ IH2. cbn [resolve].
    now apply binary_more.
Qed.

(** X11. The finder decides the leaves of the tree and nothing else. When
    [Parse] returns a tree with one finder, it returns with any other
    finder, on the same tokens, the tree of the same shape whose leaves
    that finder resolves, with the cursor at the same place; the
    lexer-and-parser path does so on the same text. The leaves of a
    parsed tree hold what the finder finds for their qualifiers: parsing
    again with the same finder changes nothing. *)
Theorem Parse_with_other_finder (finder1 finder2 : ControlFinder) :
  (forall tokens e rest,
      Parse finder1 tokens = Ret (Parsed e) rest ->
      Parse finder2 tokens = Ret (Parsed (resolve finder2 e)) rest
      /\ resolve finder1 e = e)
  /\ (forall str e,
         ParseExpressionInner str finder1 = Some (Parsed e) ->
         ParseExpressionInner str finder2
         = Some (Parsed (resolve finder2 e))).
Proof.
  assert (Hother : forall f tokens e rest,
             Parse finder1 tokens = Ret (Parsed e) rest ->
             Parse f tokens = Ret (Parsed (resolve f e)) rest).
  { intros f tokens e rest H.
    apply Parse_derives in H as (consumed & -> & Hd & Hs).
    apply Parse_derives. exists consumed. split; [reflexivity|].
    split; [|exact Hs].
    exact (proj2 (proj2 (resolve_derivation finder1 f)) _ _ Hd). }
  split.
  - intros tokens e rest H. split; [now apply Hother|].
    pose proof (Hother finder1 _ _ _ H) as H'. rewrite H in H'.
    now injection H' as <-.
  - intros str e. unfold ParseExpressionInner.
    destruct (empty (StripSpaces str)); [discriminate|].
    destruct (Tokenize str) as [[st tokens]|]; [|discriminate].
    destruct (negb (ParseStatus_eqb st Successful)); [discriminate|].
    destruct (Parse finder1 tokens) as [r rest| | |] eqn:E;
      try discriminate.
    intros [= ->]. now rewrite (Hother finder2 _ _ _ E).
Qed.

(** X12. The leaves of a parsed tree are the control references that the
    parser consumed, in the order of the text: none is dropped, repeated
    or moved, whatever the operators and parentheses between them. On a
    text, they are qualifiers that the lexer read from it. *)
Theorem parsed_leaves (finder : ControlFinder) :
  (forall tokens e rest,
      Parse finder tokens = Ret (Parsed e) rest ->
      exists consumed,
        tokens = (consumed ++ rest)%list
        /\ leaves e = map qualifier (filter is_control consumed))
  /\ (forall str e,
         ParseExpressionInner str finder = Some (Parsed e) ->
         exists tokens consumed rest,
           Tokenize str = Some (Successful, tokens)
           /\ tokens = (consumed ++ rest)%list
           /\ leaves e = map qualifier (filter is_control consumed)
           /\ Forall lexed (leaves e)).
Proof.
  split.
  - intros tokens e rest H.
    apply Parse_derives in H as (consumed & -> & Hd & _).
    exists consumed. split; [reflexivity|].
    exact (proj1 (proj2 (proj2 (proj2 (derivation_tree finder)) _ _ Hd))).
  - intros str e H.
    destruct (ParseExpressionInner_tree str finder _ e H eq_refl eq_refl)
      as (tokens & consumed & rest & Ht & _ & -> & Hd & _).
    exists (consumed ++ rest)%list, consumed, rest.
    pose proof (proj1 (proj2 (proj2 (proj2 (derivation_tree finder))
                                _ _ Hd))) as Hl.
    repeat split; try assumption.
    rewrite Hl. apply Forall_map.
    pose proof (Tokenize_lexed _ _ _ Ht) as HF.
    apply Forall_app in HF as [HF _].
    rewrite Forall_forall in HF |- *.
    intros tok Hin. apply filter_In in Hin as [Hin _]. now apply HF.
Qed.

(** ** Texts and trees *)

Lemma quoted_plain (v : string) :
  contains "`" v = false -> forall b, quoted b v = b.
Proof.
  induction v as [|x v IH]; cbn [contains quoted]; intros H b; [reflexivity|].
  apply orb_false_iff in H as [-> H]. now apply IH.
Qed.

(** The tokens of a whole text before more text. *)
Lemma Tokenize_from_whole (s tail : string) (held ts : list Token) :
  Tokenize s = Some (Successful, (ts ++ [Token_of TOK_EOF])%list) ->
  quoted false s = false ->
  apart s tail = true ->
  Tokenize_from (s ++ tail) held = Tokenize_from tail (held ++ ts).
Proof.
  intros Ht Hq Hap.
  rewrite (Tokenize_from_app tail (S (String.length s)) s held
             (Nat.lt_succ_diag_r _) Hq Hap).
  rewrite Tokenize_from_push, Ht. now rewrite app_assoc, removelast_last.
Qed.

Lemma Tokenize_from_paren (s : string) (held ts : list Token) :
  Tokenize s = Some (Successful, (ts ++ [Token_of TOK_EOF])%list) ->
  quoted false s = false ->
  Tokenize_from ("(" ++ s ++ ")") held
  = Some (Successful,
          (held ++ (Token_of TOK_LPAREN :: ts ++ [Token_of TOK_RPAREN])
             ++ [Token_of TOK_EOF])%list).
Proof.
  intros Ht Hq.
  change ("(" ++ s ++ ")")
    with (Token_to_string (Token_of TOK_LPAREN) ++ (s ++ ")")).
  rewrite Tokenize_from_punctuation by reflexivity.
  rewrite (Tokenize_from_whole s ")" _ ts Ht Hq)
    by (unfold apart; apply orb_true_r).
  change ")" with (Token_to_string (Token_of TOK_RPAREN) ++ "").
  rewrite Tokenize_from_punctuation by reflexivity.
  unfold Tokenize_from. cbn [String.length Tokenize_loop NextToken type
                               Token_of].
  cbn [app]. now rewrite <- !app_assoc.
Qed.

Lemma quoted_paren (s : string) :
  quoted false s = false -> quoted false ("(" ++ s ++ ")") = false.
Proof.
  intros Hq. change ("(" ++ s ++ ")") with (String "(" (s ++ ")")).
  cbn [quoted]. change (Ascii.eqb "(" "`") with false. cbv iota.
  now rewrite quoted_app, Hq.
Qed.

Section Texts.

Variable finder : ControlFinder.

(** A text that is read to its end is not blank. *)
Lemma parses_to_Inner (s : string) (e : Expression) :
  parses_to finder s e -> ParseExpressionInner s finder = Some (Parsed e).
Proof.
  intros (Hq & ts & Ht & Hp). unfold ParseExpressionInner.
  rewrite StripSpaces_blank. destruct (all_of is_space s) eqn:Hb.
  - exfalso.
    pose proof (Tokenize_from_blank s "" [] Hb) as H.
    rewrite append_empty in H.
    change (Tokenize_from s []) with (Tokenize s) in H.
    rewrite Ht in H. injection H as H.
    destruct ts as [|t ts]; [|destruct ts; discriminate H].
    apply whole_derives in Hp.
    exact (binary_of_nonempty _ _ _ Hp eq_refl).
  - rewrite Ht. cbn [negb ParseStatus_eqb]. now rewrite Hp.
Qed.

Lemma parses_to_paren (s : string) (e : Expression) :
  parses_to finder s e -> parses_to finder ("(" ++ s ++ ")") e.
Proof.
  intros (Hq & ts & Ht & Hp). split; [now apply quoted_paren|].
  exists (Token_of TOK_LPAREN :: ts ++ [Token_of TOK_RPAREN])%list. split.
  - exact (Tokenize_from_paren s [] ts Ht Hq).
  - apply whole_derives. apply binary_first, unary_atom.
    apply atom_paren; [reflexivity | now apply whole_derives | reflexivity].
Qed.

Lemma parses_to_not (s : string) (e : Expression) :
  parses_to finder s e ->
  parses_to finder ("!" ++ "(" ++ s ++ ")") (UnaryExpression TOK_NOT e).
Proof.
  intros (Hq & ts & Ht & Hp). split.
  - change ("!" ++ "(" ++ s ++ ")") with (String "!" ("(" ++ s ++ ")")).
    cbn [quoted]. change (Ascii.eqb "!" "`") with false. cbv iota.
    now apply quoted_paren.
  - exists (Token_of TOK_NOT
              :: Token_of TOK_LPAREN :: ts ++ [Token_of TOK_RPAREN])%list.
    split.
    + change (Tokenize ("!" ++ "(" ++ s ++ ")"))
        with (Tokenize_from
                (Token_to_string (Token_of TOK_NOT) ++ ("(" ++ s ++ ")")) []).
      rewrite Tokenize_from_punctuation by reflexivity.
      exact (Tokenize_from_paren s _ ts Ht Hq).
    + apply whole_derives. apply binary_first.
      apply (unary_not finder (Token_of TOK_NOT)); [reflexivity|].
      apply atom_paren; [reflexivity | now apply whole_derives | reflexivity].
Qed.

Lemma parses_to_binary (op : TokenType) (s1 s2 : string)
      (e1 e2 : Expression) :
  IsBinaryToken op = true ->
  parses_to finder s1 e1 ->
  parses_to finder s2 e2 ->
  parses_to finder (s1 ++ Token_to_string (Token_of op) ++ "(" ++ s2 ++ ")")
    (BinaryExpression op e1 e2).
Proof.
  intros Hop (Hq1 & ts1 & Ht1 & Hp1) (Hq2 & ts2 & Ht2 & Hp2).
  assert (Hpunct : is_punctuation op = true)
    by (destruct op; try discriminate Hop; reflexivity).
  split.
  - rewrite quoted_app, Hq1.
    destruct op; try discriminate Hop;
      cbn [Token_to_string Token_of type];
      [change ("&" ++ "(" ++ s2 ++ ")") with (String "&" ("(" ++ s2 ++ ")"))
      |change ("|" ++ "(" ++ s2 ++ ")") with (String "|" ("(" ++ s2 ++ ")"))
      |change ("+" ++ "(" ++ s2 ++ ")") with (String "+" ("(" ++ s2 ++ ")"))];
      cbn [quoted];
      [change (Ascii.eqb "&" "`") with false
      |change (Ascii.eqb "|" "`") with false
      |change (Ascii.eqb "+" "`") with false];
      cbv iota; now apply quoted_paren.
  - exists (ts1 ++ Token_of op
              :: Token_of TOK_LPAREN :: ts2 ++ [Token_of TOK_RPAREN])%list.
    split.
    + change (Tokenize ?s) with (Tokenize_from s []).
      rewrite (Tokenize_from_whole s1 _ [] ts1 Ht1 Hq1)
        by (unfold apart; destruct op; try discriminate Hop;
            apply orb_true_r).
      rewrite (Tokenize_from_punctuation op _ _ Hpunct).
      rewrite (Tokenize_from_paren s2 _ ts2 Ht2 Hq2).
      repeat first [rewrite <- app_assoc | progress cbn [app]]. reflexivity.
    + apply whole_derives.
      apply (binary_more finder ts1 e1 (Token_of op));
        [now apply whole_derives | exact Hop |].
      apply unary_atom.
      apply atom_paren; [reflexivity | now apply whole_derives | reflexivity].
Qed.

Lemma parses_to_reference (q : ControlQualifier) (s : string) :
  s <> "" ->
  quoted false s = false ->
  NextToken s = (Token_with TOK_CONTROL q, "") ->
  parses_to finder s
    (ControlExpression q (FindDevice finder q) (FindControl finder q)).
Proof.
  intros Hne Hq Hn. split; [exact Hq|].
  exists [Token_with TOK_CONTROL q]. split.
  - now apply Tokenize_one_control.
  - apply Parse_one_control.
Qed.

Lemma parses_to_name (name : string) :
  contains "`" name = false ->
  contains ":" name = false ->
  parses_to finder ("`" ++ name ++ "`")
    (ControlExpression
       {| has_device := false;
          device_qualifier := DeviceQualifier_new;
          control_name := name |}
       (FindDevice finder
          {| has_device := false;
             device_qualifier := DeviceQualifier_new;
             control_name := name |})
       (FindControl finder
          {| has_device := false;
             device_qualifier := DeviceQualifier_new;
             control_name := name |})).
Proof.
  intros H1 H2. apply parses_to_reference; [discriminate | |].
  - change ("`" ++ name ++ "`") with (String "`" (name ++ "`")).
    cbn [quoted]. change (Ascii.eqb "`" "`") with true. cbv iota. cbn [negb].
    now rewrite quoted_app, (quoted_plain name H1).
  - change ("`" ++ name ++ "`") with (String "`" (name ++ "`" ++ "")).
    rewrite NextToken_backtick.
    exact (proj1 (proj2 (GetFullyQualifiedControl_reads name "" ""
                           H1 H2 eq_refl))).
Qed.

Lemma parses_to_device_name (dev name : string) :
  contains "`" dev = false ->
  contains ":" dev = false ->
  contains "`" name = false ->
  parses_to finder ("`" ++ dev ++ ":" ++ name ++ "`")
    (ControlExpression
       {| has_device := true;
          device_qualifier := FromString DeviceQualifier_new dev;
          control_name := name |}
       (FindDevice finder
          {| has_device := true;
             device_qualifier := FromString DeviceQualifier_new dev;
             control_name := name |})
       (FindControl finder
          {| has_device := true;
             device_qualifier := FromString DeviceQualifier_new dev;
             control_name := name |})).
Proof.
  intros H1 H2 H3. apply parses_to_reference; [discriminate | |].
  - change ("`" ++ dev ++ ":" ++ name ++ "`")
      with (String "`" (dev ++ String ":" (name ++ "`"))).
    cbn [quoted]. change (Ascii.eqb "`" "`") with true. cbv iota. cbn [negb].
    rewrite quoted_app, (quoted_plain dev H1). cbn [quoted].
    change (Ascii.eqb ":" "`") with false. cbv iota.
    now rewrite quoted_app, (quoted_plain name H3).
  - change ("`" ++ dev ++ ":" ++ name ++ "`")
      with (String "`" (dev ++ ":" ++ name ++ "`" ++ "")).
    rewrite NextToken_backtick.
    exact (proj1 (GetFullyQualifiedControl_reads dev name "" H1 H2 H3)).
Qed.

(** X13. Texts compose as trees do. For texts that the lexer and the
    parser read to their end ([parses_to]): such a text is parsed to its
    tree by the lexer-and-parser path; between parentheses it gives the
    same tree, with no node for the parentheses; a NOT before the
    parenthesised text gives the unary node over its tree; and two such
    texts joined by a binary operator, the second between parentheses,
    give the binary node of that operator over the two trees, whatever
    operators the second text has. A name between backticks, with or
    without a device, is such a text. *)
Theorem texts_compose :
  (forall s e,
      parses_to finder s e ->
      ParseExpressionInner s finder = Some (Parsed e))
  /\ (forall s e,
         parses_to finder s e -> parses_to finder ("(" ++ s ++ ")") e)
  /\ (forall s e,
         parses_to finder s e ->
         parses_to finder ("!" ++ "(" ++ s ++ ")")
           (UnaryExpression TOK_NOT e))
  /\ (forall op s1 e1 s2 e2,
         IsBinaryToken op = true ->
         parses_to finder s1 e1 ->
         parses_to finder s2 e2 ->
         parses_to finder
           (s1 ++ Token_to_string (Token_of op) ++ "(" ++ s2 ++ ")")
           (BinaryExpression op e1 e2))
  /\ (forall dev name,
         contains "`" dev = false ->
         contains ":" dev = false ->
         contains "`" name = false ->
         parses_to finder ("`" ++ dev ++ ":" ++ name ++ "`")
           (resolve finder
              (ControlExpression
                 {| has_device := true;
                    device_qualifier := FromString DeviceQualifier_new dev;
                    control_name := name |} None None))
         /\ parses_to finder ("`" ++ dev ++ "`")
              (resolve finder
                 (ControlExpression
                    {| has_device := false;
                       device_qualifier := DeviceQualifier_new;
                       control_name := dev |} None None))).
Proof.
  split; [exact parses_to_Inner|]. split; [exact parses_to_paren|].
  split; [exact parses_to_not|].
  split; [intros op s1 e1 s2 e2; apply parses_to_binary|].
  intros dev name H1 H2 H3. split.
  - now apply parses_to_device_name.
  - now apply parses_to_name.
Qed.

(** ** The trees that the parser returns *)

Lemma resolve_parsed (ts : list Token) (e : Expression) :
  binary_of finder ts e -> resolve finder e = e.
Proof.
  intros Hd.
  pose proof (proj2 (proj2 (resolve_derivation finder finder)) _ _ Hd) as Hr.
  apply whole_derives in Hd, Hr. rewrite Hd in Hr. now injection Hr as <-.
Qed.

Lemma tree_has_text (e : Expression) :
  well_formed e = true ->
  Forall lexed (leaves e) ->
  resolve finder e = e ->
  exists s, parses_to finder s e.
Proof.
  induction e as [q d c | op lhs IHl rhs IHr | op inner IH];
    cbn [well_formed leaves resolve]; intros Hw Hl Hr.
  - injection Hr as <- <-. apply Forall_inv in Hl.
    destruct q as [hd dq name]. unfold lexed in Hl. cbn in Hl.
    destruct Hl as [Hn Hl]. destruct hd.
    + destruct Hl as (v & -> & Hv1 & Hv2).
      exists ("`" ++ v ++ ":" ++ name ++ "`").
      now apply parses_to_device_name.
    + destruct Hl as [-> Hc]. exists ("`" ++ name ++ "`").
      now apply parses_to_name.
  - apply andb_true_iff in Hw as [Hw Hwr].
    apply andb_true_iff in Hw as [Hop Hwl].
    apply Forall_app in Hl as [Hll Hlr]. injection Hr as Hrl Hrr.
    destruct (IHl Hwl Hll Hrl) as (s1 & H1).
    destruct (IHr Hwr Hlr Hrr) as (s2 & H2).
    exists (s1 ++ Token_to_string (Token_of op) ++ "(" ++ s2 ++ ")").
    now apply parses_to_binary.
  - apply andb_true_iff in Hw as [Hop Hw]. injection Hr as Hr.
    destruct (IH Hw Hl Hr) as (s & H).
    destruct op; try discriminate Hop.
    exists ("!" ++ "(" ++ s ++ ")"). now apply parses_to_not.
Qed.

(** X14. The trees that the parser returns. The lexer-and-parser path
    returns a tree for some text exactly when the tree passes the
    assertions of the evaluator (binary nodes of AND, OR and ADD, unary
    nodes of NOT), its leaves have qualifiers that the lexer can read (no
    backtick in the names, no colon in the device identity nor in a name
    without device) and hold what the finder finds for them. *)
Theorem parser_range (e : Expression) :
  (exists s, ParseExpressionInner s finder = Some (Parsed e))
  <-> well_formed e = true
      /\ Forall lexed (leaves e)
      /\ resolve finder e = e.
Proof.
  split.
  - intros (s & H).
    destruct (ParseExpressionInner_tree s finder _ e H eq_refl eq_refl)
      as (tokens & consumed & rest & Ht & _ & -> & Hd & _).
    destruct (proj2 (proj2 (derivation_tree finder)) _ _ Hd)
      as (_ & Hl & Hw).
    split; [exact Hw|]. split; [|exact (resolve_parsed _ _ Hd)].
    rewrite Hl. apply Forall_map.
    pose proof (Tokenize_lexed _ _ _ Ht) as HF.
    apply Forall_app in HF as [HF _].
    rewrite Forall_forall in HF |- *.
    intros tok Hin. apply filter_In in Hin as [Hin _]. now apply HF.
  - intros (Hw & Hl & Hr).
    destruct (tree_has_text e Hw Hl Hr) as (s & H).
    exists s. now apply parses_to_Inner.
Qed.

End Texts.

End ParserProperties.

(** * Further properties of the evaluator *)

Section EvaluatorProperties.

Context {DI : DeviceInterface}.

(** [a == b] on control states. *)
Definition same_number (a b : ControlState) : bool := SFeqb a b.

(** The trees whose unary nodes hold NOT. *)
Fixpoint nots_only (e : Expression) : bool :=
  match e with
  | ControlExpression _ _ _ => true
  | BinaryExpression _ lhs rhs => nots_only lhs && nots_only rhs
  | UnaryExpression op inner => IsUnaryExpression op && nots_only inner
  end.

(** The trees whose nodes hold a token that [OpName] names. *)
Fixpoint named (e : Expression) : bool :=
  match e with
  | ControlExpression _ _ _ => true
  | BinaryExpression op lhs rhs =>
      match OpName op with Some _ => true | None => false end
      && named lhs && named rhs
  | UnaryExpression op inner =>
      match OpName op with Some _ => true | None => false end
      && named inner
  end.

(** A digital state: 1.0 for a control that is pressed, 0.0 for one that
    is not. *)
Definition digital (b : bool) : ControlState := if b then one else zero.

(** The Boolean reading of a tree: a control that is not resolved is not
    pressed, AND is the conjunction, OR and ADD are the disjunction and
    NOT is the negation. *)
Fixpoint truth (pressed : Control -> bool) (e : Expression) : bool :=
  match e with
  | ControlExpression _ _ (Some c) => pressed c
  | ControlExpression _ _ None => false
  | BinaryExpression TOK_AND lhs rhs => truth pressed lhs && truth pressed rhs
  | BinaryExpression _ lhs rhs => truth pressed lhs || truth pressed rhs
  | UnaryExpression _ inner => negb (truth pressed inner)
  end.

(** ** Writes *)

Lemma CountNumControls_resolved (e : Expression) :
  CountNumControls e = Z.of_nat (List.length (resolved_controls e)).
Proof.
  induction e as [q d c | op lhs IHl rhs IHr | op inner IH];
    cbn [CountNumControls resolved_controls].
  - now destruct c.
  - rewrite length_app, Nat2Z.inj_add. lia.
  - exact IH.
Qed.

(** X15. What [SetValue] writes. On a tree that passes the assertions,
    [SetValue] sets the state of every resolved control of the tree once,
    from left to right, and of nothing else: the number of writes is
    [CountNumControls]. When the value is in [0, 1], so is every value
    written, under any number of NOT nodes. *)
Theorem SetValue_writes (e : Expression) (v : ControlState) :
  well_formed e = true ->
  exists writes,
    SetValue e v = Some writes
    /\ map fst writes = resolved_controls e
    /\ Z.of_nat (List.length writes) = CountNumControls e
    /\ (unit_state v -> Forall (fun w => unit_state (snd w)) writes).
Proof.
  revert v.
  induction e as [q d c | op lhs IHl rhs IHr | op inner IH]; intros v;
    cbn [well_formed SetValue resolved_controls CountNumControls]; intros Hw.
  - destruct c as [c|]; eexists; (split; [reflexivity|]);
      (split; [reflexivity|]); (split; [reflexivity|]); intros Hv.
    + apply Forall_cons; [exact Hv | apply Forall_nil].
    + apply Forall_nil.
  - apply andb_true_iff in Hw as [Hw Hwr].
    apply andb_true_iff in Hw as [_ Hwl].
    destruct (IHl v Hwl) as (w1 & -> & H1 & H1' & H1'').
    destruct (IHr v Hwr) as (w2 & -> & H2 & H2' & H2'').
    exists (w1 ++ w2)%list. split; [reflexivity|].
    rewrite map_app, length_app, Nat2Z.inj_add, H1, H2, H1', H2'.
    repeat split. intros Hv. apply Forall_app. split; auto.
  - apply andb_true_iff in Hw as [Hop Hw].
    destruct op; try discriminate Hop.
    destruct (IH (sub one v) Hw) as (w & -> & H1 & H1' & H1'').
    exists w. repeat split; try assumption.
    intros Hv. apply H1''. now apply sub_one_unit.
Qed.

(** ** Reads *)

(** X16. What [GetValue] reads. The value of a tree depends on the
    states of its resolved controls alone: two states of the devices that
    agree on them give the same value (and the same failed assertion). A
    tree whose [CountNumControls] is 0 has one value, whatever the
    devices do. *)
Theorem GetValue_reads_resolved_only (e : Expression)
        (state1 state2 : Control -> ControlState) :
  ((forall c, In c (resolved_controls e) -> state1 c = state2 c) ->
   GetValue state1 e = GetValue state2 e)
  /\ (CountNumControls e = 0%Z -> GetValue state1 e = GetValue state2 e).
Proof.
  assert (H : (forall c, In c (resolved_controls e) -> state1 c = state2 c)
              -> GetValue state1 e = GetValue state2 e).
  { induction e as [q d c | op lhs IHl rhs IHr | op inner IH];
      cbn [GetValue resolved_controls]; intros Hs.
    - destruct c as [c|]; [|reflexivity]. f_equal. apply Hs. now left.
    - rewrite IHl, IHr; [reflexivity | |];
        intros c Hc; apply Hs, in_or_app; [now right | now left].
    - now rewrite IH. }
  split; [exact H|].
  intros Hc. apply H. rewrite CountNumControls_resolved in Hc.
  destruct (resolved_controls e); [intros c []|discriminate Hc].
Qed.

(** ** An operand that is not resolved *)

Lemma same_number_refl (a : ControlState) :
  unit_state a -> same_number a a = true.
Proof.
  intros Ha. unfold same_number, SFeqb.
  now rewrite (SFcompare_refl a (unit_state_not_nan a Ha)).
Qed.

Lemma unit_not_above_one (a : ControlState) :
  unit_state a -> ltb one a = false.
Proof.
  intros (_ & _ & H). unfold leb, SFleb in H. unfold ltb, SFltb.
  rewrite (SFcompare_antisym a one).
  destruct (SFcompare a one) as [[]|]; try discriminate H; reflexivity.
Qed.

Lemma unit_not_below_zero (a : ControlState) :
  unit_state a -> ltb a zero = false.
Proof.
  intros (_ & H & _). unfold leb, SFleb in H. unfold ltb, SFltb.
  rewrite (SFcompare_antisym zero a).
  destruct (SFcompare zero a) as [[]|]; try discriminate H; reflexivity.
Qed.

(** X17. An operand that is not resolved, beside an operand whose value
    [a] is in [0, 1]. It reads 0.0, so: AND with it is zero (a binding
    that needs a missing control never fires), and OR and ADD with it
    have the value of the other operand. The result is [a] itself or 0.0
    itself where the code returns one of its arguments, and equal to it
    as a number ([==], which does not tell the zeros apart) elsewhere. *)
Theorem unresolved_operand (state : Control -> ControlState)
        (e : Expression) (q : ControlQualifier) (d : option Device)
        (a : ControlState) :
  GetValue state e = Some a ->
  unit_state a ->
  (exists z,
      GetValue state (BinaryExpression TOK_AND e (ControlExpression q d None))
      = Some z /\ same_number z zero = true)
  /\ GetValue state (BinaryExpression TOK_AND (ControlExpression q d None) e)
     = Some zero
  /\ GetValue state (BinaryExpression TOK_OR e (ControlExpression q d None))
     = Some a
  /\ (exists v,
         GetValue state
           (BinaryExpression TOK_OR (ControlExpression q d None) e)
         = Some v /\ same_number v a = true)
  /\ (exists v,
         GetValue state
           (BinaryExpression TOK_ADD e (ControlExpression q d None))
         = Some v /\ same_number v a = true)
  /\ (exists v,
         GetValue state
           (BinaryExpression TOK_ADD (ControlExpression q d None) e)
         = Some v /\ same_number v a = true).
Proof.
  intros He Ha. cbn [GetValue]. rewrite He.
  pose proof (same_number_refl a Ha) as Hrefl.
  pose proof (unit_not_above_one a Ha) as H1.
  pose proof (unit_not_below_zero a Ha) as H0.
  unfold std_min, std_max. rewrite H0.
  destruct (unit_state_inv a Ha) as [[s ->] | (m & x & -> & _ & _)].
  - destruct s; repeat split; try (eexists; split; [reflexivity|]);
      reflexivity.
  - change (add (S754_finite false m x) zero) with (S754_finite false m x).
    change (add zero (S754_finite false m x)) with (S754_finite false m x).
    rewrite H1.
    change (ltb zero (S754_finite false m x)) with true. cbv iota.
    repeat split; try (eexists; split; [reflexivity|]);
      try reflexivity; exact Hrefl.
Qed.

(** ** Where the assertions hold *)

(** X18. The trees on which the evaluator does not fail an assertion.
    [GetValue] returns exactly on the trees whose binary nodes hold AND,
    OR or ADD and whose unary nodes hold NOT; [SetValue] returns exactly
    on the trees whose unary nodes hold NOT, whatever the binary nodes
    hold; the rendering returns exactly on the trees whose nodes hold a
    token that [OpName] names. The trees of the first kind, which the
    parser returns, are of the two others. *)
Theorem assertion_domains :
  (forall state e,
      (exists v, GetValue state e = Some v) <-> well_formed e = true)
  /\ (forall e v,
         (exists writes, SetValue e v = Some writes) <-> nots_only e = true)
  /\ (forall e, (exists s, to_string e = Some s) <-> named e = true)
  /\ (forall e,
         well_formed e = true -> nots_only e = true /\ named e = true).
Proof.
  split; [|split; [|split]].
  - intros state e. split; [|apply well_formed_GetValue].
    induction e as [q d c | op lhs IHl rhs IHr | op inner IH];
      cbn [GetValue well_formed]; intros (v & H); [reflexivity | |].
    + destruct (GetValue state lhs) as [a|]; [|discriminate H].
      destruct (GetValue state rhs) as [b|]; [|discriminate H].
      rewrite IHl, IHr by eauto.
      destruct op; try discriminate H; reflexivity.
    + destruct (GetValue state inner) as [a|]; [|discriminate H].
      rewrite IH by eauto. destruct op; try discriminate H; reflexivity.
  - intros e. induction e as [q d c | op lhs IHl rhs IHr | op inner IH];
      intros v; cbn [SetValue nots_only].
    + split; [reflexivity|]. intros _. destruct c; eauto.
    + split.
      * intros (w & H).
        destruct (SetValue lhs v) as [w1|] eqn:E1; [|discriminate H].
        destruct (SetValue rhs v) as [w2|] eqn:E2; [|discriminate H].
        rewrite (proj1 (IHl v)), (proj1 (IHr v)) by eauto. reflexivity.
      * intros H. apply andb_true_iff in H as [Hl Hr].
        destruct (proj2 (IHl v) Hl) as (w1 & ->).
        destruct (proj2 (IHr v) Hr) as (w2 & ->). eauto.
    + split.
      * intros (w & H). destruct op; try discriminate H.
        cbn [IsUnaryExpression andb]. apply (IH (sub one v)). eauto.
      * intros H. apply andb_true_iff in H as [Hop H].
        destruct op; try discriminate Hop. now apply IH.
  - intros e. induction e as [q d c | op lhs IHl rhs IHr | op inner IH];
      cbn [to_string named].
    + split; [reflexivity | eauto].
    + destruct (OpName op) as [name|]; cbn [andb].
      * split.
        -- intros (s & H).
           destruct (to_string lhs) as [l|]; [|discriminate H].
           destruct (to_string rhs) as [r|]; [|discriminate H].
           rewrite (proj1 IHl), (proj1 IHr) by eauto. reflexivity.
        -- intros H. apply andb_true_iff in H as [Hl Hr].
           destruct (proj2 IHl Hl) as (l & ->).
           destruct (proj2 IHr Hr) as (r & ->). eauto.
      * split; [intros (s & H); discriminate H | discriminate].
    + destruct (OpName op) as [name|]; cbn [andb].
      * split.
        -- intros (s & H).
           destruct (to_string inner) as [i|]; [|discriminate H].
           apply IH. eauto.
        -- intros H. destruct (proj2 IH H) as (i & ->). eauto.
      * split; [intros (s & H); discriminate H | discriminate].
  - intros e. induction e as [q d c | op lhs IHl rhs IHr | op inner IH];
      cbn [well_formed nots_only named]; intros H; [now split | |].
    + apply andb_true_iff in H as [H Hr].
      apply andb_true_iff in H as [Hop Hl].
      destruct (IHl Hl) as [-> ->]. destruct (IHr Hr) as [-> ->].
      destruct op; try discriminate Hop; now split.
    + apply andb_true_iff in H as [Hop H].
      destruct (IH H) as [-> ->].
      destruct op; try discriminate Hop; now split.
Qed.

(** ** Digital controls *)

(** X19. On digital controls the tree is a Boolean formula. When every
    resolved control of a tree that passes the assertions reads 1.0
    (pressed) or 0.0 (not pressed), [GetValue] is 1.0 or 0.0, exactly,
    according to the Boolean reading of the tree: AND is the
    conjunction, OR and ADD are the disjunction, NOT is the negation, and
    a control that is not resolved is not pressed. *)
Theorem digital_controls_are_boolean (state : Control -> ControlState)
        (pressed : Control -> bool) (e : Expression) :
  well_formed e = true ->
  (forall c, In c (resolved_controls e) -> state c = digital (pressed c)) ->
  GetValue state e = Some (digital (truth pressed e)).
Proof.
  induction e as [q d c | op lhs IHl rhs IHr | op inner IH];
    cbn [well_formed resolved_controls GetValue truth]; intros Hw Hs.
  - destruct c as [c|]; [|reflexivity]. f_equal. apply Hs. now left.
  - apply andb_true_iff in Hw as [Hw Hwr].
    apply andb_true_iff in Hw as [Hop Hwl].
    rewrite (IHl Hwl), (IHr Hwr)
      by (intros c Hc; apply Hs, in_or_app; auto).
    destruct op; try discriminate Hop;
      destruct (truth pressed lhs), (truth pressed rhs);
      vm_compute; reflexivity.
  - apply andb_true_iff in Hw as [Hop Hw].
    rewrite (IH Hw Hs).
    destruct op; try discriminate Hop.
    destruct (truth pressed inner); vm_compute; reflexivity.
Qed.

(** ** The order of the operands *)

Lemma SFadd_comm (x y : spec_float) : add x y = add y x.
Proof.
  unfold add.
  destruct x as [sx | sx | | sx mx ex], y as [sy | sy | | sy my ey];
    try reflexivity; try (destruct sx, sy; reflexivity).
  unfold SFadd. now rewrite Z.min_comm, Z.add_comm.
Qed.

(** [std::min] and [std::max] of two numbers, in either order. *)
Lemma std_min_comm (a b : ControlState) :
  unit_state a -> unit_state b ->
  same_number (std_min a b) (std_min b a) = true.
Proof.
  intros Ha Hb. unfold std_min, ltb, SFltb, same_number, SFeqb.
  pose proof (SFcompare_refl a (unit_state_not_nan a Ha)) as Ra.
  pose proof (SFcompare_refl b (unit_state_not_nan b Hb)) as Rb.
  pose proof (SFcompare_not_nan a b (unit_state_not_nan a Ha)
                (unit_state_not_nan b Hb)) as Hab.
  rewrite (SFcompare_antisym a b).
  destruct (SFcompare a b) as [[]|] eqn:E; cbn [CompOpp];
    [now rewrite (SFcompare_antisym b a), (SFcompare_antisym a b), E
    |now rewrite Ra | now rewrite Rb | now elim Hab].
Qed.

Lemma std_max_comm (a b : ControlState) :
  unit_state a -> unit_state b ->
  same_number (std_max a b) (std_max b a) = true.
Proof.
  intros Ha Hb. unfold std_max, ltb, SFltb, same_number, SFeqb.
  pose proof (SFcompare_refl a (unit_state_not_nan a Ha)) as Ra.
  pose proof (SFcompare_refl b (unit_state_not_nan b Hb)) as Rb.
  pose proof (SFcompare_not_nan a b (unit_state_not_nan a Ha)
                (unit_state_not_nan b Hb)) as Hab.
  rewrite (SFcompare_antisym a b).
  destruct (SFcompare a b) as [[]|] eqn:E; cbn [CompOpp];
    [now rewrite E | now rewrite Rb | now rewrite Ra | now elim Hab].
Qed.

(** X20. The order of two operands does not change the value. For
    operands with values in [0, 1], [A & B] and [B & A] evaluate to equal
    numbers, so do [A | B] and [B | A] (equal under [==]: the two results
    can differ in the sign of a zero, since [std::min] and [std::max]
    return their first argument on a tie), and [A + B] and [B + A]
    evaluate to the same double. *)
Theorem operands_commute (state : Control -> ControlState)
        (lhs rhs : Expression) (a b : ControlState) :
  GetValue state lhs = Some a ->
  GetValue state rhs = Some b ->
  unit_state a ->
  unit_state b ->
  (exists x y,
      GetValue state (BinaryExpression TOK_AND lhs rhs) = Some x
      /\ GetValue state (BinaryExpression TOK_AND rhs lhs) = Some y
      /\ same_number x y = true)
  /\ (exists x y,
         GetValue state (BinaryExpression TOK_OR lhs rhs) = Some x
         /\ GetValue state (BinaryExpression TOK_OR rhs lhs) = Some y
         /\ same_number x y = true)
  /\ GetValue state (BinaryExpression TOK_ADD lhs rhs)
     = GetValue state (BinaryExpression TOK_ADD rhs lhs).
Proof.
  intros Hl Hr Ha Hb. cbn [GetValue]. rewrite Hl, Hr.
  split; [|split].
  - eexists _, _. split; [reflexivity|]. split; [reflexivity|].
    now apply std_min_comm.
  - eexists _, _. split; [reflexivity|]. split; [reflexivity|].
    now apply std_max_comm.
  - now rewrite SFadd_comm.
Qed.

End EvaluatorProperties.

(** * Examples for the further properties *)

(** The text [`A` & B], cut behind the blank. *)
Lemma Tokenize_concat_witness :
  quoted false "`A` " = false
  /\ apart "`A` " "& B" = true
  /\ Tokenize "`A` & B"
     = Some (Successful,
             [control_token "A"; Token_of TOK_AND; control_token "B";
              Token_of TOK_EOF]).
Proof.
  split; [reflexivity|]. split; [reflexivity|].
  exact (@Tokenize_concat simple_devices "`A` " "& B" eq_refl eq_refl).
Defined.

(** A tab and blanks behind a parenthesis; between two letters a blank
    does separate. *)
Lemma whitespace_only_separates_witness :
  Tokenize ("(" ++ String "009" "  " ++ "A)") = Tokenize "(A)"
  /\ apart "A" "B" = false
  /\ Tokenize "A B" <> Tokenize "AB".
Proof.
  split; [|split; [reflexivity | discriminate]].
  exact (@whitespace_only_separates simple_devices "(" (String "009" "  ")
           "A)" eq_refl eq_refl eq_refl).
Defined.

Lemma bareword_token_witness :
  NextToken "Button & x" = (control_token "Button", " & x")
  /\ Tokenize "`Button`" = Tokenize "Button".
Proof.
  destruct (@bareword_token simple_devices "B" "utton" " & x"
              eq_refl eq_refl) as (H1 & _ & H3).
  split; [exact H1 | exact H3].
Defined.

Lemma punctuation_round_trip_witness :
  Tokenize "(!)&|+"
  = Some (Successful,
          [Token_of TOK_LPAREN; Token_of TOK_NOT; Token_of TOK_RPAREN;
           Token_of TOK_AND; Token_of TOK_OR; Token_of TOK_ADD;
           Token_of TOK_EOF])
  /\ Token_to_string (control_token "A") = "Device(A)"
  /\ Tokenize "Device(A)"
     <> Some (Successful, [control_token "A"; Token_of TOK_EOF]).
Proof.
  destruct (@punctuation_round_trip simple_devices) as (H1 & H2).
  split; [|split; [reflexivity|]].
  - exact (H1 [TOK_LPAREN; TOK_NOT; TOK_RPAREN; TOK_AND; TOK_OR; TOK_ADD]
              eq_refl).
  - exact (H2 (control_token "A") eq_refl).
Defined.

(** A digit outside the backticks, and the same digit between them. *)
Lemma Tokenize_fails_iff_witness :
  Tokenize "`A 1` & B2" = Some (SyntaxError, [])
  /\ Tokenize "`A 1` & B"
     = Some (Successful,
             [control_token "A 1"; Token_of TOK_AND; control_token "B";
              Token_of TOK_EOF]).
Proof.
  split; [|reflexivity].
  apply (proj2 (@Tokenize_fails_iff simple_devices "`A 1` & B2")).
  exists "`A 1` & B", "2"%char, "". repeat split.
Defined.

Lemma Parse_stays_in_vector_witness :
  ends_with_EOF [control_token "A"; Token_of TOK_AND; Token_of TOK_EOF]
  /\ exists result rest,
       Parse (pad_finder ["A"])
         [control_token "A"; Token_of TOK_AND; Token_of TOK_EOF]
       = Ret result rest
       /\ (result = Failed SyntaxError
           \/ exists e consumed,
                result = Parsed e
                /\ [control_token "A"; Token_of TOK_AND; Token_of TOK_EOF]
                   = (consumed ++ rest)%list
                /\ consumed <> []
                /\ stops_at rest
                /\ ends_with_EOF rest
                /\ well_formed e = true).
Proof.
  assert (He : ends_with_EOF
                 [control_token "A"; Token_of TOK_AND; Token_of TOK_EOF])
    by (exists [control_token "A"; Token_of TOK_AND], (Token_of TOK_EOF);
        split; reflexivity).
  split; [exact He|].
  exact (@Parse_stays_in_vector simple_devices (pad_finder ["A"]) _ He).
Defined.

(** A blank text, and a blank text that is the name of a control. *)
Lemma EmptyExpression_iff_blank_witness :
  ParseExpressionInner (String "009" "  ") (pad_finder [])
  = Some (Failed EmptyExpression)
  /\ ParseExpression (String "009" "  ") (pad_finder [])
     = Some (EmptyExpression, None)
  /\ ParseExpression " " (pad_finder [" "])
     = Some (Successful, Some (pad_reference [" "] " ")).
Proof.
  destruct (@EmptyExpression_iff_blank simple_devices (String "009" "  ")
              (pad_finder [])) as (H1 & H2).
  split; [exact (proj2 H1 eq_refl)|].
  split; [exact (proj2 H2 (conj eq_refl eq_refl)) | reflexivity].
Defined.

(** The texts [& A], [!!A], [A & )], [(!)] and [(A B)]. *)
Lemma syntax_errors_witness :
  let A := control_token "A" in
  let B := control_token "B" in
  let eof := Token_of TOK_EOF in
  Parse (pad_finder ["A"]) [Token_of TOK_AND; A; eof]
  = Ret (Failed SyntaxError) [A; eof]
  /\ Parse (pad_finder ["A"]) [Token_of TOK_NOT; Token_of TOK_NOT; A; eof]
     = Ret (Failed SyntaxError) [A; eof]
  /\ Parse (pad_finder ["A"]) [A; Token_of TOK_AND; Token_of TOK_RPAREN; eof]
     = Ret (Failed SyntaxError) [eof]
  /\ Parse (pad_finder ["A"])
       [Token_of TOK_LPAREN; Token_of TOK_NOT; Token_of TOK_RPAREN; eof]
     = Ret (Failed SyntaxError) [eof]
  /\ Parse (pad_finder ["A"]) [Token_of TOK_LPAREN; A; B; eof]
     = Ret (Failed SyntaxError) [eof].
Proof.
  intros A B eof.
  destruct (@syntax_errors simple_devices (pad_finder ["A"]))
    as (H1 & H2 & H3 & H4 & H5).
  split; [apply H1; [reflexivity | discriminate]|].
  split; [apply H2; reflexivity|].
  split; [apply (H3 [A] (pad_reference ["A"] "A") (Token_of TOK_AND)
                   [Token_of TOK_RPAREN; eof] [eof]); reflexivity|].
  split; [apply H4; reflexivity|].
  apply (H5 (Token_of TOK_LPAREN) [A] (pad_reference ["A"] "A") B [eof]);
    [reflexivity | reflexivity | reflexivity | discriminate].
Defined.

(** [A & !B] with a pad that has no control, and with one that has [B]. *)
Lemma Parse_with_other_finder_witness :
  let tokens := [control_token "A"; Token_of TOK_AND; Token_of TOK_NOT;
                 control_token "B"; Token_of TOK_EOF] in
  Parse (pad_finder []) tokens
  = Ret (Parsed (BinaryExpression TOK_AND (pad_reference [] "A")
                   (UnaryExpression TOK_NOT (pad_reference [] "B"))))
      [Token_of TOK_EOF]
  /\ Parse (pad_finder ["B"]) tokens
     = Ret (Parsed (BinaryExpression TOK_AND (pad_reference ["B"] "A")
                      (UnaryExpression TOK_NOT (pad_reference ["B"] "B"))))
         [Token_of TOK_EOF].
Proof.
  intros tokens. split; [reflexivity|].
  exact (proj1 (proj1 (@Parse_with_other_finder simple_devices
                         (pad_finder []) (pad_finder ["B"]))
                  tokens _ _ eq_refl)).
Defined.

(** The leaves of [B | (A & B)]. *)
Lemma parsed_leaves_witness :
  exists tokens consumed rest,
    Tokenize "B | (A & B)" = Some (Successful, tokens)
    /\ tokens = (consumed ++ rest)%list
    /\ [whole_text_qualifier "B"; whole_text_qualifier "A";
        whole_text_qualifier "B"]
       = map qualifier (filter is_control consumed)
    /\ Forall lexed
         [whole_text_qualifier "B"; whole_text_qualifier "A";
          whole_text_qualifier "B"].
Proof.
  exact (proj2 (@parsed_leaves simple_devices (pad_finder ["A"]))
           "B | (A & B)"
           (BinaryExpression TOK_OR (pad_reference ["A"] "B")
              (BinaryExpression TOK_AND (pad_reference ["A"] "A")
                 (pad_reference ["A"] "B")))
           eq_refl).
Defined.

(** [`A`|`B`] behind [`Pad:C`&]. *)
Lemma texts_compose_witness :
  ParseExpressionInner "`Pad:C`&(`A`|`B`)" (pad_finder ["A"; "C"])
  = Some (Parsed
            (BinaryExpression TOK_AND
               (ControlExpression
                  {| has_device := true; device_qualifier := "Pad";
                     control_name := "C" |}
                  (Some ("Pad", ["A"; "C"])) (Some ("Pad", "C")))
               (BinaryExpression TOK_OR (pad_reference ["A"; "C"] "A")
                  (pad_reference ["A"; "C"] "B")))).
Proof.
  destruct (@texts_compose simple_devices (pad_finder ["A"; "C"]))
    as (H1 & _ & _ & H4 & H5).
  apply H1.
  apply (H4 TOK_AND "`Pad:C`" _ "`A`|`B`" _ eq_refl).
  - exact (proj1 (H5 "Pad" "C" eq_refl eq_refl eq_refl)).
  - split; [reflexivity|].
    exists [control_token "A"; Token_of TOK_OR; control_token "B"].
    split; reflexivity.
Defined.

(** A tree with a NOT over a binary node has a text. *)
Lemma parser_range_witness :
  exists s,
    ParseExpressionInner s (pad_finder ["A"])
    = Some (Parsed
              (UnaryExpression TOK_NOT
                 (BinaryExpression TOK_ADD (pad_reference ["A"] "A")
                    (pad_reference ["A"] "B")))).
Proof.
  apply (proj2 (@parser_range simple_devices (pad_finder ["A"]) _)).
  split; [reflexivity|]. split; [|reflexivity].
  apply Forall_cons; [|apply Forall_cons; [|apply Forall_nil]];
    (split; [reflexivity | split; reflexivity]).
Defined.

(** Writes through [!(A & B) + !C] with [B] unresolved. *)
Lemma SetValue_writes_witness :
  exists writes,
    SetValue
      (BinaryExpression TOK_ADD
         (UnaryExpression TOK_NOT
            (BinaryExpression TOK_AND (pad_reference ["A"; "C"] "A")
               (pad_reference ["A"; "C"] "B")))
         (pad_reference ["A"; "C"] "C")) d0_2
    = Some writes
    /\ map fst writes = [("Pad", "A"); ("Pad", "C")]
    /\ Z.of_nat (List.length writes) = 2%Z
    /\ (unit_state d0_2 -> Forall (fun w => unit_state (snd w)) writes).
Proof.
  exact (@SetValue_writes simple_devices
           (BinaryExpression TOK_ADD
              (UnaryExpression TOK_NOT
                 (BinaryExpression TOK_AND (pad_reference ["A"; "C"] "A")
                    (pad_reference ["A"; "C"] "B")))
              (pad_reference ["A"; "C"] "C")) d0_2 eq_refl).
Defined.

(** [A | B] with [B] unresolved does not read the state of [B]. *)
Lemma GetValue_reads_resolved_only_witness :
  GetValue (pad_state d0_3 d0_7)
    (BinaryExpression TOK_OR (pad_reference ["A"] "A")
       (pad_reference ["A"] "B"))
  = GetValue (pad_state d0_3 zero)
      (BinaryExpression TOK_OR (pad_reference ["A"] "A")
         (pad_reference ["A"] "B")).
Proof.
  apply (proj1 (@GetValue_reads_resolved_only simple_devices
                  (BinaryExpression TOK_OR (pad_reference ["A"] "A")
                     (pad_reference ["A"] "B"))
                  (pad_state d0_3 d0_7) (pad_state d0_3 zero))).
  intros c [<- | []]. reflexivity.
Defined.

(** [A] at 0.3 beside a control that the pad does not have. *)
Lemma unresolved_operand_witness :
  let A := pad_reference ["A"] "A" in
  let X := pad_reference ["A"] "X" in
  GetValue (pad_state d0_3 zero) (BinaryExpression TOK_AND X A) = Some zero
  /\ GetValue (pad_state d0_3 zero) (BinaryExpression TOK_OR A X)
     = Some d0_3.
Proof.
  intros A X.
  assert (H3 : unit_state d0_3) by (repeat split; vm_compute; reflexivity).
  destruct (@unresolved_operand simple_devices (pad_state d0_3 zero) A
              (whole_text_qualifier "X") (Some ("Pad", ["A"])) d0_3
              eq_refl H3) as (_ & H2 & H4 & _).
  split; [exact H2 | exact H4].
Defined.

(** A binary node that holds NOT: it is written through and rendered,
    and it cannot be read. *)
Lemma assertion_domains_witness :
  let e := BinaryExpression TOK_NOT (pad_reference ["A"] "A")
             (pad_reference ["A"] "B") in
  well_formed e = false
  /\ (exists writes, SetValue e one = Some writes)
  /\ (exists s, to_string e = Some s)
  /\ GetValue (pad_state one one) e = None.
Proof.
  intros e.
  destruct (@assertion_domains simple_devices) as (_ & H2 & H3 & _).
  split; [reflexivity|].
  split; [exact (proj2 (H2 e one) eq_refl)|].
  split; [exact (proj2 (H3 e) eq_refl) | reflexivity].
Defined.

(** [A & !B] with [A] pressed and [B] not. *)
Lemma digital_controls_are_boolean_witness :
  GetValue (pad_state one zero)
    (BinaryExpression TOK_AND (pad_reference ["A"; "B"] "A")
       (UnaryExpression TOK_NOT (pad_reference ["A"; "B"] "B")))
  = Some one.
Proof.
  apply (@digital_controls_are_boolean simple_devices (pad_state one zero)
           (fun c => String.eqb (snd c) "A")
           (BinaryExpression TOK_AND (pad_reference ["A"; "B"] "A")
              (UnaryExpression TOK_NOT (pad_reference ["A"; "B"] "B")))
           eq_refl).
  intros c [<- | [<- | []]]; reflexivity.
Defined.

(** [A + B] and [B + A] at 0.3 and 0.7. *)
Lemma operands_commute_witness :
  let A := pad_reference ["A"; "B"] "A" in
  let B := pad_reference ["A"; "B"] "B" in
  GetValue (pad_state d0_3 d0_7) (BinaryExpression TOK_ADD A B)
  = GetValue (pad_state d0_3 d0_7) (BinaryExpression TOK_ADD B A).
Proof.
  intros A B.
  assert (H3 : unit_state d0_3) by (repeat split; vm_compute; reflexivity).
  assert (H7 : unit_state d0_7) by (repeat split; vm_compute; reflexivity).
  exact (proj2 (proj2 (@operands_commute simple_devices
                         (pad_state d0_3 d0_7) A B d0_3 d0_7
                         eq_refl eq_refl H3 H7))).
Defined.
